(** * clustered_copy: the two-phase, directory-first crawler

    A shallow embedding of [two_phase_dir_first.py] and the properties
    its specification states about it.

    Conventions of the embedding.
    - A Python [str] is a list of code points, a [bytes] value a list of
      octets; both are [list Z].
    - The code runs on a POSIX host: [os.sep] is ["/"] and [os.path] is
      [posixpath].
    - The functions of the Python library the program calls ([str.encode],
      [bytes.decode], [os.path.join], [os.path.relpath], [int.from_bytes],
      the format [{i:05d}]) are written out from their documented
      behaviour; [hashlib.blake2b] is a parameter.
    - The file system under the root is an oracle ([filesys]): what
      [os.scandir] and the [DirEntry] methods answer, errors included.
    - The output files live in a store from path to content, on a disk
      with an optional capacity; a write that does not fit raises
      [OSError].  Buffering is transparent: a write appends at once.
    - The thread pools are run under the schedule that handles one queue
      item at a time, in queue order; the handlers are the code of
      [dir_worker] and [file_worker].
    - The barrier between the two phases is a property of the threads
      themselves: it is stated on [Threads], where the threads of phase 1
      and the main thread take turns in any order, one queue operation
      or one write at a time. *)

From stdpp Require Import gmap list strings.
From Stdlib Require Import ZArith Lia Ascii.
Local Open Scope Z_scope.

Abbreviation str := (list Z).
Abbreviation bytes := (list Z).

(** ** Strings and their UTF-8 encoding *)

(** A string literal of the source, as its list of code points. *)
Definition lit (s : string) : str :=
  map (fun a => Z.of_N (N_of_ascii a)) (String.list_ascii_of_string s).

Definition valid_cp (c : Z) : Prop := 0 <= c < 0x110000.

(** [s.encode("utf-8", "surrogatepass")], one code point: with
    [surrogatepass] the surrogates U+D800..U+DFFF are encoded like any
    other code point of the three-octet range. *)
Definition utf8_char (c : Z) : bytes :=
  if c <? 0x80 then [c]
  else if c <? 0x800 then [0xC0 + c / 64; 0x80 + c mod 64]
  else if c <? 0x10000 then
    [0xE0 + c / 4096; 0x80 + (c / 64) mod 64; 0x80 + c mod 64]
  else
    [0xF0 + c / 262144; 0x80 + (c / 4096) mod 64;
     0x80 + (c / 64) mod 64; 0x80 + c mod 64].

Definition encode (s : str) : bytes := flat_map utf8_char s.

Definition is_cont (b : Z) : bool := (0x80 <=? b) && (b <? 0xC0).

(** [b.decode("utf-8", "surrogatepass")]; [None] is [UnicodeDecodeError].
    Overlong forms and values above U+10FFFF are rejected, encoded
    surrogates are accepted. *)
Fixpoint decode (b : bytes) : option str :=
  match b with
  | [] => Some []
  | b0 :: r0 =>
    if (0 <=? b0) && (b0 <? 0x80) then cons b0 <$> decode r0
    else match r0 with
    | [] => None
    | b1 :: r1 =>
      if (0xC2 <=? b0) && (b0 <? 0xE0) then
        if is_cont b1
        then cons ((b0 - 0xC0) * 64 + (b1 - 0x80)) <$> decode r1
        else None
      else match r1 with
      | [] => None
      | b2 :: r2 =>
        if (0xE0 <=? b0) && (b0 <? 0xF0) then
          let c := (b0 - 0xE0) * 4096 + (b1 - 0x80) * 64 + (b2 - 0x80) in
          if is_cont b1 && is_cont b2 && (0x800 <=? c)
          then cons c <$> decode r2 else None
        else match r2 with
        | [] => None
        | b3 :: r3 =>
          if (0xF0 <=? b0) && (b0 <? 0xF5) then
            let c := (b0 - 0xF0) * 262144 + (b1 - 0x80) * 4096
                     + (b2 - 0x80) * 64 + (b3 - 0x80) in
            if is_cont b1 && is_cont b2 && is_cont b3
               && (0x10000 <=? c) && (c <? 0x110000)
            then cons c <$> decode r3 else None
          else None
        end
      end
    end
  end.

(** ** Paths ([posixpath]) *)

Definition sep : Z := 47.
Definition curdir : str := lit ".".
Definition pardir : str := lit "..".

Definition startswith_sep (s : str) : bool :=
  match s with c :: _ => c =? sep | [] => false end.

Definition endswith_sep (s : str) : bool :=
  match last s with Some c => c =? sep | None => false end.

(** [os.path.join(a, b)] *)
Definition os_path_join (a b : str) : str :=
  if startswith_sep b then b
  else if bool_decide (a = []) || endswith_sep a then a ++ b
  else a ++ sep :: b.

(** [s.split(x)] *)
Fixpoint split_on (x : Z) (s : str) : list str :=
  match s with
  | [] => [[]]
  | c :: r =>
    if c =? x then [] :: split_on x r
    else match split_on x r with
         | w :: ws => (c :: w) :: ws
         | [] => [[c]]
         end
  end.

(** One component of [normpath] on an absolute path: empty and ["."]
    components are dropped, [".."] removes the last component kept, if
    any. *)
Definition norm_step (acc : list str) (comp : str) : list str :=
  if bool_decide (comp = []) || bool_decide (comp = curdir) then acc
  else if bool_decide (comp = pardir) then removelast acc
  else acc ++ [comp].

(** [[x for x in abspath(p).split(sep) if x]] for an absolute [p]. *)
Definition abs_comps (p : str) : list str :=
  foldl norm_step [] (split_on sep p).

(** [len(commonprefix([a, b]))] for two lists of components. *)
Fixpoint common_len (a b : list str) : nat :=
  match a, b with
  | x :: a', y :: b' =>
    if bool_decide (x = y) then S (common_len a' b') else O
  | _, _ => O
  end.

(** [os.path.relpath(path, start)] for absolute arguments. *)
Definition os_path_relpath (path start : str) : str :=
  let start_list := abs_comps start in
  let path_list := abs_comps path in
  let i := common_len start_list path_list in
  let rel_list :=
    replicate (length start_list - i)%nat pardir ++ drop i path_list in
  match rel_list with
  | [] => curdir
  | c :: cs => foldl os_path_join c cs
  end.

Definition relpath (root p : str) : str :=
  let r := os_path_relpath p root in
  if bool_decide (r = lit ".") then lit "." else r.

(** [int.from_bytes(h, "little")] *)
Definition int_from_bytes_little (h : bytes) : Z :=
  foldr (fun b acc => b + 256 * acc) 0 h.

(** The decimal digits of a natural number, most significant first;
    [fuel] bounds the number of digits. *)
Fixpoint digits (fuel : nat) (n : Z) (acc : str) : str :=
  match fuel with
  | O => acc
  | S f =>
    let acc' := (48 + n mod 10) :: acc in
    if n <? 10 then acc' else digits f (n / 10) acc'
  end.

(** [f"{i:05d}"] for [i >= 0]: decimal, padded with zeros to five
    characters. *)
Definition fmt_05d (i : Z) : str :=
  let d := digits (S (Z.to_nat i)) i [] in
  replicate (5 - length d)%nat 48 ++ d.

(** [f"shard_{i:05d}.nul"] *)
Definition shard_name (i : Z) : str :=
  lit "shard_" ++ fmt_05d i ++ lit ".nul".

(** ** The environment: file system, arguments, program state *)

Inductive exn : Type :=
| OSError
| UnicodeDecodeError
| TypeError
| IndexError
| ZeroDivisionError
| SystemExit (code : Z).

(** The result of a statement: it completes, it raises, or the calling
    thread blocks for ever.  [OutOfFuel] is not a behaviour of the
    program: a loop of the model was given too few iterations. *)
Inductive res (A : Type) : Type :=
| Ok (a : A)
| Raise (e : exn)
| Blocked
| OutOfFuel.
Arguments Ok {A} a.
Arguments Raise {A} e.
Arguments Blocked {A}.
Arguments OutOfFuel {A}.

(** What [os.scandir] hands out for one entry.  [None] in an answer of
    [is_dir] or [is_file] is an [OSError]. *)
Record DirEntry : Type := {
  name : str;
  is_dir_follow : option bool;     (* de.is_dir(follow_symlinks=True) *)
  is_dir_nofollow : option bool;   (* de.is_dir(follow_symlinks=False) *)
  is_file_nofollow : option bool   (* de.is_file(follow_symlinks=False) *)
}.

(** The iterator of [os.scandir(d)]: it yields [entries] and then, when
    [it_fails], raises [OSError] (with no entries: the call itself
    fails). *)
Record listing : Type := {
  entries : list DirEntry;
  it_fails : bool
}.

Record filesys : Type := {
  isdir : str -> bool;          (* os.path.isdir *)
  scandir : str -> listing      (* os.scandir *)
}.

Inductive shard_mode : Type := roundrobin | hash | bydir.

(** The parsed command line.  [root] is [os.path.abspath(args.root)]. *)
Record args : Type := {
  root : str;
  dirs_out : str;
  out_manifest : option str;
  outdir : option str;
  shards : Z;
  mode : shard_mode;
  workers1 : Z;
  workers2 : Z;
  maxq : Z;
  exclude : list str;
  follow_symlinks : bool
}.

Inductive item : Type :=
| Path (p : str)
| stop.

(** [queue.Queue]: the items waiting and the count of tasks not yet
    marked done. *)
Record queue : Type := {
  items : list item;
  unfinished_tasks : Z
}.

Definition empty_queue : queue := {| items := []; unfinished_tasks := 0 |}.

Inductive event : Type :=
| EvOpenAppend (p : str)
| EvOpenRead (p : str)
| EvWrite (p : str) (b : bytes)
| EvFlush (p : str)
| EvClose (p : str)
| EvScandir (d : str)
| EvStart (phase : nat) (threads : nat)
| EvQueueJoined (phase : nat)
| EvThreadsJoined (phase : nat).

(** The variables of [main] that its closures share, the files the
    program writes and what it did so far. *)
Record state : Type := {
  files : gmap str bytes;
  disk_free : option Z;
  dirs_emitted : Z;
  dir_q : queue;
  rr_counter : Z;
  files_emitted : Z;
  dir_in_q : queue;
  log : list event
}.

Definition init_state (fl : gmap str bytes) (free : option Z) : state :=
  {| files := fl; disk_free := free; dirs_emitted := 0;
     dir_q := empty_queue; rr_counter := 0; files_emitted := 0;
     dir_in_q := empty_queue; log := [] |}.

Definition set_files (f : gmap str bytes) (free : option Z) (s : state) : state :=
  {| files := f; disk_free := free; dirs_emitted := dirs_emitted s;
     dir_q := dir_q s; rr_counter := rr_counter s;
     files_emitted := files_emitted s; dir_in_q := dir_in_q s;
     log := log s |}.

Definition set_dirs_emitted (n : Z) (s : state) : state :=
  {| files := files s; disk_free := disk_free s; dirs_emitted := n;
     dir_q := dir_q s; rr_counter := rr_counter s;
     files_emitted := files_emitted s; dir_in_q := dir_in_q s;
     log := log s |}.

Definition set_dir_q (q : queue) (s : state) : state :=
  {| files := files s; disk_free := disk_free s;
     dirs_emitted := dirs_emitted s;
     dir_q := q; rr_counter := rr_counter s;
     files_emitted := files_emitted s; dir_in_q := dir_in_q s;
     log := log s |}.

Definition set_rr_counter (n : Z) (s : state) : state :=
  {| files := files s; disk_free := disk_free s;
     dirs_emitted := dirs_emitted s;
     dir_q := dir_q s; rr_counter := n;
     files_emitted := files_emitted s; dir_in_q := dir_in_q s;
     log := log s |}.

Definition set_files_emitted (n : Z) (s : state) : state :=
  {| files := files s; disk_free := disk_free s;
     dirs_emitted := dirs_emitted s;
     dir_q := dir_q s; rr_counter := rr_counter s;
     files_emitted := n; dir_in_q := dir_in_q s;
     log := log s |}.

Definition set_dir_in_q (q : queue) (s : state) : state :=
  {| files := files s; disk_free := disk_free s;
     dirs_emitted := dirs_emitted s;
     dir_q := dir_q s; rr_counter := rr_counter s;
     files_emitted := files_emitted s; dir_in_q := q;
     log := log s |}.

Definition add_event (e : event) (s : state) : state :=
  {| files := files s; disk_free := disk_free s;
     dirs_emitted := dirs_emitted s;
     dir_q := dir_q s; rr_counter := rr_counter s;
     files_emitted := files_emitted s; dir_in_q := dir_in_q s;
     log := log s ++ [e] |}.

(** ** Statements: state passing with exceptions *)

Definition M (A : Type) : Type := state -> res A * state.

Definition ret {A} (a : A) : M A := fun s => (Ok a, s).

Definition bind {A B} (m : M A) (k : A -> M B) : M B :=
  fun s =>
    match m s with
    | (Ok a, s') => k a s'
    | (Raise e, s') => (Raise e, s')
    | (Blocked, s') => (Blocked, s')
    | (OutOfFuel, s') => (OutOfFuel, s')
    end.

Definition raise {A} (e : exn) : M A := fun s => (Raise e, s).

Definition block {A} : M A := fun s => (Blocked, s).

Definition out_of_fuel {A} : M A := fun s => (OutOfFuel, s).

Definition gets {A} (f : state -> A) : M A := fun s => (Ok (f s), s).

Definition modify (f : state -> state) : M unit := fun s => (Ok tt, f s).

Notation "x <- m ;; k" := (bind m (fun x => k))
  (at level 90, m at level 89, right associativity).
Notation "m ;;; k" := (bind m (fun _ => k))
  (at level 90, right associativity).

(** [try: m except (PermissionError, OSError): h]; [PermissionError] is
    a subclass of [OSError]. *)
Definition try_except_OSError {A} (m : M A) (h : M A) : M A :=
  fun s =>
    match m s with
    | (Raise OSError, s') => h s'
    | r => r
    end.

(** [try: m finally: f] *)
Definition try_finally {A} (m : M A) (f : M unit) : M A :=
  fun s =>
    match m s with
    | (Ok a, s') => (_ <- f ;; ret a) s'
    | (Raise e, s') => (_ <- f ;; raise e) s'
    | (Blocked, s') => (Blocked, s')
    | (OutOfFuel, s') => (OutOfFuel, s')
    end.

(** [for x in l: body x] *)
Fixpoint for_each {A} (l : list A) (body : A -> M unit) : M unit :=
  match l with
  | [] => ret tt
  | x :: l' => body x ;;; for_each l' body
  end.

(** ** Files *)

Definition content (p : str) (s : state) : bytes :=
  default [] (files s !! p).

Definition fits (n : Z) (free : option Z) : bool :=
  match free with
  | None => true
  | Some f => n <=? f
  end.

Definition use_space (n : Z) (free : option Z) : option Z :=
  (fun f => f - n) <$> free.

(** [open(p, "ab")]: the file is created when it does not exist, and is
    never truncated.  An empty path is [FileNotFoundError]. *)
Definition open_append (p : str) : M unit :=
  if bool_decide (p = []) then raise OSError
  else modify (fun s =>
    add_event (EvOpenAppend p)
      (set_files (<[p := content p s]> (files s)) (disk_free s) s)).

(** [f.write(b)] on a file opened for appending. *)
Definition file_write (p : str) (b : bytes) : M unit :=
  fun s =>
    let n := Z.of_nat (length b) in
    if fits n (disk_free s) then
      (Ok tt, add_event (EvWrite p b)
                (set_files (<[p := content p s ++ b]> (files s))
                           (use_space n (disk_free s)) s))
    else (Raise OSError, s).

Definition file_flush (p : str) : M unit := modify (add_event (EvFlush p)).

Definition file_close (p : str) : M unit := modify (add_event (EvClose p)).

(** [f.read(n)] at offset [pos] of a file opened with ["rb"]. *)
Definition file_read (p : str) (pos n : nat) : M bytes :=
  gets (fun s => take n (drop pos (content p s))).

(** ** Queues *)

(** [q.put(x)] on a queue of capacity [maxsize] (no bound when
    [maxsize <= 0]): on a full queue the caller blocks. *)
Definition q_put (maxsize : Z) (x : item) (q : queue) : option queue :=
  if (0 <? maxsize) && (maxsize <=? Z.of_nat (length (items q))) then None
  else Some {| items := items q ++ [x];
               unfinished_tasks := unfinished_tasks q + 1 |}.

Definition q_task_done (q : queue) : queue :=
  {| items := items q; unfinished_tasks := unfinished_tasks q - 1 |}.

Definition q_pop (q : queue) : queue :=
  {| items := tail (items q); unfinished_tasks := unfinished_tasks q |}.

Definition dir_q_put (a : args) (x : item) : M unit :=
  fun s =>
    match q_put (maxq a) x (dir_q s) with
    | Some q => (Ok tt, set_dir_q q s)
    | None => (Blocked, s)
    end.

Definition dir_in_q_put (a : args) (x : item) : M unit :=
  fun s =>
    match q_put (maxq a) x (dir_in_q s) with
    | Some q => (Ok tt, set_dir_in_q q s)
    | None => (Blocked, s)
    end.

(** [q.join()]: returns once every task put was marked done; here the
    pool is quiescent, so otherwise the caller waits for ever. *)
Definition q_join (q : state -> queue) : M unit :=
  fun s => if unfinished_tasks (q s) =? 0 then (Ok tt, s) else (Blocked, s).

(** ** Phase 1: directory discovery *)

Definition de_path (d : str) (de : DirEntry) : str :=
  os_path_join d (name de).

Definition de_is_dir (de : DirEntry) (follow : bool) : M bool :=
  match (if follow then is_dir_follow de else is_dir_nofollow de) with
  | Some b => ret b
  | None => raise OSError
  end.

Definition de_is_file (de : DirEntry) : M bool :=
  match is_file_nofollow de with
  | Some b => ret b
  | None => raise OSError
  end.

Definition emit_dir (a : args) (rel_dir : str) : M unit :=
  file_write (dirs_out a) (encode rel_dir ++ [0]) ;;;
  modify (fun s => set_dirs_emitted (dirs_emitted s + 1) s) ;;;
  n <- gets dirs_emitted ;;
  if Z.land n 0xFFFF =? 0 then file_flush (dirs_out a) else ret tt.

(** The body of [for de in it] in [dir_worker], with its [try]. *)
Definition dir_worker_entry (a : args) (d : str) (de : DirEntry) : M unit :=
  try_except_OSError
    (b <- de_is_dir de (follow_symlinks a) ;;
     if b then
       if bool_decide (name de ∈ exclude a) then ret tt
       else emit_dir a (relpath (root a) (de_path d de)) ;;;
            dir_q_put a (Path (de_path d de))
     else ret tt)
    (ret tt).

(** [with os.scandir(d) as it: for de in it: body] *)
Definition scan (fs : filesys) (d : str) (body : DirEntry -> M unit) : M unit :=
  modify (add_event (EvScandir d)) ;;;
  for_each (entries (scandir fs d)) body ;;;
  if it_fails (scandir fs d) then raise OSError else ret tt.

(** One turn of the loop of [dir_worker] on the item it got; [true] when
    the thread returns. *)
Definition dir_worker_item (a : args) (fs : filesys) (x : item) : M bool :=
  match x with
  | stop => modify (fun s => set_dir_q (q_task_done (dir_q s)) s) ;;; ret true
  | Path d =>
    try_finally
      (try_except_OSError (scan fs d (dir_worker_entry a d)) (ret tt))
      (modify (fun s => set_dir_q (q_task_done (dir_q s)) s)) ;;;
    ret false
  end.

(** The phase-1 pool: while an item waits and a thread is alive, a thread
    takes the item at the head of the queue and handles it.  The result
    is the number of threads left, all waiting in [dir_q.get()]. *)
Fixpoint dir_worker (fuel : nat) (a : args) (fs : filesys) (alive : nat) : M nat :=
  match fuel with
  | O => out_of_fuel
  | S fuel' =>
    q <- gets dir_q ;;
    match alive, items q with
    | O, _ => ret O
    | _, [] => ret alive
    | S alive', x :: _ =>
      modify (set_dir_q (q_pop q)) ;;;
      returned <- dir_worker_item a fs x ;;
      dir_worker fuel' a fs (if returned : bool then alive' else alive)
    end
  end.

(** [for _ in ths1: dir_q.put(stop)], each sentinel taken by a thread as
    soon as it is put. *)
Fixpoint stop_dir_workers (n : nat) (a : args) (fs : filesys) (alive : nat) : M nat :=
  match n with
  | O => ret alive
  | S n' =>
    dir_q_put a stop ;;;
    alive' <- dir_worker 2 a fs alive ;;
    stop_dir_workers n' a fs alive'
  end.

(** [for t in ths: t.join()] *)
Definition join_threads (alive : nat) : M unit :=
  match alive with O => ret tt | S _ => block end.

(** ** Phase 2: file listing and sharding *)

(** [buf.index(x, start)]; [None] is [ValueError]. *)
Fixpoint index_of (x : Z) (l : bytes) : option nat :=
  match l with
  | [] => None
  | b :: r => if b =? x then Some O else S <$> index_of x r
  end.

Definition bytes_index (buf : bytes) (x : Z) (start : nat) : option nat :=
  Nat.add start <$> index_of x (drop start buf).

(** [buf[i:j]] *)
Definition slice (buf : bytes) (i j : nat) : bytes :=
  take (j - i) (drop i buf).

Definition falsy (o : option str) : bool :=
  match o with
  | None => true
  | Some s => bool_decide (s = [])
  end.

Definition range (n : Z) : list Z := Z.of_nat <$> seq 0 (Z.to_nat n).

(** The directories that [os.makedirs] creates around the output files
    are not part of the store: only the files are. *)
Definition open_outputs (out_manifest outdir : option str) (shards : Z)
  : M (list str) :=
  if 0 <? shards then
    match outdir with
    | None => raise TypeError
    | Some od =>
      let outs := (fun i => os_path_join od (shard_name i)) <$> range shards in
      for_each outs open_append ;;; ret outs
    end
  else
    match out_manifest with
    | None => raise TypeError
    | Some om => open_append om ;;; ret [om]
    end.

Section WithHash.

(** [hashlib.blake2b(data, digest_size=n).digest()] *)
Variable blake2b : bytes -> Z -> bytes.

Definition choose_out (a : args) (outs : list str)
    (full_rel_path dir_rel : str) : M Z :=
  let n := Z.of_nat (length outs) in
  if n =? 1 then ret 0
  else if n =? 0 then raise ZeroDivisionError
  else match mode a with
  | roundrobin =>
    i <- gets rr_counter ;;
    modify (fun s => set_rr_counter (rr_counter s + 1) s) ;;;
    ret (i mod n)
  | bydir =>
    let h := blake2b (encode dir_rel) 4 in
    ret (int_from_bytes_little h mod n)
  | hash =>
    let h := blake2b (encode full_rel_path) 4 in
    ret (int_from_bytes_little h mod n)
  end.

(** [rel_file] as [file_worker] builds it. *)
Definition rel_file_of (dir_rel : str) (de : DirEntry) : str :=
  if bool_decide (dir_rel = lit ".") then name de
  else dir_rel ++ sep :: name de.

(** The body of [for de in it] in [file_worker], with its [try]. *)
Definition file_worker_entry (a : args) (outs : list str) (dir_rel : str)
    (de : DirEntry) : M unit :=
  try_except_OSError
    (b <- de_is_file de ;;
     if b then
       let rel_file := rel_file_of dir_rel de in
       idx <- choose_out a outs rel_file dir_rel ;;
       let b := encode rel_file ++ [0] in
       match outs !! Z.to_nat idx with
       | Some o => file_write o b
       | None => raise IndexError
       end ;;;
       modify (fun s => set_files_emitted (files_emitted s + 1) s) ;;;
       n <- gets files_emitted ;;
       if Z.land n 0xFFFFF =? 0 then for_each outs file_flush else ret tt
     else ret tt)
    (ret tt).

Definition dir_abs_of (a : args) (dir_rel : str) : str :=
  if bool_decide (dir_rel = lit ".") then root a
  else os_path_join (root a) dir_rel.

(** One turn of the loop of [file_worker] on the item it got; [true]
    when the thread returns. *)
Definition file_worker_item (a : args) (fs : filesys) (outs : list str)
    (x : item) : M bool :=
  match x with
  | stop =>
    modify (fun s => set_dir_in_q (q_task_done (dir_in_q s)) s) ;;; ret true
  | Path dir_rel =>
    try_finally
      (try_except_OSError
         (scan fs (dir_abs_of a dir_rel) (file_worker_entry a outs dir_rel))
         (ret tt))
      (modify (fun s => set_dir_in_q (q_task_done (dir_in_q s)) s)) ;;;
    ret false
  end.

(** The phase-2 pool, as [dir_worker]. *)
Fixpoint file_worker (fuel : nat) (a : args) (fs : filesys) (outs : list str)
    (alive : nat) : M nat :=
  match fuel with
  | O => out_of_fuel
  | S fuel' =>
    q <- gets dir_in_q ;;
    match alive, items q with
    | O, _ => ret O
    | _, [] => ret alive
    | S alive', x :: _ =>
      modify (set_dir_in_q (q_pop q)) ;;;
      returned <- file_worker_item a fs outs x ;;
      file_worker fuel' a fs outs (if returned : bool then alive' else alive)
    end
  end.

(** [dir_in_q.put(x)], the item taken by a thread as soon as it is put. *)
Definition hand_over (a : args) (fs : filesys) (outs : list str)
    (alive : nat) (x : item) : M nat :=
  dir_in_q_put a x ;;;
  file_worker 2 a fs outs alive.

Fixpoint stop_file_workers (n : nat) (a : args) (fs : filesys)
    (outs : list str) (alive : nat) : M nat :=
  match n with
  | O => ret alive
  | S n' =>
    alive' <- hand_over a fs outs alive stop ;;
    stop_file_workers n' a fs outs alive'
  end.

(** The inner loop of the reader: the records of [buf] from [start] on
    are put, what follows the last NUL is kept. *)
Fixpoint put_records (fuel : nat) (put : str -> M unit) (buf : bytes)
    (start : nat) : M bytes :=
  match fuel with
  | O => out_of_fuel
  | S fuel' =>
    match bytes_index buf 0 start with
    | None => ret (drop start buf)
    | Some i =>
      match decode (slice buf start i) with
      | None => raise UnicodeDecodeError
      | Some s =>
        let dir_rel := if bool_decide (s = []) then lit "." else s in
        put dir_rel ;;;
        put_records fuel' put buf (S i)
      end
    end
  end.

(** The outer loop of the reader, on the file [p] read from [pos] on in
    chunks of [chunk] octets. *)
Fixpoint read_dirs (fuel : nat) (chunk : nat) (put : str -> M unit)
    (p : str) (pos : nat) (buf : bytes) : M unit :=
  match fuel with
  | O => out_of_fuel
  | S fuel' =>
    c <- file_read p pos chunk ;;
    match c with
    | [] => ret tt
    | _ :: _ =>
      let buf1 := buf ++ c in
      buf2 <- put_records (S (length buf1)) put buf1 0 ;;
      read_dirs fuel' chunk put p (pos + length c) buf2
    end
  end.

Definition chunk_size : nat := Z.to_nat (1024 * 1024).

Definition pool_size (workers : Z) : nat := Z.to_nat (Z.max 1 workers).

Definition phase1 (fuel : nat) (a : args) (fs : filesys) : M unit :=
  modify (set_dir_q empty_queue) ;;;
  modify (set_dirs_emitted 0) ;;;
  open_append (dirs_out a) ;;;
  emit_dir a (lit ".") ;;;
  dir_q_put a (Path (root a)) ;;;
  modify (add_event (EvStart 1 (pool_size (workers1 a)))) ;;;
  alive <- dir_worker fuel a fs (pool_size (workers1 a)) ;;
  q_join dir_q ;;;
  modify (add_event (EvQueueJoined 1)) ;;;
  alive <- stop_dir_workers (pool_size (workers1 a)) a fs alive ;;
  join_threads alive ;;;
  modify (add_event (EvThreadsJoined 1)) ;;;
  file_flush (dirs_out a) ;;;
  file_close (dirs_out a).

(** The reader needs one turn of its outer loop for each chunk and one
    more to see the end of the file: the length of the file is enough. *)
Definition phase2 (a : args) (fs : filesys) : M unit :=
  outs <- open_outputs (out_manifest a) (outdir a) (shards a) ;;
  modify (set_rr_counter 0) ;;;
  modify (set_files_emitted 0) ;;;
  modify (set_dir_in_q empty_queue) ;;;
  let n := pool_size (workers2 a) in
  modify (add_event (EvStart 2 n)) ;;;
  modify (add_event (EvOpenRead (dirs_out a))) ;;;
  ledger <- gets (content (dirs_out a)) ;;
  read_dirs (S (length ledger)) chunk_size
    (fun dir_rel => hand_over a fs outs n (Path dir_rel) ;;; ret tt)
    (dirs_out a) O [] ;;;
  q_join dir_in_q ;;;
  modify (add_event (EvQueueJoined 2)) ;;;
  alive <- stop_file_workers n a fs outs n ;;
  join_threads alive ;;;
  modify (add_event (EvThreadsJoined 2)) ;;;
  for_each outs (fun o => file_flush o ;;; file_close o).

Definition main (fuel : nat) (a : args) (fs : filesys) : M unit :=
  if negb (isdir fs (root a)) then raise (SystemExit 2)
  else if (shards a =? 0) && falsy (out_manifest a) then raise (SystemExit 2)
  else if (0 <? shards a) && falsy (outdir a) then raise (SystemExit 2)
  else phase1 fuel a fs ;;; phase2 a fs.

End WithHash.


(** ** Reference functions used to state the properties *)

(** A record of an output file: the encoded path and its terminator. *)
Definition enc_record (r : str) : bytes := encode r ++ [0].

(** [write_all rs] is what a file holds after the records [rs] were
    written to it in this order. *)
Definition write_all (rs : list str) : bytes := flat_map enc_record rs.

(** The records of a file: the octets before each NUL; what follows the
    last NUL is not a record. *)
Fixpoint records_from (cur : bytes) (l : bytes) : list bytes :=
  match l with
  | [] => []
  | b :: r =>
    if b =? 0 then cur :: records_from [] r
    else records_from (cur ++ [b]) r
  end.

Definition records (l : bytes) : list bytes := records_from [] l.

(** What follows the last NUL of [cur ++ l]. *)
Fixpoint leftover_from (cur : bytes) (l : bytes) : bytes :=
  match l with
  | [] => cur
  | b :: r =>
    if b =? 0 then leftover_from [] r
    else leftover_from (cur ++ [b]) r
  end.

(** [x or "."] *)
Definition or_dot (s : str) : str :=
  if bool_decide (s = []) then lit "." else s.

(** The reader, record by record. *)
Fixpoint put_all (put : str -> M unit) (rs : list bytes) : M unit :=
  match rs with
  | [] => ret tt
  | r :: rs' =>
    match decode r with
    | None => raise UnicodeDecodeError
    | Some s => put (or_dot s) ;;; put_all put rs'
    end
  end.

(** A path as the program writes it: code points of Unicode, none of
    them U+0000, and at least one. *)
Definition wf_path (r : str) : Prop :=
  r <> [] /\ Forall valid_cp r /\ (0 ∉ r).

(** An entry name as the operating system gives it: not empty, no NUL,
    no separator, neither ["."] nor [".."]. *)
Definition wf_name (n : str) : Prop :=
  n <> [] /\ Forall valid_cp n /\ (0 ∉ n) /\ (sep ∉ n)
  /\ n <> curdir /\ n <> pardir.

Definition wf_fs (fs : filesys) : Prop :=
  forall d de, de ∈ entries (scandir fs d) -> wf_name (name de).

(** [c/x1/.../xn] *)
Definition sep_join (c : str) (cs : list str) : str :=
  c ++ flat_map (cons sep) cs.

(** The relative path with the components [xs]; the root is ["."]. *)
Definition rel_of (xs : list str) : str :=
  match xs with
  | [] => curdir
  | c :: cs => sep_join c cs
  end.

(** A name that phase 1 follows. *)
Definition good_name (a : args) (x : str) : Prop :=
  wf_name x /\ x ∉ exclude a.

(** A directory below the root, reached through names that phase 1
    follows. *)
Definition good_abs (a : args) (d : str) : Prop :=
  exists xs, abs_comps d = abs_comps (root a) ++ xs /\ Forall (good_name a) xs.

Definition good_rel (a : args) (r : str) : Prop :=
  exists xs, Forall (good_name a) xs /\ r = rel_of xs.

Definition good_file (a : args) (f : str) : Prop :=
  exists xs n, Forall (good_name a) xs /\ wf_name n /\ f = rel_of (xs ++ [n]).

(** The list [open_outputs] returns. *)
Definition outs_of (a : args) : list str :=
  if 0 <? shards a then
    match outdir a with
    | Some od => (fun i => os_path_join od (shard_name i)) <$> range (shards a)
    | None => []
    end
  else
    match out_manifest a with
    | Some om => [om]
    | None => []
    end.

(** What was written to the file [p], in order. *)
Definition payloads (p : str) (l : list event) : bytes :=
  flat_map (fun e =>
    match e with
    | EvWrite q b => if bool_decide (q = p) then b else []
    | _ => []
    end) l.

(** [put] leaves the file [p] as it is. *)
Definition keeps (p : str) (put : str -> M unit) : Prop :=
  forall d s, content p (snd (put d s)) = content p s.

(** ** A logic of invariants

    [holds I m Q]: the statement [m] keeps the invariant [I], however it
    ends, and a value it returns satisfies [Q]. *)
Definition holds {A} (I : state -> Prop) (m : M A) (Q : A -> Prop) : Prop :=
  forall s, I s -> I (snd (m s)) /\ forall a, fst (m s) = Ok a -> Q a.

Definition any {A} : A -> Prop := fun _ => True.

(** ** The invariant of a run *)

(** A record of an output file: a regular file [de] listed in a directory
    of the ledger, under the path [file_worker] builds for it. *)
Definition file_record (a : args) (fs : filesys) (b : bytes) : Prop :=
  exists dir_rel de,
    good_rel a dir_rel
    /\ de ∈ entries (scandir fs (dir_abs_of a dir_rel))
    /\ is_file_nofollow de = Some true
    /\ b = enc_record (rel_file_of dir_rel de).

(** What a run may do: it scans directories that phase 1 follows, writes
    their relative paths to the ledger and the records of their files to
    the outputs. *)
Definition good_event (a : args) (fs : filesys) (e : event) : Prop :=
  match e with
  | EvScandir d => good_abs a d
  | EvWrite p b =>
    (p = dirs_out a /\ exists r, good_rel a r /\ b = enc_record r)
    \/ (p ∈ outs_of a /\ file_record a fs b)
  | _ => True
  end.

Record run_inv (a : args) (fs : filesys) (s : state) : Prop := {
  inv_queue : forall d, Path d ∈ items (dir_q s) -> good_abs a d;
  inv_queue2 : forall d, Path d ∈ items (dir_in_q s) -> good_rel a d;
  inv_ledger : exists rs,
    content (dirs_out a) s = write_all rs /\ Forall (good_rel a) rs;
  inv_log : Forall (good_event a fs) (log s)
}.

Definition files_only (I : state -> Prop) : Prop :=
  forall s s', files s' = files s -> disk_free s' = disk_free s ->
    log s' = log s -> I s -> I s'.

Definition is_write (e : event) : bool :=
  match e with EvWrite _ _ => true | _ => false end.

(** Every file holds what it held at the start, followed by what the
    log says was written to it; a file that existed still exists. *)
Definition appended (s0 s : state) : Prop :=
  forall p,
    content p s = content p s0 ++ payloads p (log s)
    /\ (is_Some (files s0 !! p) -> is_Some (files s !! p)).

(** The routing key of a file under a hashing mode. *)
Definition routing_key (m : shard_mode) (full_rel_path dir_rel : str) : str :=
  match m with
  | bydir => dir_rel
  | _ => full_rel_path
  end.

(** The index the hashing modes compute. *)
Definition hashed_index (blake2b : bytes -> Z -> bytes) (key : str) (n : nat) : Z :=
  int_from_bytes_little (blake2b (encode key) 4) mod Z.of_nat n.

Definition toy_digest (data : bytes) (n : Z) : bytes :=
  take (Z.to_nat n) (data ++ replicate (Z.to_nat n) 0).

Definition args_bydir4 : args :=
  {| root := lit "/r"; dirs_out := lit "dirs.nul"; out_manifest := None;
     outdir := Some (lit "out"); shards := 4; mode := bydir;
     workers1 := 32; workers2 := 64; maxq := 200000; exclude := [];
     follow_symlinks := false |}.

Definition file_entry (n : string) : DirEntry :=
  {| name := lit n; is_dir_follow := Some false;
     is_dir_nofollow := Some false; is_file_nofollow := Some true |}.

(** The ledger a run may start from: no file or an empty one, or the
    ledger an earlier run left for the same root and exclusions. *)
Definition ledger_ok (a : args) (fl : gmap str bytes) : Prop :=
  exists rs,
    default [] (fl !! dirs_out a) = write_all rs /\ Forall (good_rel a) rs.

(** ** A file system given by a table, and the trees of the scenarios *)

(** The listing of a path that is not a directory: [os.scandir] fails. *)
Definition no_dir : listing := {| entries := []; it_fails := true |}.

Fixpoint lookup_dir (tbl : list (str * listing)) (p : str) : listing :=
  match tbl with
  | [] => no_dir
  | (q, l) :: t => if bool_decide (q = p) then l else lookup_dir t p
  end.

Definition fs_of (tbl : list (str * listing)) : filesys :=
  {| isdir := fun p => bool_decide (p ∈ tbl.*1);
     scandir := lookup_dir tbl |}.

Definition dir_entry (n : string) : DirEntry :=
  {| name := lit n; is_dir_follow := Some true;
     is_dir_nofollow := Some true; is_file_nofollow := Some false |}.


Definition listed (es : list DirEntry) : listing :=
  {| entries := es; it_fails := false |}.

(** The root [/r] holds the directories [a] and [b] and the file
    [f1.txt]; [a] holds [x.txt], [b] holds [y.txt]. *)
Definition tree1 : filesys :=
  fs_of [(lit "/r", listed [dir_entry "a"; dir_entry "b"; file_entry "f1.txt"]);
         (lit "/r/a", listed [file_entry "x.txt"]);
         (lit "/r/b", listed [file_entry "y.txt"])].

(** One manifest, [b] excluded. *)
Definition args1 : args :=
  {| root := lit "/r"; dirs_out := lit "dirs.nul";
     out_manifest := Some (lit "files.nul"); outdir := None; shards := 0;
     mode := bydir; workers1 := 32; workers2 := 64; maxq := 200000;
     exclude := [lit "b"]; follow_symlinks := false |}.

Definition wf_table (tbl : list (str * listing)) : Prop :=
  Forall (fun x => Forall (fun de => wf_name (name de)) (entries x.2)) tbl.

Global Instance valid_cp_dec c : Decision (valid_cp c).
Proof. unfold valid_cp. apply _. Defined.

Global Instance wf_name_dec n : Decision (wf_name n).
Proof. unfold wf_name. apply _. Defined.

Global Instance wf_path_dec n : Decision (wf_path n).
Proof. unfold wf_path. apply _. Defined.

Global Instance wf_table_dec tbl : Decision (wf_table tbl).
Proof. unfold wf_table. apply _. Defined.

Global Instance event_eq_dec : EqDecision event.
Proof. solve_decision. Defined.

(** A [put] that only notes the directory it is given. *)
Definition note_dir (d : str) : M unit := modify (add_event (EvScandir d)).

(** A ledger with an empty record between [a] and [b]. *)
Definition ledger_gap : state :=
  init_state {[ lit "dirs.nul" := encode (lit "a") ++ [0; 0] ++ encode (lit "b") ++ [0] ]} None.

(** ** The tree of the directories phase 1 follows *)

(** An entry that phase 1 takes for a directory to follow. *)
Definition followed (a : args) (de : DirEntry) : bool :=
  match (if follow_symlinks a then is_dir_follow de else is_dir_nofollow de) with
  | Some true => negb (bool_decide (name de ∈ exclude a))
  | _ => false
  end.

Fixpoint subdirs_of (a : args) (d : str) (es : list DirEntry) : list str :=
  match es with
  | [] => []
  | de :: es' =>
    if followed a de then de_path d de :: subdirs_of a d es'
    else subdirs_of a d es'
  end.

Definition subdirs (a : args) (fs : filesys) (d : str) : list str :=
  subdirs_of a d (entries (scandir fs d)).

(** The number of directories at and below [d], when none is deeper than
    [n] levels. *)
Fixpoint tree_size (n : nat) (a : args) (fs : filesys) (d : str) : option nat :=
  match n with
  | O => None
  | S n' =>
    (fun ks => S (sum_list ks)) <$> mapM (tree_size n' a fs) (subdirs a fs d)
  end.

Definition sz (n : nat) (a : args) (fs : filesys) (d : str) : nat :=
  default O (tree_size n a fs d).

Definition ok (n : nat) (a : args) (fs : filesys) (d : str) : Prop :=
  is_Some (tree_size n a fs d).

(** The queue never blocks a tree of [k] directories. *)
Definition room_for (a : args) (k : nat) : Prop :=
  maxq a <= 0 \/ Z.of_nat k <= maxq a.

(** The command line passes the checks of [main], and the ledger has a
    name. *)
Definition config_ok (a : args) (fs : filesys) : Prop :=
  isdir fs (root a) = true
  /\ dirs_out a <> []
  /\ (shards a <= 0 -> falsy (out_manifest a) = false)
  /\ (0 < shards a -> falsy (outdir a) = false).



Definition is_raise {A} (r : res A) : bool :=
  match r with Raise _ => true | _ => false end.


(** The state without its files: what a statement that never reads a
    file depends on. *)
Definition forget (s : state) : state := set_files ∅ (disk_free s) s.

(** [blind m]: the statement [m] neither reads a file nor looks at what
    the files hold: from two states that differ in their files only, it
    ends the same way, in two states that differ in their files only. *)
Definition blind {A} (m : M A) : Prop :=
  forall s s', forget s = forget s' ->
    fst (m s) = fst (m s') /\ forget (snd (m s)) = forget (snd (m s')).

(** The index [choose_out] returns under the modes [bydir] and [hash]. *)
Definition static_index (blake2b : bytes -> Z -> bytes) (a : args)
    (outs : list str) (full_rel_path dir_rel : str) : Z :=
  if Z.of_nat (length outs) =? 1 then 0
  else hashed_index blake2b (routing_key (mode a) full_rel_path dir_rel)
         (length outs).

(** The records the entry [de] of the directory [dir_rel] adds to the
    file [o]. *)
Definition entry_files (blake2b : bytes -> Z -> bytes) (a : args)
    (outs : list str) (o : str) (dir_rel : str) (de : DirEntry) : list str :=
  match is_file_nofollow de with
  | Some true =>
    let f := rel_file_of dir_rel de in
    if bool_decide (outs !! Z.to_nat (static_index blake2b a outs f dir_rel)
                    = Some o)
    then [f] else []
  | _ => []
  end.

(** The records the directory [dir_rel] of the ledger adds to the file
    [o]. *)
Definition item_files (blake2b : bytes -> Z -> bytes) (a : args)
    (fs : filesys) (outs : list str) (o : str) (dir_rel : str) : list str :=
  flat_map (entry_files blake2b a outs o dir_rel)
    (entries (scandir fs (dir_abs_of a dir_rel))).

(** The outputs a run may start from: each of them, when it exists, ends
    with a record that is complete. *)
Definition outs_ok (a : args) (fl : gmap str bytes) : Prop :=
  forall o, o ∈ outs_of a -> leftover_from [] (default [] (fl !! o)) = [].

(** ** The threads of phase 1, interleaved

    The barrier between the phases is a property of the threads, so here
    the threads of phase 1 and the main thread take turns in any order,
    one queue operation or one write at a time.  The main thread is
    followed from [dir_q.join()] to the opening of the ledger for
    reading. *)
Module Threads.

(** Where a thread is in [dir_worker]. *)
Inductive wstate : Type :=
| Waiting                      (* in [dir_q.get()] *)
| Got (x : item)               (* [d = dir_q.get()] has returned *)
| Scanning (d : str) (todo : list DirEntry)
                               (* in [for de in it], [todo] to come *)
| Putting (d : str) (de : DirEntry) (todo : list DirEntry)
                               (* [emit_dir] done, in [dir_q.put(de.path)] *)
| Finishing                    (* in [finally], before [task_done()] *)
| Returned.

(** Where the main thread is. *)
Inductive mstate : Type :=
| JoinQueue                    (* in [dir_q.join()] *)
| PutStops (k : nat)           (* [k] sentinels still to put *)
| JoinThreads (i : nat)        (* in [ths1[i].join()] *)
| Flush                        (* before [dirs_file.flush()] *)
| Close                        (* before [dirs_file.close()] *)
| OpenOutputs                  (* before [open_outputs(...)] *)
| StartPool2                   (* before the threads of phase 2 start *)
| OpenLedger                   (* before [open(args.dirs_out, "rb")] *)
| Reading.                     (* phase 2 reads the ledger *)

Record cfg : Type := {
  main_at : mstate;
  ths1 : list wstate;
  tasks : queue;
  trace : list event
}.

(** Whose turn it is; for a thread, whether the write it makes in this
    turn, if it makes one, succeeds. *)
Inductive action : Type :=
| MainThread
| Thread (i : nat) (write_ok : bool).

(** One turn of a thread in state [w]: its new state, the queue and what
    it did.  [None]: the thread waits, or has returned. *)
Definition worker_step (a : args) (fs : filesys) (write_ok : bool)
    (w : wstate) (q : queue) : option (wstate * queue * list event) :=
  match w with
  | Waiting =>
    match items q with
    | x :: _ => Some (Got x, q_pop q, [])
    | [] => None
    end
  | Got stop => Some (Returned, q_task_done q, [])
  | Got (Path d) => Some (Scanning d (entries (scandir fs d)), q, [EvScandir d])
  | Scanning d [] => Some (Finishing, q, [])
  | Scanning d (de :: todo) =>
    if followed a de && write_ok then
      Some (Putting d de todo, q,
            [EvWrite (dirs_out a) (enc_record (relpath (root a) (de_path d de)))])
    else Some (Scanning d todo, q, [])
  | Putting d de todo =>
    match q_put (maxq a) (Path (de_path d de)) q with
    | Some q' => Some (Scanning d todo, q', [])
    | None => None
    end
  | Finishing => Some (Waiting, q_task_done q, [])
  | Returned => None
  end.

Definition move (m : mstate) (es : list event) (c : cfg) : cfg :=
  {| main_at := m; ths1 := ths1 c; tasks := tasks c; trace := trace c ++ es |}.

(** One turn of the main thread; [None]: it waits. *)
Definition main_step (a : args) (c : cfg) : option cfg :=
  match main_at c with
  | JoinQueue =>
    if unfinished_tasks (tasks c) =? 0
    then Some (move (PutStops (length (ths1 c))) [EvQueueJoined 1] c)
    else None
  | PutStops (S k) =>
    match q_put (maxq a) stop (tasks c) with
    | Some q' =>
      Some {| main_at := PutStops k; ths1 := ths1 c; tasks := q';
              trace := trace c |}
    | None => None
    end
  | PutStops O => Some (move (JoinThreads 0) [] c)
  | JoinThreads i =>
    match ths1 c !! i with
    | Some Returned => Some (move (JoinThreads (S i)) [] c)
    | Some _ => None
    | None => Some (move Flush [EvThreadsJoined 1] c)
    end
  | Flush => Some (move Close [EvFlush (dirs_out a)] c)
  | Close => Some (move OpenOutputs [EvClose (dirs_out a)] c)
  | OpenOutputs => Some (move StartPool2 (EvOpenAppend <$> outs_of a) c)
  | StartPool2 => Some (move OpenLedger [EvStart 2 (pool_size (workers2 a))] c)
  | OpenLedger => Some (move Reading [EvOpenRead (dirs_out a)] c)
  | Reading => None
  end.

Definition step (a : args) (fs : filesys) (act : action) (c : cfg) : option cfg :=
  match act with
  | MainThread => main_step a c
  | Thread i write_ok =>
    match ths1 c !! i with
    | Some w =>
      match worker_step a fs write_ok w (tasks c) with
      | Some (w', q', es) =>
        Some {| main_at := main_at c; ths1 := <[i := w']> (ths1 c);
                tasks := q'; trace := trace c ++ es |}
      | None => None
      end
    | None => None
    end
  end.

(** The turns of [sched], one after the other. *)
Fixpoint run (a : args) (fs : filesys) (sched : list action) (c : cfg)
  : option cfg :=
  match sched with
  | [] => Some c
  | act :: sched' =>
    match step a fs act c with
    | Some c' => run a fs sched' c'
    | None => None
    end
  end.

(** The threads are started, the root is in the queue, the main thread
    reaches [dir_q.join()]. *)
Definition init (a : args) : cfg :=
  {| main_at := JoinQueue;
     ths1 := replicate (pool_size (workers1 a)) Waiting;
     tasks := {| items := [Path (root a)]; unfinished_tasks := 1 |};
     trace := [] |}.

(** What a thread of phase 1, or the main thread while it waits for
    them, does. *)
Definition phase1_event (e : event) : Prop :=
  match e with
  | EvScandir _ | EvWrite _ _ | EvQueueJoined _ => True
  | _ => False
  end.

(** What the main thread does once the threads of phase 1 are joined. *)
Definition closing (a : args) : list event :=
  [EvThreadsJoined 1; EvFlush (dirs_out a); EvClose (dirs_out a)]
  ++ (EvOpenAppend <$> outs_of a)
  ++ [EvStart 2 (pool_size (workers2 a)); EvOpenRead (dirs_out a)].

(** How much of [closing] is done when the main thread is at [m]. *)
Definition progress (a : args) (m : mstate) : nat :=
  match m with
  | JoinQueue | PutStops _ | JoinThreads _ => 0
  | Flush => 1
  | Close => 2
  | OpenOutputs => 3
  | StartPool2 => 3 + length (outs_of a)
  | OpenLedger => 4 + length (outs_of a)
  | Reading => 5 + length (outs_of a)
  end.

(** What begins phase 2. *)
Definition phase2_event (e : event) : Prop :=
  match e with
  | EvOpenAppend _ | EvStart _ _ | EvOpenRead _ => True
  | _ => False
  end.

Definition busy (w : wstate) : bool :=
  match w with
  | Got (Path _) | Scanning _ _ | Putting _ _ _ | Finishing => true
  | _ => false
  end.

Definition has_stop (w : wstate) : bool :=
  match w with Got stop => true | _ => false end.

Definition returned (w : wstate) : bool :=
  match w with Returned => true | _ => false end.

Definition is_stop (x : item) : bool :=
  match x with stop => true | Path _ => false end.

Fixpoint count {A} (f : A -> bool) (l : list A) : nat :=
  match l with
  | [] => O
  | x :: l' => ((if f x then 1 else 0) + count f l')%nat
  end.

(** The sentinels put so far. *)
Definition stops_put (m : mstate) (n : nat) : nat :=
  match m with
  | JoinQueue => O
  | PutStops k => (n - k)%nat
  | _ => n
  end.

(** What holds in every configuration: the counter of the queue counts
    the items waiting and the items taken and not yet done; each
    sentinel put is in the queue, in a thread's hands, or has made a
    thread return; once [dir_q.join()] has returned no thread works on a
    directory and the queue holds sentinels only; the threads joined so
    far have returned; the trace is what phase 1 did, then the part of
    [closing] that is done. *)
Record inv (a : args) (c : cfg) : Prop := {
  inv_tasks :
    unfinished_tasks (tasks c) =
      Z.of_nat (length (items (tasks c)) + count busy (ths1 c)
                + count has_stop (ths1 c));
  inv_stops :
    (count is_stop (items (tasks c)) + count has_stop (ths1 c)
     + count returned (ths1 c))%nat = stops_put (main_at c) (length (ths1 c));
  inv_left : forall k, main_at c = PutStops k -> (k <= length (ths1 c))%nat;
  inv_quiet :
    main_at c <> JoinQueue ->
    count busy (ths1 c) = O
    /\ count is_stop (items (tasks c)) = length (items (tasks c));
  inv_joined :
    forall i, main_at c = JoinThreads i ->
    forall j, (j < i)%nat -> ths1 c !! j = Some Returned;
  inv_all :
    (0 < progress a (main_at c))%nat -> Forall (eq Returned) (ths1 c);
  inv_trace :
    exists w, trace c = w ++ take (progress a (main_at c)) (closing a)
              /\ Forall phase1_event w
}.

(** A run of the 32 threads on [tree1]: the first lists the root, the
    second the directory [a]; then the main thread puts the sentinels,
    the threads return, the main thread joins them and goes on to open
    the ledger for reading. *)
Definition sched1 : list action :=
  [Thread 0 true; Thread 0 true; Thread 0 true; Thread 0 true;
   Thread 1 true; Thread 0 true; Thread 1 true; Thread 0 true;
   Thread 0 true; Thread 0 true; Thread 1 true; Thread 1 true;
   Thread 1 true; MainThread]
  ++ replicate 33 MainThread
  ++ flat_map (fun i => [Thread i true; Thread i true]) (seq 0 32)
  ++ replicate 38 MainThread.

End Threads.

(** ** What phase 1 finds *)

(** The directories below the directories [ds], level by level: their
    subdirectories, then the subdirectories of these, [n] levels down. *)
Fixpoint levels (n : nat) (a : args) (fs : filesys) (ds : list str) : list str :=
  match n with
  | O => []
  | S n' =>
    let cs := flat_map (subdirs a fs) ds in
    cs ++ levels n' a fs cs
  end.

(** The directories found by handling the queue [ds] in order, each
    directory found going to the end of the queue, for [fuel] turns. *)
Fixpoint found (fuel : nat) (a : args) (fs : filesys) (ds : list str) : list str :=
  match fuel, ds with
  | S f, d :: rest => subdirs a fs d ++ found f a fs (rest ++ subdirs a fs d)
  | _, _ => []
  end.

(** The directories phase 1 can reach: the root, and the entries it
    follows in a directory it can reach. *)
Inductive reach (a : args) (fs : filesys) : str -> Prop :=
| reach_root : reach a fs (root a)
| reach_step d de :
    reach a fs d -> de ∈ entries (scandir fs d) -> followed a de = true ->
    reach a fs (de_path d de).


(** The number a string of decimal digits writes. *)
Definition decimal (s : str) : Z :=
  foldl (fun acc c => 10 * acc + (c - 48)) 0 s.

(** ** Round robin *)

(** The record of the entry [de] of the directory [dir_rel], when it is
    a regular file. *)
Definition entry_record (dir_rel : str) (de : DirEntry) : list str :=
  match is_file_nofollow de with
  | Some true => [rel_file_of dir_rel de]
  | _ => []
  end.

(** The records of the files of the directory [dir_rel] of the ledger. *)
Definition item_records (a : args) (fs : filesys) (dir_rel : str) : list str :=
  flat_map (entry_record dir_rel) (entries (scandir fs (dir_abs_of a dir_rel))).

(** The records of the files of the directory [d]. *)
Definition dir_records (a : args) (fs : filesys) (d : str) : list str :=
  flat_map (entry_record (relpath (root a) d)) (entries (scandir fs d)).

(** Among the records [l], the first of which finds the counter at [c],
    those the file [p] gets when the record that finds the counter at
    [c'] goes to the output at index [c' mod length outs]. *)
Fixpoint dealt_to (outs : list str) (p : str) (c : Z) (l : list str) : list str :=
  match l with
  | [] => []
  | f :: l' =>
    (if bool_decide (outs !! Z.to_nat (c mod Z.of_nat (length outs)) = Some p)
     then [f] else [])
    ++ dealt_to outs p (c + 1) l'
  end.

(** Among the records [l], the first of which has number [c], those
    whose number is [i] modulo [n]. *)
Fixpoint deal (n i : Z) (c : Z) (l : list str) : list str :=
  match l with
  | [] => []
  | f :: l' => (if c mod n =? i then [f] else []) ++ deal n i (c + 1) l'
  end.

(** Of the records numbered [0] to [t - 1], how many have the number [i]
    modulo [n]. *)
Definition share (n t i : Z) : Z :=
  t / n + (if i <? t mod n then 1 else 0).

Definition args_rr2 : args :=
  {| root := lit "/r"; dirs_out := lit "dirs.nul"; out_manifest := None;
     outdir := Some (lit "out"); shards := 2; mode := roundrobin;
     workers1 := 32; workers2 := 64; maxq := 200000; exclude := [];
     follow_symlinks := false |}.

(** A ledger whose last record, [b], has no NUL after it. *)
Definition ledger_cut : state :=
  init_state {[ lit "dirs.nul" := encode (lit "a") ++ [0] ++ encode (lit "b") ]} None.

(** No thread can take a turn: each of them waits for another. *)
Definition stuck (a : args) (fs : filesys) (c : Threads.cfg) : Prop :=
  forall act, Threads.step a fs act c = None.

(** One thread in phase 1, a queue with room for one item. *)
Definition args_tight : args :=
  {| root := lit "/r"; dirs_out := lit "dirs.nul";
     out_manifest := Some (lit "files.nul"); outdir := None; shards := 0;
     mode := bydir; workers1 := 1; workers2 := 1; maxq := 1;
     exclude := []; follow_symlinks := false |}.

(** [only E m]: an exception that [m] raises satisfies [E]. *)
Definition only {A} (E : exn -> Prop) (m : M A) : Prop :=
  forall s e s', m s = (Raise e, s') -> E e.

Definition never {A} (m : M A) : Prop := only (fun _ => False) m.

(** The checks of the command line at the head of [main] fail. *)
Definition rejected (a : args) (fs : filesys) : bool :=
  negb (isdir fs (root a))
  || ((shards a =? 0) && falsy (out_manifest a))
  || ((0 <? shards a) && falsy (outdir a)).

(** ** What the threads of phase 1 write, in any order of their turns *)

(** The records written, in the order of the writes. *)
Definition written (tr : list event) : list bytes :=
  omap (fun e => match e with EvWrite _ b => Some b | _ => None end) tr.

(** The directories at and below the directories [cs]. *)
Definition with_below (n : nat) (a : args) (fs : filesys) (cs : list str)
  : list str :=
  flat_map (fun c => c :: levels n a fs [c]) cs.

(** The directories still to find for an item of the queue. *)
Definition item_pending (n : nat) (a : args) (fs : filesys) (x : item)
  : list str :=
  match x with
  | Path d => levels n a fs [d]
  | stop => []
  end.

(** The directories still to find by a thread, from where it is. *)
Definition thread_pending (n : nat) (a : args) (fs : filesys)
    (w : Threads.wstate) : list str :=
  match w with
  | Threads.Got x => item_pending n a fs x
  | Threads.Scanning d todo => with_below n a fs (subdirs_of a d todo)
  | Threads.Putting d de todo =>
    levels n a fs [de_path d de] ++ with_below n a fs (subdirs_of a d todo)
  | _ => []
  end.

Definition pending (n : nat) (a : args) (fs : filesys) (c : Threads.cfg)
  : list str :=
  flat_map (item_pending n a fs) (items (Threads.tasks c))
  ++ flat_map (thread_pending n a fs) (Threads.ths1 c).

Definition item_ok (n : nat) (a : args) (fs : filesys) (x : item) : Prop :=
  match x with
  | Path d => ok n a fs d
  | stop => True
  end.

Definition thread_ok (n : nat) (a : args) (fs : filesys)
    (w : Threads.wstate) : Prop :=
  match w with
  | Threads.Got x => item_ok n a fs x
  | Threads.Scanning d todo => Forall (ok n a fs) (subdirs_of a d todo)
  | Threads.Putting d de todo =>
    ok n a fs (de_path d de) /\ Forall (ok n a fs) (subdirs_of a d todo)
  | _ => True
  end.

(** The record of the directory [d] in the ledger. *)
Definition ledger_record (a : args) (d : str) : bytes :=
  enc_record (relpath (root a) d).

(** What was written and what is still to find make the tree; the
    directories in the queue and in the hands of the threads are
    directories of the tree. *)
Definition ledger_inv (n : nat) (a : args) (fs : filesys) (c : Threads.cfg)
  : Prop :=
  written (Threads.trace c) ++ (ledger_record a <$> pending n a fs c)
    ≡ₚ ledger_record a <$> levels n a fs [root a]
  /\ Forall (item_ok n a fs) (items (Threads.tasks c))
  /\ Forall (thread_ok n a fs) (Threads.ths1 c).

(** No write of the schedule fails. *)
Definition faultless (sched : list Threads.action) : bool :=
  forallb (fun act => match act with
                      | Threads.Thread _ false => false
                      | _ => true
                      end) sched.

(** * Properties *)

(** ** UTF-8 *)

Ltac zbool :=
  repeat match goal with
  | |- context [?a <? ?b] => destruct (Z.ltb_spec a b); try lia
  | |- context [?a <=? ?b] => destruct (Z.leb_spec a b); try lia
  end.

Lemma decode_utf8_char c rest :
  valid_cp c -> decode (utf8_char c ++ rest) = cons c <$> decode rest.
Proof.
  unfold valid_cp, utf8_char. intros Hc.
  destruct (Z.ltb_spec c 0x80).
  { simpl. zbool. done. }
  pose proof (Z.div_mod c 64 ltac:(lia)) as E1.
  pose proof (Z.mod_pos_bound c 64 ltac:(lia)) as B1.
  set (p := c / 64) in *. set (r := c mod 64) in *.
  destruct (Z.ltb_spec c 0x800).
  { simpl. unfold is_cont. clearbody p r. zbool. simpl. do 2 f_equal. lia. }
  pose proof (Z.div_mod p 64 ltac:(lia)) as E2.
  pose proof (Z.mod_pos_bound p 64 ltac:(lia)) as B2.
  assert (c / 4096 = p / 64) as -> by (unfold p; rewrite Z.div_div by lia; done).
  set (q := p / 64) in *. set (s := p mod 64) in *.
  destruct (Z.ltb_spec c 0x10000).
  { simpl. unfold is_cont. clearbody q s. clearbody p r. zbool.
    simpl. do 2 f_equal. lia. }
  pose proof (Z.div_mod q 64 ltac:(lia)) as E3.
  pose proof (Z.mod_pos_bound q 64 ltac:(lia)) as B3.
  assert (c / 262144 = q / 64) as ->.
  { unfold q, p. rewrite !Z.div_div by lia. done. }
  set (t := q / 64) in *. set (u := q mod 64) in *.
  simpl. unfold is_cont. clearbody t u. clearbody q s. clearbody p r.
  zbool. simpl. do 2 f_equal. lia.
Qed.

Lemma decode_encode_app s rest :
  Forall valid_cp s -> decode (encode s ++ rest) = (s ++.) <$> decode rest.
Proof.
  induction 1 as [|c s Hc Hs IH]; simpl.
  - by destruct (decode rest).
  - change (encode (c :: s)) with (utf8_char c ++ encode s).
    rewrite <- app_assoc, decode_utf8_char, IH by done.
    by destruct (decode rest).
Qed.

Lemma decode_encode s : Forall valid_cp s -> decode (encode s) = Some s.
Proof.
  intros H. rewrite <- (app_nil_r (encode s)), decode_encode_app by done.
  simpl. by rewrite app_nil_r.
Qed.

Lemma utf8_char_nul c : valid_cp c -> 0 ∈ utf8_char c -> c = 0.
Proof.
  unfold valid_cp, utf8_char. intros Hc.
  pose proof (Z.mod_pos_bound c 64 ltac:(lia)).
  pose proof (Z.mod_pos_bound (c / 64) 64 ltac:(lia)).
  pose proof (Z.mod_pos_bound (c / 4096) 64 ltac:(lia)).
  pose proof (Z.div_pos c 64 ltac:(lia) ltac:(lia)).
  pose proof (Z.div_pos c 4096 ltac:(lia) ltac:(lia)).
  pose proof (Z.div_pos c 262144 ltac:(lia) ltac:(lia)).
  repeat case_match; rewrite ?elem_of_cons, elem_of_nil; lia.
Qed.

Lemma encode_nul s : Forall valid_cp s -> 0 ∈ encode s -> 0 ∈ s.
Proof.
  induction 1 as [|c s Hc Hs IH]; simpl; [done|].
  rewrite elem_of_app, elem_of_cons. intros [H|H].
  - left. symmetry. by apply utf8_char_nul.
  - right. by apply IH.
Qed.

Lemma utf8_char_nonempty c : utf8_char c <> [].
Proof. unfold utf8_char. by repeat case_match. Qed.

Lemma encode_nil_inv s : encode s = [] -> s = [].
Proof.
  destruct s as [|c s]; [done|]. simpl. intros H.
  apply app_eq_nil in H as [H _]. by apply utf8_char_nonempty in H.
Qed.

Lemma encode_app s t : encode (s ++ t) = encode s ++ encode t.
Proof. unfold encode. by rewrite flat_map_app. Qed.

(** ** Statements *)

Lemma bind_ok {A B} (m : M A) (k : A -> M B) s a s' :
  m s = (Ok a, s') -> bind m k s = k a s'.
Proof. unfold bind. by intros ->. Qed.

Lemma bind_assoc {A B C} (m : M A) (k : A -> M B) (h : B -> M C) s :
  bind (bind m k) h s = bind m (fun a => bind (k a) h) s.
Proof. unfold bind. destruct (m s) as [[]]; done. Qed.

Lemma bind_ext {A B} (m : M A) (k k' : A -> M B) s :
  (forall a s', k a s' = k' a s') -> bind m k s = bind m k' s.
Proof. intros H. unfold bind. destruct (m s) as [[]]; done. Qed.

(** ** Records of a NUL-delimited file *)

Lemma index_of_None l : index_of 0 l = None -> 0 ∉ l.
Proof.
  induction l as [|b l IH]; simpl; [intros _; apply not_elem_of_nil|].
  destruct (Z.eqb_spec b 0); [done|].
  destruct (index_of 0 l); [done|]. intros _.
  rewrite not_elem_of_cons. split; [congruence | by apply IH].
Qed.

Lemma index_of_Some l i :
  index_of 0 l = Some i ->
  l = take i l ++ 0 :: drop (S i) l /\ 0 ∉ take i l.
Proof.
  revert i. induction l as [|b l IH]; simpl; [done|]. intros i.
  destruct (Z.eqb_spec b 0) as [->|Hb].
  - intros [= <-]. simpl. rewrite drop_0. split; [done | apply not_elem_of_nil].
  - destruct (index_of 0 l) as [j|]; [|done]. intros [= <-].
    destruct (IH j eq_refl) as [E N]. simpl. split; [by rewrite <- E|].
    rewrite not_elem_of_cons. split; [congruence | done].
Qed.

Lemma records_from_nul_free cur l :
  0 ∉ l -> records_from cur l = [] /\ leftover_from cur l = cur ++ l.
Proof.
  revert cur. induction l as [|b l IH]; intros cur; simpl.
  - by rewrite app_nil_r.
  - rewrite not_elem_of_cons. intros [Hb Hl].
    destruct (Z.eqb_spec b 0); [congruence|].
    destruct (IH (cur ++ [b]) Hl) as [-> ->]. by rewrite <- app_assoc.
Qed.

Lemma records_from_app cur x y :
  records_from cur (x ++ y) =
    records_from cur x ++ records_from (leftover_from cur x) y
  /\ leftover_from cur (x ++ y) = leftover_from (leftover_from cur x) y.
Proof.
  revert cur. induction x as [|b x IH]; intros cur; simpl; [done|].
  destruct (b =? 0).
  - destruct (IH []) as [-> ->]. done.
  - apply IH.
Qed.

Lemma records_from_cons_nul cur l :
  records_from cur (0 :: l) = cur :: records_from [] l
  /\ leftover_from cur (0 :: l) = leftover_from [] l.
Proof. done. Qed.

Lemma records_from_cur cur l :
  0 ∉ cur ->
  records_from [] (cur ++ l) = records_from cur l
  /\ leftover_from [] (cur ++ l) = leftover_from cur l.
Proof.
  intros H. destruct (records_from_app [] cur l) as [-> ->].
  destruct (records_from_nul_free [] cur H) as [-> ->]. done.
Qed.

Lemma leftover_nul_free cur l : 0 ∉ cur -> 0 ∉ leftover_from cur l.
Proof.
  revert cur. induction l as [|b l IH]; intros cur H; simpl; [done|].
  destruct (Z.eqb_spec b 0).
  - apply IH, not_elem_of_nil.
  - apply IH. rewrite elem_of_app, list_elem_of_singleton. intros [|]; [done|congruence].
Qed.

Lemma records_split l i :
  index_of 0 l = Some i ->
  records l = take i l :: records (drop (S i) l)
  /\ leftover_from [] l = leftover_from [] (drop (S i) l).
Proof.
  intros H. destruct (index_of_Some l i H) as [E N].
  pose proof (records_from_cur (take i l) (0 :: drop (S i) l) N) as [E1 E2].
  rewrite <- E in E1, E2. unfold records. by rewrite E1, E2.
Qed.

Lemma put_all_app put xs ys s :
  put_all put (xs ++ ys) s = (put_all put xs ;;; put_all put ys) s.
Proof.
  revert s. induction xs as [|x xs IH]; intros s; simpl; [done|].
  destruct (decode x); [|done].
  rewrite bind_assoc. apply bind_ext. intros _ s'. apply IH.
Qed.

Lemma put_records_spec put buf : forall fuel start s,
  (length (drop start buf) < fuel)%nat ->
  put_records fuel put buf start s =
    (put_all put (records (drop start buf)) ;;;
     ret (leftover_from [] (drop start buf))) s.
Proof.
  induction fuel as [|fuel IH]; intros start s Hf; [lia|]. simpl.
  unfold bytes_index.
  destruct (index_of 0 (drop start buf)) as [i|] eqn:Hi; simpl.
  - destruct (records_split _ _ Hi) as [-> ->].
    destruct (index_of_Some _ _ Hi) as [E _].
    assert (L : (length (drop start buf) = i + S (length (drop (S i) (drop start buf))))%nat).
    { rewrite E at 1. rewrite length_app, length_take. simpl.
      assert (i < length (drop start buf))%nat.
      { destruct (decide (i < length (drop start buf))%nat); [done|].
        rewrite E in Hi. rewrite (drop_ge _ (S i)) in E by lia.
        rewrite take_ge in E by lia.
        apply (f_equal length) in E. rewrite length_app in E. simpl in E. lia. }
      lia. }
    unfold slice. replace (start + i - start)%nat with i by lia.
    simpl. destruct (decode (take i (drop start buf))); [|done].
    fold (or_dot l). rewrite bind_assoc. apply bind_ext. intros _ s1.
    rewrite IH; rewrite drop_drop in *;
      replace (S (start + i)) with (start + S i)%nat by lia; [done|lia].
  - apply index_of_None in Hi.
    destruct (records_from_nul_free [] _ Hi) as [E1 E2].
    unfold records. rewrite E1, E2. done.
Qed.

Lemma bind_ext_ok {A B} (m : M A) (k k' : A -> M B) s :
  (forall a s', m s = (Ok a, s') -> k a s' = k' a s') ->
  bind m k s = bind m k' s.
Proof. intros H. unfold bind. destruct (m s) as [[]]; auto. Qed.

Lemma bind_ret_l {A B} (a : A) (k : A -> M B) s : bind (ret a) k s = k a s.
Proof. done. Qed.

Lemma put_all_keeps p put rs s :
  keeps p put -> content p (snd (put_all put rs s)) = content p s.
Proof.
  intros K. revert s. induction rs as [|r rs IH]; intros s; simpl; [done|].
  destruct (decode r); [|done]. unfold bind.
  pose proof (K (or_dot l) s) as H. destruct (put (or_dot l) s) as [[] s1]; simpl in *; try done.
  by rewrite IH.
Qed.

Lemma read_dirs_S fuel chunk put p pos buf :
  read_dirs (S fuel) chunk put p pos buf =
    (c <- file_read p pos chunk ;;
     match c with
     | [] => ret tt
     | _ :: _ =>
       buf2 <- put_records (S (length (buf ++ c))) put (buf ++ c) 0 ;;
       read_dirs fuel chunk put p (pos + length c) buf2
     end).
Proof. done. Qed.

Lemma read_dirs_spec p put chunk :
  (0 < chunk)%nat -> keeps p put ->
  forall fuel pos buf s,
    0 ∉ buf ->
    (length (drop pos (content p s)) < fuel)%nat ->
    read_dirs fuel chunk put p pos buf s =
      put_all put (records_from buf (drop pos (content p s))) s.
Proof.
  intros Hc K. induction fuel as [|fuel IH]; intros pos buf s Hb Hf; [lia|].
  rewrite read_dirs_S. unfold file_read, gets. unfold bind at 1.
  set (C := content p s) in *.
  replace (records_from buf (drop pos C))
    with (records_from buf (take chunk (drop pos C) ++ drop chunk (drop pos C)))
    by (by rewrite take_drop).
  remember (take chunk (drop pos C)) as c1 eqn:E1.
  destruct c1 as [|b c].
  - assert (drop pos C = []) as ->.
    { destruct (drop pos C); [done|]. destruct chunk; [lia|done]. }
    by rewrite drop_nil.
  - assert (length (b :: c) <> 0)%nat by done.
    set (c1 := b :: c) in *. clearbody c1.
    destruct (records_from_app buf c1 (drop chunk (drop pos C))) as [-> _].
    rewrite put_all_app.
    destruct (records_from_cur buf c1 Hb) as [R1 R2].
    unfold bind at 1. rewrite put_records_spec by (rewrite drop_0; lia).
    rewrite drop_0. unfold records. rewrite R1, R2.
    unfold bind, ret.
    pose proof (put_all_keeps p put (records_from buf c1) s K) as HK.
    destruct (put_all put (records_from buf c1) s) as [[] s1]; simpl in *; try done.
    assert (L : (length c1 <= length (drop pos C))%nat).
    { rewrite E1, length_take. lia. }
    rewrite IH.
    + rewrite HK. fold C. rewrite drop_drop.
      assert (length c1 = chunk `min` length (drop pos C))%nat
        by (by rewrite E1, length_take).
      rewrite length_drop in *.
      destruct (decide (chunk <= length C - pos)%nat).
      * by replace (length c1) with chunk by lia.
      * rewrite !drop_ge; [done| |]; lia.
    + by apply leftover_nul_free.
    + rewrite HK. fold C. rewrite length_drop in *. lia.
Qed.

Lemma split_on_nosep s : sep ∉ s -> split_on sep s = [s].
Proof.
  induction s as [|c s IH]; [done|]. rewrite not_elem_of_cons. intros [Hc Hs].
  simpl. destruct (Z.eqb_spec c sep); [congruence|]. by rewrite IH.
Qed.

Lemma split_on_nonempty s : split_on sep s <> [].
Proof. destruct s as [|c s]; simpl; [done|]. repeat case_match; done. Qed.

Lemma split_on_app_sep x y :
  split_on sep (x ++ sep :: y) = split_on sep x ++ split_on sep y.
Proof.
  induction x as [|c x IH]; simpl.
  - done.
  - destruct (c =? sep); [by rewrite IH|]. rewrite IH.
    destruct (split_on sep x) eqn:E; [by apply split_on_nonempty in E|done].
Qed.

Lemma foldl_snoc {A B} (f : A -> B -> A) a l x :
  foldl f a (l ++ [x]) = f (foldl f a l) x.
Proof. by rewrite foldl_app. Qed.

Lemma norm_step_name acc n : wf_name n -> norm_step acc n = acc ++ [n].
Proof.
  intros (H1 & _ & _ & _ & H2 & H3). unfold norm_step.
  rewrite !bool_decide_eq_false_2; done.
Qed.

Lemma abs_comps_app_sep d y :
  abs_comps (d ++ sep :: y) = foldl norm_step (abs_comps d) (split_on sep y).
Proof. unfold abs_comps. by rewrite split_on_app_sep, foldl_app. Qed.

Lemma endswith_sep_inv a : endswith_sep a = true -> exists a', a = a' ++ [sep].
Proof.
  unfold endswith_sep. destruct (last a) as [c|] eqn:E; [|done].
  intros H%Z.eqb_eq. subst c. apply last_Some in E as [a' ->]. eauto.
Qed.

Lemma abs_comps_snoc_sep d : abs_comps (d ++ [sep]) = abs_comps d.
Proof. by rewrite abs_comps_app_sep. Qed.

Lemma startswith_sep_name n : sep ∉ n -> startswith_sep n = false.
Proof.
  destruct n as [|c n]; [done|]. rewrite not_elem_of_cons. intros [H _].
  simpl. by apply Z.eqb_neq.
Qed.

Lemma abs_comps_join_split d y :
  startswith_sep y = false -> y <> [] ->
  abs_comps (os_path_join d y) = foldl norm_step (abs_comps d) (split_on sep y).
Proof.
  intros Hs Hy. unfold os_path_join. rewrite Hs.
  destruct (bool_decide (d = [])) eqn:Hd; simpl.
  - apply bool_decide_eq_true in Hd as ->. done.
  - destruct (endswith_sep d) eqn:He.
    + apply endswith_sep_inv in He as [d' ->].
      rewrite <- app_assoc. simpl. by rewrite abs_comps_snoc_sep, abs_comps_app_sep.
    + apply abs_comps_app_sep.
Qed.

Lemma abs_comps_join d n :
  wf_name n -> abs_comps (os_path_join d n) = abs_comps d ++ [n].
Proof.
  intros Hn. pose proof Hn as (H1 & _ & _ & H4 & _).
  rewrite abs_comps_join_split by (by try apply startswith_sep_name).
  rewrite split_on_nosep by done. simpl. by apply norm_step_name.
Qed.

Lemma common_len_app r ys : common_len r (r ++ ys) = length r.
Proof.
  induction r as [|x r IH]; simpl; [by destruct ys|].
  rewrite bool_decide_eq_true_2 by done. by rewrite IH.
Qed.

Lemma sep_join_snoc c cs n : sep_join c (cs ++ [n]) = sep_join c cs ++ sep :: n.
Proof. unfold sep_join. rewrite flat_map_app. simpl. by rewrite app_nil_r, app_assoc. Qed.

Lemma endswith_sep_app a n :
  n <> [] -> sep ∉ n -> endswith_sep (a ++ n) = false.
Proof.
  intros Hn Hs. unfold endswith_sep.
  destruct (last n) as [z|] eqn:E; [|by apply last_None in E].
  rewrite last_app, E. apply Z.eqb_neq. intros ->.
  apply Hs. by apply last_Some_elem_of.
Qed.

Lemma sep_join_last c cs :
  sep ∉ c -> c <> [] -> Forall (fun x => (sep ∉ x) /\ x <> []) cs ->
  endswith_sep (sep_join c cs) = false /\ sep_join c cs <> [].
Proof.
  intros Hc Hc' H. split; [|by destruct c].
  destruct cs as [|x cs _] using rev_ind.
  - unfold sep_join. simpl. rewrite app_nil_r.
    by apply (endswith_sep_app []).
  - apply Forall_app in H as [H1 H2]. apply Forall_singleton in H2 as [H2 H3].
    rewrite sep_join_snoc, (cons_middle sep), app_assoc.
    by apply endswith_sep_app.
Qed.

Lemma foldl_join c cs :
  sep ∉ c -> c <> [] -> Forall (fun x => (sep ∉ x) /\ x <> []) cs ->
  foldl os_path_join c cs = sep_join c cs.
Proof.
  intros Hc Hc' H. induction cs as [|x cs IH] using rev_ind.
  - unfold sep_join. simpl. by rewrite app_nil_r.
  - apply Forall_app in H as [H1 H2]. pose proof H2 as [H3 H4]%Forall_singleton.
    rewrite foldl_snoc, IH, sep_join_snoc by done.
    destruct (sep_join_last c cs Hc Hc' H1) as [E1 E2].
    unfold os_path_join. rewrite startswith_sep_name, E1 by done.
    rewrite bool_decide_eq_false_2 by done. done.
Qed.

Lemma wf_name_sep x : wf_name x -> (sep ∉ x) /\ x <> [].
Proof. intros (?&?&?&?&?); done. Qed.

Lemma os_path_relpath_under p r xs :
  abs_comps p = abs_comps r ++ xs -> Forall wf_name xs ->
  os_path_relpath p r = rel_of xs.
Proof.
  intros E H. unfold os_path_relpath. rewrite E, common_len_app.
  rewrite Nat.sub_diag, drop_app_length. simpl.
  destruct xs as [|c cs]; [done|]. simpl.
  apply Forall_cons in H as [Hc Hcs].
  apply foldl_join; try by apply wf_name_sep.
  eapply Forall_impl; [done|]. apply wf_name_sep.
Qed.

Lemma relpath_under root p xs :
  abs_comps p = abs_comps root ++ xs -> Forall wf_name xs ->
  relpath root p = rel_of xs.
Proof.
  intros E H. unfold relpath. rewrite (os_path_relpath_under _ _ xs) by done.
  by case_bool_decide.
Qed.

Section Logic.
Context (I : state -> Prop).

Lemma holds_weaken {A} (m : M A) (Q Q' : A -> Prop) :
  holds I m Q -> (forall a, Q a -> Q' a) -> holds I m Q'.
Proof. intros H HQ s Hs. destruct (H s Hs). split; auto. Qed.

Lemma holds_any {A} (m : M A) (Q : A -> Prop) : holds I m Q -> holds I m any.
Proof. intros H. eapply holds_weaken; [done|]. done. Qed.

Lemma holds_ret {A} (a : A) (Q : A -> Prop) : Q a -> holds I (ret a) Q.
Proof. intros H s Hs. split; [done|]. by intros ? [= <-]. Qed.

Lemma holds_raise {A} e (Q : A -> Prop) : holds I (raise e) Q.
Proof. intros s Hs. split; done. Qed.

Lemma holds_block {A} (Q : A -> Prop) : holds I block Q.
Proof. intros s Hs. split; done. Qed.

Lemma holds_out_of_fuel {A} (Q : A -> Prop) : holds I out_of_fuel Q.
Proof. intros s Hs. split; done. Qed.

Lemma holds_bind {A B} (m : M A) (k : A -> M B) (P : A -> Prop) (Q : B -> Prop) :
  holds I m P -> (forall a, P a -> holds I (k a) Q) -> holds I (bind m k) Q.
Proof.
  intros Hm Hk s Hs. destruct (Hm s Hs) as [H1 H2]. unfold bind.
  destruct (m s) as [[a|e| |] s1]; simpl in *; try done.
  apply (Hk a); auto.
Qed.

Lemma holds_gets {A} (f : state -> A) :
  holds I (gets f) (fun a => exists s, I s /\ a = f s).
Proof. intros s Hs. split; [done|]. intros a [= <-]. eauto. Qed.

Lemma holds_modify (f : state -> state) :
  (forall s, I s -> I (f s)) -> holds I (modify f) any.
Proof. intros H s Hs. split; [by apply H|done]. Qed.

Lemma holds_try_except {A} (m h : M A) (Q : A -> Prop) :
  holds I m Q -> holds I h Q -> holds I (try_except_OSError m h) Q.
Proof.
  intros Hm Hh s Hs. destruct (Hm s Hs) as [H1 H2]. unfold try_except_OSError.
  destruct (m s) as [[a|e| |] s1]; simpl in *; try done.
  destruct e; try done. by apply Hh.
Qed.

Lemma holds_try_finally {A} (m : M A) (f : M unit) (Q : A -> Prop) :
  holds I m Q -> holds I f any -> holds I (try_finally m f) Q.
Proof.
  intros Hm Hf s Hs. destruct (Hm s Hs) as [H1 H2]. unfold try_finally.
  destruct (m s) as [[a|e| |] s1]; simpl in *; try done.
  - destruct (Hf s1 H1) as [H3 _]. unfold bind.
    destruct (f s1) as [[u|e| |] s2]; simpl in *; split; auto; done.
  - destruct (Hf s1 H1) as [H3 _]. unfold bind.
    destruct (f s1) as [[u|e'| |] s2]; simpl in *; split; done.
Qed.

Lemma holds_for_each {A} (l : list A) (body : A -> M unit) :
  (forall x, x ∈ l -> holds I (body x) any) -> holds I (for_each l body) any.
Proof.
  induction l as [|x l IH]; intros H; simpl.
  - by apply holds_ret.
  - eapply holds_bind; [apply H; left|]. intros _ _. apply IH.
    intros y Hy. apply H. by right.
Qed.

Lemma holds_state {A} (m : M A) (Q : A -> Prop) :
  (forall s, I s -> exists m', m s = m' s /\ holds I m' Q) -> holds I m Q.
Proof. intros H s Hs. destruct (H s Hs) as (m' & -> & Hm). by apply Hm. Qed.

End Logic.

Ltac hstep :=
  lazymatch goal with
  | |- holds _ (bind _ _) _ => eapply holds_bind
  | |- holds _ (ret _) _ => apply holds_ret
  | |- holds _ (raise _) _ => apply holds_raise
  | |- holds _ block _ => apply holds_block
  | |- holds _ out_of_fuel _ => apply holds_out_of_fuel
  | |- holds _ (try_except_OSError _ _) _ => apply holds_try_except
  | |- holds _ (try_finally _ _) _ => apply holds_try_finally
  | |- holds _ (for_each _ _) _ => apply holds_for_each
  | |- holds _ (modify _) _ => apply holds_modify
  | |- holds _ (gets _) _ => apply holds_gets
  end.

(** ** Content of files *)

Lemma content_insert p q c s free :
  content p (set_files (<[q := c]> (files s)) free s) =
    if bool_decide (q = p) then c else content p s.
Proof.
  unfold content. simpl. case_bool_decide as E.
  - subst. by rewrite lookup_insert_eq.
  - by rewrite lookup_insert_ne.
Qed.

Lemma content_add_event p e s : content p (add_event e s) = content p s.
Proof. done. Qed.

Lemma write_all_snoc rs r : write_all (rs ++ [r]) = write_all rs ++ enc_record r.
Proof. unfold write_all. rewrite flat_map_app. simpl. by rewrite app_nil_r. Qed.

Lemma write_all_app rs rs' : write_all (rs ++ rs') = write_all rs ++ write_all rs'.
Proof. unfold write_all. by rewrite flat_map_app. Qed.

Section Invariant.
Context (a : args) (fs : filesys).
Hypothesis fs_ok : wf_fs fs.
Hypothesis no_alias : dirs_out a ∉ outs_of a.

Let I := run_inv a fs.

Lemma inv_add_event e s : good_event a fs e -> I s -> I (add_event e s).
Proof.
  intros He [H1 H1' H2 H3]. split; simpl; try done.
  apply Forall_app. split; [done|]. by apply Forall_singleton.
Qed.

Lemma inv_set_dirs_emitted n s : I s -> I (set_dirs_emitted n s).
Proof. by intros []. Qed.

Lemma inv_set_rr_counter n s : I s -> I (set_rr_counter n s).
Proof. by intros []. Qed.

Lemma inv_set_files_emitted n s : I s -> I (set_files_emitted n s).
Proof. by intros []. Qed.

Lemma inv_set_dir_in_q q s :
  (forall d, Path d ∈ items q -> good_rel a d) -> I s -> I (set_dir_in_q q s).
Proof. by intros ? []. Qed.

Lemma inv_set_dir_q q s :
  (forall d, Path d ∈ items q -> good_abs a d) -> I s -> I (set_dir_q q s).
Proof. by intros ? []. Qed.

Lemma inv_write_ledger r :
  good_rel a r -> holds I (file_write (dirs_out a) (enc_record r)) any.
Proof.
  intros Hr s Hs. pose proof Hs as [H1 H1' (rs & H2 & H2') H3]. unfold file_write.
  destruct (fits _ _); simpl; [|done].
  split; [|done]. split; simpl; try done.
  - exists (rs ++ [r]). split.
    + rewrite content_add_event, content_insert, bool_decide_eq_true_2 by done.
      by rewrite write_all_snoc, H2.
    + apply Forall_app. split; [done|]. by apply Forall_singleton.
  - apply Forall_app. split; [done|]. apply Forall_singleton. left. eauto.
Qed.

Lemma inv_write_out o b :
  o ∈ outs_of a -> file_record a fs b -> holds I (file_write o b) any.
Proof.
  intros Ho Hf s Hs. pose proof Hs as [H1 H1' (rs & H2 & H2') H3]. unfold file_write.
  destruct (fits _ _); simpl; [|done].
  split; [|done]. split; simpl; try done.
  - exists rs. split; [|done].
    rewrite content_add_event, content_insert, bool_decide_eq_false_2; [done|].
    intros ->. done.
  - apply Forall_app. split; [done|]. apply Forall_singleton. right. eauto.
Qed.

Lemma inv_open_append p : holds I (open_append p) any.
Proof.
  unfold open_append. case_bool_decide; [apply holds_raise|].
  apply holds_modify. intros s [H1 H1' (rs & H2 & H2') H3].
  apply inv_add_event; [done|]. split; simpl; try done.
  exists rs. split; [|done]. rewrite content_insert. by case_bool_decide; subst.
Qed.

Lemma inv_flush p : holds I (file_flush p) any.
Proof. apply holds_modify. intros s. by apply inv_add_event. Qed.

Lemma inv_close p : holds I (file_close p) any.
Proof. apply holds_modify. intros s. by apply inv_add_event. Qed.

Lemma inv_dir_q_put x :
  (forall d, x = Path d -> good_abs a d) -> holds I (dir_q_put a x) any.
Proof.
  intros Hx s Hs. unfold dir_q_put, q_put.
  destruct (_ && _); simpl; [done|]. split; [|done].
  apply inv_set_dir_q; [|done]. simpl. intros d.
  rewrite elem_of_app, list_elem_of_singleton. intros [H|H].
  - by apply Hs.
  - by apply Hx.
Qed.

Lemma inv_dir_in_q_put x :
  (forall d, x = Path d -> good_rel a d) -> holds I (dir_in_q_put a x) any.
Proof.
  intros Hx s Hs. unfold dir_in_q_put, q_put.
  destruct (_ && _); simpl; [done|]. split; [|done].
  apply inv_set_dir_in_q; [|done]. simpl. intros d.
  rewrite elem_of_app, list_elem_of_singleton. intros [H|H].
  - by apply Hs.
  - by apply Hx.
Qed.

Lemma inv_emit_dir r : good_rel a r -> holds I (emit_dir a r) any.
Proof.
  intros Hr. unfold emit_dir.
  hstep; [by apply inv_write_ledger|]. intros _ _.
  hstep; [hstep; intros s; apply inv_set_dirs_emitted|]. intros _ _.
  hstep; [hstep|]. intros n _. simpl.
  case_match; [apply inv_flush | by hstep].
Qed.

Lemma inv_de_is_dir de f : holds I (de_is_dir de f) any.
Proof. unfold de_is_dir. case_match; by hstep. Qed.

Lemma inv_de_is_file de : holds I (de_is_file de) any.
Proof. unfold de_is_file. case_match; by hstep. Qed.

Lemma good_abs_join d n :
  good_abs a d -> good_name a n -> good_abs a (os_path_join d n).
Proof.
  intros (xs & E & H) Hn. exists (xs ++ [n]). split.
  - rewrite abs_comps_join by apply Hn. by rewrite E, app_assoc.
  - apply Forall_app. split; [done|]. by apply Forall_singleton.
Qed.

Lemma good_rel_join d n :
  good_abs a d -> good_name a n -> good_rel a (relpath (root a) (os_path_join d n)).
Proof.
  intros (xs & E & H) Hn. exists (xs ++ [n]).
  assert (Forall (good_name a) (xs ++ [n])) as H'.
  { apply Forall_app. split; [done|]. by apply Forall_singleton. }
  split; [done|]. apply relpath_under.
  - rewrite abs_comps_join by apply Hn. by rewrite E, app_assoc.
  - eapply Forall_impl; [done|]. by intros ? [].
Qed.

Lemma inv_dir_worker_entry d de :
  good_abs a d -> wf_name (name de) -> holds I (dir_worker_entry a d de) any.
Proof.
  intros Hd Hn. unfold dir_worker_entry.
  hstep; [|by hstep].
  hstep; [apply inv_de_is_dir|]. intros b _. simpl.
  destruct b; [|by hstep]. case_bool_decide as Hx; [by hstep|].
  hstep.
  - apply inv_emit_dir. by apply good_rel_join.
  - intros _ _. apply inv_dir_q_put. intros ? [= <-]. by apply good_abs_join.
Qed.

Lemma inv_scan d body :
  good_abs a d ->
  (forall de, de ∈ entries (scandir fs d) -> holds I (body de) any) ->
  holds I (scan fs d body) any.
Proof.
  intros Hd Hb. unfold scan.
  hstep; [hstep; intros s; by apply inv_add_event|]. intros _ _.
  hstep; [hstep; exact Hb|]. intros _ _. case_match; by hstep.
Qed.

Lemma inv_dir_q_task_done :
  holds I (modify (fun s => set_dir_q (q_task_done (dir_q s)) s)) any.
Proof. hstep. intros s Hs. apply inv_set_dir_q; [|done]. apply Hs. Qed.

Lemma inv_dir_worker_item x :
  (forall d, x = Path d -> good_abs a d) -> holds I (dir_worker_item a fs x) any.
Proof.
  intros Hx. destruct x as [d|]; simpl.
  - hstep; [|intros; by hstep].
    hstep; [|apply inv_dir_q_task_done].
    hstep.
    + apply inv_scan; [by apply Hx|]. intros de Hde.
      apply inv_dir_worker_entry; [by apply Hx|]. by eapply fs_ok.
    + by hstep.
  - hstep; [apply inv_dir_q_task_done|]. intros; by hstep.
Qed.

Lemma inv_dir_worker fuel : forall alive, holds I (dir_worker fuel a fs alive) any.
Proof.
  induction fuel as [|fuel IH]; intros alive; simpl; [by hstep|].
  hstep; [hstep|]. intros q (s0 & Hs0 & ->). simpl.
  destruct alive as [|alive']; [by hstep|].
  destruct (items (dir_q s0)) as [|x its] eqn:E; [by hstep|].
  hstep.
  { hstep. intros s Hs. apply inv_set_dir_q; [|done]. simpl. rewrite E. simpl.
    intros d Hd. apply Hs0. rewrite E. by right. }
  intros _ _. hstep.
  { apply inv_dir_worker_item. intros d ->. apply Hs0. rewrite E. by left. }
  intros r _. apply IH.
Qed.

Lemma inv_stop_dir_workers n : forall alive,
  holds I (stop_dir_workers n a fs alive) any.
Proof.
  induction n as [|n IH]; intros alive; cbn [stop_dir_workers]; [by hstep|].
  hstep; [by apply inv_dir_q_put|]. intros _ _.
  hstep; [apply inv_dir_worker|]. intros alive' _. apply IH.
Qed.

Lemma inv_q_join q : holds I (q_join q) any.
Proof. intros s Hs. unfold q_join. by case_match. Qed.

Lemma inv_join_threads n : holds I (join_threads n) any.
Proof. destruct n; simpl; by hstep. Qed.

Lemma good_rel_dot : good_rel a (lit ".").
Proof. by exists []. Qed.

Lemma good_abs_root : good_abs a (root a).
Proof. exists []. by rewrite app_nil_r. Qed.

Lemma inv_phase1 fuel : holds I (phase1 fuel a fs) any.
Proof.
  unfold phase1.
  hstep.
  { hstep. intros s. apply inv_set_dir_q. intros d Hd. by apply elem_of_nil in Hd. }
  intros _ _.
  hstep; [hstep; intros s; by apply inv_set_dirs_emitted|]. intros _ _.
  hstep; [apply inv_open_append|]. intros _ _.
  hstep; [apply inv_emit_dir, good_rel_dot|]. intros _ _.
  hstep; [apply inv_dir_q_put; intros ? [= <-]; apply good_abs_root|]. intros _ _.
  hstep; [hstep; intros s; by apply inv_add_event|]. intros _ _.
  hstep; [apply inv_dir_worker|]. intros alive _.
  hstep; [apply inv_q_join|]. intros _ _.
  hstep; [hstep; intros s; by apply inv_add_event|]. intros _ _.
  hstep; [apply inv_stop_dir_workers|]. intros alive' _.
  hstep; [apply inv_join_threads|]. intros _ _.
  hstep; [hstep; intros s; by apply inv_add_event|]. intros _ _.
  hstep; [apply inv_flush|]. intros _ _. apply inv_close.
Qed.

End Invariant.

Lemma split_on_sep_join c cs :
  sep ∉ c -> Forall (fun x => sep ∉ x) cs ->
  split_on sep (sep_join c cs) = c :: cs.
Proof.
  intros Hc H. revert c Hc. induction H as [|x cs Hx H IH]; intros c Hc.
  - unfold sep_join. simpl. rewrite app_nil_r. by apply split_on_nosep.
  - unfold sep_join. simpl. rewrite split_on_app_sep, split_on_nosep by done.
    simpl. f_equal. by apply IH.
Qed.

Lemma split_on_rel_of xs :
  xs <> [] -> Forall wf_name xs -> split_on sep (rel_of xs) = xs.
Proof.
  destruct xs as [|c cs]; [done|]. intros _ [Hc H]%Forall_cons. simpl.
  apply split_on_sep_join; [apply Hc|].
  eapply Forall_impl; [done|]. intros x Hx. apply Hx.
Qed.

Lemma foldl_norm_step_names acc xs :
  Forall wf_name xs -> foldl norm_step acc xs = acc ++ xs.
Proof.
  intros H. revert acc. induction H as [|x xs Hx H IH]; intros acc; simpl.
  - by rewrite app_nil_r.
  - rewrite norm_step_name, IH, <- app_assoc by done. done.
Qed.

Lemma rel_of_startswith xs :
  Forall wf_name xs -> startswith_sep (rel_of xs) = false /\ rel_of xs <> [].
Proof.
  destruct xs as [|c cs]; [done|]. intros [Hc _]%Forall_cons.
  destruct Hc as (H1 & _ & _ & H2 & _). simpl. unfold sep_join.
  destruct c as [|z c]; [done|]. split; [|done]. simpl.
  apply Z.eqb_neq. intros ->. apply H2. by left.
Qed.

Lemma abs_comps_join_rel r xs :
  xs <> [] -> Forall wf_name xs ->
  abs_comps (os_path_join r (rel_of xs)) = abs_comps r ++ xs.
Proof.
  intros Hx H. destruct (rel_of_startswith xs H) as [H1 H2].
  rewrite abs_comps_join_split, split_on_rel_of by done.
  by apply foldl_norm_step_names.
Qed.

Lemma rel_of_snoc xs n :
  xs <> [] -> rel_of (xs ++ [n]) = rel_of xs ++ sep :: n.
Proof. destruct xs as [|c cs]; [done|]. intros _. simpl. apply sep_join_snoc. Qed.

Lemma rel_of_dot_inv xs : Forall wf_name xs -> rel_of xs = lit "." -> xs = [].
Proof.
  intros H E. destruct xs as [|c cs]; [done|]. exfalso.
  pose proof (split_on_rel_of (c :: cs) ltac:(done) H) as S.
  rewrite E in S. simpl in S. injection S as <- <-.
  apply Forall_cons in H as [(_&_&_&_&H&_) _]. by apply H.
Qed.

Lemma good_names_wf a xs : Forall (good_name a) xs -> Forall wf_name xs.
Proof. intros H. eapply Forall_impl; [done|]. by intros ? []. Qed.

Lemma wf_name_path n : wf_name n -> wf_path n.
Proof. intros (?&?&?&?); done. Qed.

Lemma rel_of_wf_path xs : Forall wf_name xs -> wf_path (rel_of xs).
Proof.
  destruct xs as [|c cs]; intros H.
  - split; [done|]. split.
    + apply Forall_singleton. unfold valid_cp. simpl. lia.
    + intros [=]%list_elem_of_singleton.
  - apply Forall_cons in H as [Hc H]. simpl. unfold sep_join.
    destruct Hc as (H1 & H2 & H3 & _).
    split; [by destruct c|]. split.
    + apply Forall_app. split; [done|]. induction H as [|x xs Hx H IH]; simpl; [done|].
      constructor; [unfold valid_cp, sep; lia|]. apply Forall_app. split; [apply Hx|done].
    + rewrite not_elem_of_app. split; [done|]. induction H as [|x xs Hx H IH]; simpl.
      * apply not_elem_of_nil.
      * rewrite not_elem_of_cons, not_elem_of_app. split; [done|]. split; [apply Hx|done].
Qed.

(** ** Invariants of the files and of what was written

    An invariant that looks at the files and at the log only, and not at
    the events of the log that are not writes, is kept by the whole
    program as soon as the writes and the opening of files keep it. *)

Section FilesOnly.
Context (blake2b : bytes -> Z -> bytes) (a : args) (fs : filesys).
Context (I : state -> Prop) (P : str -> Prop).
Hypothesis I_files : files_only I.
Hypothesis I_event :
  forall e s, is_write e = false -> I s -> I (add_event e s).
Hypothesis I_open : forall p, holds I (open_append p) any.
Hypothesis I_write : forall p b, P p -> holds I (file_write p b) any.

Lemma fo_modify f :
  (forall s, files (f s) = files s) ->
  (forall s, disk_free (f s) = disk_free s) ->
  (forall s, log (f s) = log s) ->
  holds I (modify f) any.
Proof. intros H H' H''. apply holds_modify. intros s. by apply (I_files s). Qed.

Lemma fo_event e : is_write e = false -> holds I (modify (add_event e)) any.
Proof. intros H. apply holds_modify. intros s. by apply I_event. Qed.

Ltac fo_mod := first [by apply fo_modify | by apply fo_event].

Lemma fo_dir_q_put x : holds I (dir_q_put a x) any.
Proof.
  intros s Hs. unfold dir_q_put. destruct (q_put _ _ _); simpl; [|done].
  split; [|done]. by apply (I_files s).
Qed.

Lemma fo_dir_in_q_put x : holds I (dir_in_q_put a x) any.
Proof.
  intros s Hs. unfold dir_in_q_put. destruct (q_put _ _ _); simpl; [|done].
  split; [|done]. by apply (I_files s).
Qed.

Lemma fo_q_join q : holds I (q_join q) any.
Proof. intros s Hs. unfold q_join. by case_match. Qed.

Lemma fo_join_threads n : holds I (join_threads n) any.
Proof. destruct n; simpl; by hstep. Qed.

Lemma fo_emit_dir r : P (dirs_out a) -> holds I (emit_dir a r) any.
Proof.
  intros HP. unfold emit_dir.
  hstep; [by apply I_write|]. intros _ _.
  hstep; [fo_mod|]. intros _ _.
  hstep; [hstep|]. intros n _. simpl.
  case_match; [fo_mod | by hstep].
Qed.

Lemma fo_de_is_dir de f : holds I (de_is_dir de f) any.
Proof. unfold de_is_dir. case_match; by hstep. Qed.

Lemma fo_de_is_file de : holds I (de_is_file de) any.
Proof. unfold de_is_file. case_match; by hstep. Qed.

Lemma fo_dir_worker_entry d de :
  P (dirs_out a) -> holds I (dir_worker_entry a d de) any.
Proof.
  intros HP. unfold dir_worker_entry.
  hstep; [|by hstep].
  hstep; [apply fo_de_is_dir|]. intros b _. simpl.
  destruct b; [|by hstep]. case_bool_decide as Hx; [by hstep|].
  hstep; [by apply fo_emit_dir|]. intros _ _. apply fo_dir_q_put.
Qed.

Lemma fo_scan d body :
  (forall de, holds I (body de) any) -> holds I (scan fs d body) any.
Proof.
  intros Hb. unfold scan.
  hstep; [fo_mod|]. intros _ _.
  hstep; [hstep; intros; apply Hb|]. intros _ _. case_match; by hstep.
Qed.

Lemma fo_dir_worker_item x :
  P (dirs_out a) -> holds I (dir_worker_item a fs x) any.
Proof.
  intros HP. destruct x as [d|]; simpl.
  - hstep; [|intros; by hstep].
    hstep; [|fo_mod].
    hstep; [apply fo_scan; intros de; by apply fo_dir_worker_entry|by hstep].
  - hstep; [fo_mod|]. intros; by hstep.
Qed.

Lemma fo_dir_worker fuel : P (dirs_out a) ->
  forall alive, holds I (dir_worker fuel a fs alive) any.
Proof.
  intros HP. induction fuel as [|fuel IH]; intros alive; simpl; [by hstep|].
  hstep; [hstep|]. intros q _. simpl.
  destruct alive as [|alive']; [by hstep|].
  destruct (items q) as [|x its]; [by hstep|].
  hstep; [fo_mod|]. intros _ _.
  hstep; [by apply fo_dir_worker_item|]. intros r _. apply IH.
Qed.

Lemma fo_stop_dir_workers n : P (dirs_out a) ->
  forall alive, holds I (stop_dir_workers n a fs alive) any.
Proof.
  intros HP. induction n as [|n IH]; intros alive; cbn [stop_dir_workers];
    [by hstep|].
  hstep; [by apply fo_dir_q_put|]. intros _ _.
  hstep; [by apply fo_dir_worker|]. intros alive' _. apply IH.
Qed.

Lemma fo_phase1 fuel : P (dirs_out a) -> holds I (phase1 fuel a fs) any.
Proof.
  intros HP. unfold phase1.
  hstep; [fo_mod|]. intros _ _.
  hstep; [fo_mod|]. intros _ _.
  hstep; [apply I_open|]. intros _ _.
  hstep; [by apply fo_emit_dir|]. intros _ _.
  hstep; [apply fo_dir_q_put|]. intros _ _.
  hstep; [fo_mod|]. intros _ _.
  hstep; [by apply fo_dir_worker|]. intros alive _.
  hstep; [apply fo_q_join|]. intros _ _.
  hstep; [fo_mod|]. intros _ _.
  hstep; [by apply fo_stop_dir_workers|]. intros alive' _.
  hstep; [apply fo_join_threads|]. intros _ _.
  hstep; [fo_mod|]. intros _ _.
  hstep; [fo_mod|]. intros _ _. fo_mod.
Qed.

Lemma fo_open_outputs :
  holds I (open_outputs (out_manifest a) (outdir a) (shards a))
    (fun outs => outs = outs_of a).
Proof.
  unfold open_outputs, outs_of. case_match.
  - destruct (outdir a) as [od|]; [|by hstep].
    hstep; [hstep; intros; apply I_open|]. intros _ _. by hstep.
  - destruct (out_manifest a) as [om|]; [|by hstep].
    hstep; [apply I_open|]. intros _ _. by hstep.
Qed.

Lemma fo_choose_out outs full dir_rel :
  holds I (choose_out blake2b a outs full dir_rel) any.
Proof.
  unfold choose_out. repeat case_match; try by hstep.
  hstep; [hstep|]. intros i _. simpl.
  hstep; [fo_mod|]. intros _ _. by hstep.
Qed.

Lemma fo_file_worker_entry outs dir_rel de :
  (forall o, o ∈ outs -> P o) ->
  holds I (file_worker_entry blake2b a outs dir_rel de) any.
Proof.
  intros HP. unfold file_worker_entry.
  hstep; [|by hstep].
  hstep; [apply fo_de_is_file|]. intros b _. simpl.
  destruct b; [|by hstep].
  hstep; [apply fo_choose_out|]. intros idx _. simpl.
  hstep.
  { destruct (outs !! Z.to_nat idx) as [o|] eqn:E; [|by hstep].
    apply I_write, HP. by eapply list_elem_of_lookup_2. }
  intros _ _. hstep; [fo_mod|]. intros _ _.
  hstep; [hstep|]. intros n _. simpl.
  case_match; [|by hstep].
  hstep. intros o _. fo_mod.
Qed.

Lemma fo_file_worker_item outs x :
  (forall o, o ∈ outs -> P o) ->
  holds I (file_worker_item blake2b a fs outs x) any.
Proof.
  intros HP. destruct x as [d|]; simpl.
  - hstep; [|intros; by hstep].
    hstep; [|fo_mod].
    hstep; [apply fo_scan; intros de; by apply fo_file_worker_entry|by hstep].
  - hstep; [fo_mod|]. intros; by hstep.
Qed.

Lemma fo_file_worker fuel outs : (forall o, o ∈ outs -> P o) ->
  forall alive, holds I (file_worker blake2b fuel a fs outs alive) any.
Proof.
  intros HP. induction fuel as [|fuel IH]; intros alive; simpl; [by hstep|].
  hstep; [hstep|]. intros q _. simpl.
  destruct alive as [|alive']; [by hstep|].
  destruct (items q) as [|x its]; [by hstep|].
  hstep; [fo_mod|]. intros _ _.
  hstep; [by apply fo_file_worker_item|]. intros r _. apply IH.
Qed.

Lemma fo_hand_over outs alive x : (forall o, o ∈ outs -> P o) ->
  holds I (hand_over blake2b a fs outs alive x) any.
Proof.
  intros HP. unfold hand_over.
  hstep; [apply fo_dir_in_q_put|]. intros _ _. by apply fo_file_worker.
Qed.

Lemma fo_stop_file_workers outs n : (forall o, o ∈ outs -> P o) ->
  forall alive, holds I (stop_file_workers blake2b n a fs outs alive) any.
Proof.
  intros HP. induction n as [|n IH]; intros alive; cbn [stop_file_workers];
    [by hstep|].
  hstep; [by apply fo_hand_over|]. intros alive' _. apply IH.
Qed.

Lemma fo_put_all put rs :
  (forall d, holds I (put d) any) -> holds I (put_all put rs) any.
Proof.
  intros Hp. induction rs as [|r rs IH]; simpl; [by hstep|].
  destruct (decode r); [|by hstep].
  hstep; [apply Hp|]. intros _ _. apply IH.
Qed.

Lemma fo_put_records put buf : (forall d, holds I (put d) any) ->
  forall fuel start, holds I (put_records fuel put buf start) any.
Proof.
  intros Hp. induction fuel as [|fuel IH]; intros start; simpl; [by hstep|].
  destruct (bytes_index buf 0 start) as [i|]; [|by hstep].
  destruct (decode _); [|by hstep].
  hstep; [apply Hp|]. intros _ _. apply IH.
Qed.

Lemma fo_read_dirs chunk put p : (forall d, holds I (put d) any) ->
  forall fuel pos buf, holds I (read_dirs fuel chunk put p pos buf) any.
Proof.
  intros Hp. induction fuel as [|fuel IH]; intros pos buf; [simpl; by hstep|].
  rewrite read_dirs_S. unfold file_read.
  hstep; [hstep|]. intros c _. cbv beta. destruct c as [|b c]; [by hstep|].
  hstep; [by apply fo_put_records|]. intros buf2 _. apply IH.
Qed.

Lemma fo_phase2 : (forall o, o ∈ outs_of a -> P o) -> holds I (phase2 blake2b a fs) any.
Proof.
  intros HP. unfold phase2.
  hstep; [apply fo_open_outputs|]. intros outs ->. cbv beta.
  hstep; [fo_mod|]. intros _ _.
  hstep; [fo_mod|]. intros _ _.
  hstep; [fo_mod|]. intros _ _.
  hstep; [fo_mod|]. intros _ _.
  hstep; [fo_mod|]. intros _ _.
  hstep; [hstep|]. intros ledger _. cbv beta.
  hstep.
  { apply fo_read_dirs. intros d. hstep; [by apply fo_hand_over|].
    intros; by hstep. }
  intros _ _.
  hstep; [apply fo_q_join|]. intros _ _.
  hstep; [fo_mod|]. intros _ _.
  hstep; [by apply fo_stop_file_workers|]. intros alive' _.
  hstep; [apply fo_join_threads|]. intros _ _.
  hstep; [fo_mod|]. intros _ _.
  hstep. intros o _. cbv beta.
  hstep; [fo_mod|]. intros _ _. fo_mod.
Qed.

Lemma fo_main fuel :
  P (dirs_out a) -> (forall o, o ∈ outs_of a -> P o) ->
  holds I (main blake2b fuel a fs) any.
Proof.
  intros H1 H2. unfold main. repeat case_match; try by hstep.
  hstep; [by apply fo_phase1|]. intros _ _. by apply fo_phase2.
Qed.

End FilesOnly.

(** ** Reading back what was written *)

Lemma wf_path_no_nul r : wf_path r -> 0 ∉ encode r.
Proof. intros (_ & H1 & H2) H. by apply H2, encode_nul. Qed.

Lemma records_write_all rs :
  Forall wf_path rs ->
  records (write_all rs) = encode <$> rs /\ leftover_from [] (write_all rs) = [].
Proof.
  induction 1 as [|r rs Hr H IH]; [done|].
  change (write_all (r :: rs)) with ((encode r ++ [0]) ++ write_all rs).
  rewrite <- app_assoc. unfold records.
  destruct (records_from_cur (encode r) ([0] ++ write_all rs)) as [-> ->];
    [by apply wf_path_no_nul|].
  simpl. destruct IH as [IH1 IH2]. unfold records in IH1. by rewrite IH1, IH2.
Qed.

Lemma put_all_encoded put rs s :
  Forall wf_path rs -> put_all put (encode <$> rs) s = for_each rs put s.
Proof.
  intros H. revert s. induction H as [|r rs Hr H IH]; intros s; [done|].
  simpl. rewrite decode_encode by apply Hr.
  unfold or_dot. rewrite bool_decide_eq_false_2 by apply Hr.
  apply bind_ext. intros _ s'. apply IH.
Qed.

(** The reader puts the records of a well-formed file, in order. *)
Lemma read_dirs_write_all p put rs s :
  keeps p put -> content p s = write_all rs -> Forall wf_path rs ->
  read_dirs (S (length (content p s))) chunk_size put p 0 [] s =
    for_each rs put s.
Proof.
  intros K E H. rewrite read_dirs_spec; try done.
  - rewrite drop_0, E. destruct (records_write_all rs H) as [R _].
    unfold records in R. rewrite R. by apply put_all_encoded.
  - unfold chunk_size. lia.
  - apply not_elem_of_nil.
  - rewrite drop_0. lia.
Qed.

Lemma holds_bind_gets {A B} (I : state -> Prop) (f : state -> A)
    (k : A -> M B) (Q : B -> Prop) :
  (forall s, I s -> I (snd (k (f s) s))
     /\ forall b, fst (k (f s) s) = Ok b -> Q b) ->
  holds I (bind (gets f) k) Q.
Proof. intros H s Hs. by apply H. Qed.

Lemma holds_at {A} (I : state -> Prop) (m m' : M A) (Q : A -> Prop) s :
  m s = m' s -> holds I m' Q -> I s ->
  I (snd (m s)) /\ forall a, fst (m s) = Ok a -> Q a.
Proof. intros -> H Hs. by apply H. Qed.

Lemma bind_at {A B} (m m' : M A) (k : A -> M B) s :
  m s = m' s -> bind m k s = bind m' k s.
Proof. unfold bind. by intros ->. Qed.

Section Invariant2.
Context (blake2b : bytes -> Z -> bytes) (a : args) (fs : filesys).
Hypothesis fs_ok : wf_fs fs.
Hypothesis no_alias : dirs_out a ∉ outs_of a.

Let I := run_inv a fs.

Lemma good_file_rel dir_rel de :
  good_rel a dir_rel -> wf_name (name de) ->
  good_file a (rel_file_of dir_rel de).
Proof.
  intros (xs & H & ->) Hn. exists xs, (name de). split; [done|]. split; [done|].
  unfold rel_file_of. case_bool_decide as E.
  - apply rel_of_dot_inv in E as ->; [|by eapply good_names_wf].
    simpl. unfold sep_join. simpl. by rewrite app_nil_r.
  - rewrite rel_of_snoc; [done|]. by intros ->.
Qed.

Lemma good_abs_dir_abs dir_rel :
  good_rel a dir_rel -> good_abs a (dir_abs_of a dir_rel).
Proof.
  intros (xs & H & ->). unfold dir_abs_of. case_bool_decide as E.
  - apply good_abs_root.
  - exists xs. split; [|done]. apply abs_comps_join_rel.
    + by intros ->.
    + by eapply good_names_wf.
Qed.

Lemma inv_choose_out outs full dir_rel :
  holds I (choose_out blake2b a outs full dir_rel) any.
Proof.
  unfold choose_out. repeat case_match; try by hstep.
  hstep; [hstep|]. intros i _. cbv beta.
  hstep; [hstep; intros s; apply inv_set_rr_counter|]. intros _ _. by hstep.
Qed.

Lemma inv_de_is_file_res de :
  holds I (de_is_file de) (fun b => is_file_nofollow de = Some b).
Proof. unfold de_is_file. case_match; by hstep. Qed.

Lemma inv_file_worker_entry dir_rel de :
  good_rel a dir_rel -> de ∈ entries (scandir fs (dir_abs_of a dir_rel)) ->
  holds I (file_worker_entry blake2b a (outs_of a) dir_rel de) any.
Proof.
  intros Hd Hn. unfold file_worker_entry.
  hstep; [|by hstep].
  hstep; [apply inv_de_is_file_res|]. intros b Hb. cbv beta.
  destruct b; [|by hstep].
  hstep; [apply inv_choose_out|]. intros idx _. cbv beta.
  hstep.
  { destruct (outs_of a !! Z.to_nat idx) as [o|] eqn:E; [|by hstep].
    apply inv_write_out; [done|by eapply list_elem_of_lookup_2|].
    exists dir_rel, de. done. }
  intros _ _. hstep; [hstep; intros s; apply inv_set_files_emitted|]. intros _ _.
  hstep; [hstep|]. intros n _. cbv beta.
  case_match; [|by hstep].
  hstep. intros o _. apply inv_flush.
Qed.

Lemma inv_dir_in_q_task_done :
  holds I (modify (fun s => set_dir_in_q (q_task_done (dir_in_q s)) s)) any.
Proof. hstep. intros s Hs. apply inv_set_dir_in_q; [|done]. apply Hs. Qed.

Lemma inv_file_worker_item x :
  (forall d, x = Path d -> good_rel a d) ->
  holds I (file_worker_item blake2b a fs (outs_of a) x) any.
Proof.
  intros Hx. destruct x as [d|]; simpl.
  - hstep; [|intros; by hstep].
    hstep; [|apply inv_dir_in_q_task_done].
    hstep.
    + apply inv_scan; [by apply good_abs_dir_abs, Hx|]. intros de Hde.
      apply inv_file_worker_entry; [by apply Hx|done].
    + by hstep.
  - hstep; [apply inv_dir_in_q_task_done|]. intros; by hstep.
Qed.

Lemma inv_file_worker fuel :
  forall alive, holds I (file_worker blake2b fuel a fs (outs_of a) alive) any.
Proof.
  induction fuel as [|fuel IH]; intros alive; simpl; [by hstep|].
  hstep; [hstep|]. intros q (s0 & Hs0 & ->). cbv beta.
  destruct alive as [|alive']; [by hstep|].
  destruct (items (dir_in_q s0)) as [|x its] eqn:E; [by hstep|].
  hstep.
  { hstep. intros s Hs. apply inv_set_dir_in_q; [|done]. simpl. rewrite E. simpl.
    intros d Hd. apply Hs0. rewrite E. by right. }
  intros _ _. hstep.
  { apply inv_file_worker_item. intros d ->. apply Hs0. rewrite E. by left. }
  intros r _. apply IH.
Qed.

Lemma inv_hand_over alive x :
  (forall d, x = Path d -> good_rel a d) ->
  holds I (hand_over blake2b a fs (outs_of a) alive x) any.
Proof.
  intros Hx. unfold hand_over.
  hstep; [by apply inv_dir_in_q_put|]. intros _ _. apply inv_file_worker.
Qed.

Lemma inv_stop_file_workers n : forall alive,
  holds I (stop_file_workers blake2b n a fs (outs_of a) alive) any.
Proof.
  induction n as [|n IH]; intros alive; cbn [stop_file_workers]; [by hstep|].
  hstep; [by apply inv_hand_over|]. intros alive' _. apply IH.
Qed.

Lemma inv_open_outputs :
  holds I (open_outputs (out_manifest a) (outdir a) (shards a))
    (fun outs => outs = outs_of a).
Proof.
  unfold open_outputs, outs_of. case_match.
  - destruct (outdir a) as [od|]; [|by hstep].
    hstep; [hstep; intros; apply inv_open_append|]. intros _ _. by hstep.
  - destruct (out_manifest a) as [om|]; [|by hstep].
    hstep; [apply inv_open_append|]. intros _ _. by hstep.
Qed.

(** Phase 2 leaves the ledger as it is. *)
Lemma hand_over_keeps alive :
  keeps (dirs_out a)
    (fun dir_rel => hand_over blake2b a fs (outs_of a) alive (Path dir_rel) ;;; ret tt).
Proof.
  intros d s.
  set (J := fun s' : state => content (dirs_out a) s' = content (dirs_out a) s).
  assert (holds J (hand_over blake2b a fs (outs_of a) alive (Path d) ;;; ret tt) any) as H.
  { hstep; [|intros; by hstep].
    apply (fo_hand_over blake2b a fs J (fun o => o <> dirs_out a)).
    - intros s1 s2 E _. unfold J, content. by rewrite E.
    - by intros e s1 _.
    - intros p b Hp s1 Hs1. unfold file_write. destruct (fits _ _); simpl; [|done].
      split; [|done]. unfold J. rewrite content_add_event, content_insert.
      by rewrite bool_decide_eq_false_2.
    - intros o Ho ->. done. }
  by apply H.
Qed.

Lemma good_rel_wf_path r : good_rel a r -> wf_path r.
Proof. intros (xs & H & ->). by eapply rel_of_wf_path, good_names_wf. Qed.

Lemma inv_phase2 : holds I (phase2 blake2b a fs) any.
Proof.
  unfold phase2.
  hstep; [apply inv_open_outputs|]. intros outs ->. cbv beta.
  hstep; [hstep; intros s; apply inv_set_rr_counter|]. intros _ _.
  hstep; [hstep; intros s; apply inv_set_files_emitted|]. intros _ _.
  hstep.
  { hstep. intros s. apply inv_set_dir_in_q. intros d Hd. by apply elem_of_nil in Hd. }
  intros _ _.
  hstep; [hstep; intros s; by apply inv_add_event|]. intros _ _.
  hstep; [hstep; intros s; by apply inv_add_event|]. intros _ _.
  apply holds_bind_gets. intros s Hs.
  destruct (inv_ledger _ _ _ Hs) as (rs & E & Hrs).
  set (put := fun dir_rel : str =>
    hand_over blake2b a fs (outs_of a) (pool_size (workers2 a)) (Path dir_rel) ;;; ret tt).
  eapply holds_at; [| |exact Hs].
  { apply bind_at. apply (read_dirs_write_all _ put rs); [apply hand_over_keeps|done|].
    eapply Forall_impl; [done|]. apply good_rel_wf_path. }
  hstep.
  { hstep. intros r Hr. unfold put. hstep; [|intros; by hstep].
    apply inv_hand_over. intros ? [= <-]. by eapply Forall_forall in Hrs. }
  intros _ _.
  hstep; [apply inv_q_join|]. intros _ _.
  hstep; [hstep; intros s'; by apply inv_add_event|]. intros _ _.
  hstep; [apply inv_stop_file_workers|]. intros alive' _.
  hstep; [apply inv_join_threads|]. intros _ _.
  hstep; [hstep; intros s'; by apply inv_add_event|]. intros _ _.
  hstep. intros o _. cbv beta.
  hstep; [apply inv_flush|]. intros _ _. apply inv_close.
Qed.

Lemma inv_main fuel : holds I (main blake2b fuel a fs) any.
Proof.
  unfold main. repeat case_match; try by hstep.
  hstep; [by apply inv_phase1|]. intros _ _. apply inv_phase2.
Qed.

End Invariant2.

(** ** Append-only files *)

Lemma payloads_snoc p l e :
  payloads p (l ++ [e]) =
    payloads p l ++
    match e with
    | EvWrite q b => if bool_decide (q = p) then b else []
    | _ => []
    end.
Proof. unfold payloads. rewrite flat_map_app. simpl. by rewrite app_nil_r. Qed.

Lemma payloads_not_write p l e :
  is_write e = false -> payloads p (l ++ [e]) = payloads p l.
Proof. intros H. rewrite payloads_snoc. destruct e; try done; by rewrite app_nil_r. Qed.


Lemma appended_files_only s0 : files_only (appended s0).
Proof.
  intros s s' E1 _ E2 H p. destruct (H p) as [H1 H2].
  unfold content in *. rewrite E1, E2. done.
Qed.

Lemma appended_event s0 e s :
  is_write e = false -> appended s0 s -> appended s0 (add_event e s).
Proof.
  intros He H p. destruct (H p) as [H1 H2]. split; [|done].
  rewrite content_add_event. simpl. by rewrite payloads_not_write.
Qed.

Lemma appended_open s0 p : holds (appended s0) (open_append p) any.
Proof.
  unfold open_append. case_bool_decide; [apply holds_raise|].
  apply holds_modify. intros s Hs q. destruct (Hs q) as [H1 H2].
  rewrite content_add_event, content_insert. simpl.
  rewrite payloads_not_write by done. split.
  - case_bool_decide; by subst.
  - intros Hq. destruct (decide (p = q)) as [->|].
    + by rewrite lookup_insert_eq.
    + rewrite lookup_insert_ne by done. auto.
Qed.

Lemma appended_write s0 p b : holds (appended s0) (file_write p b) any.
Proof.
  intros s H. unfold file_write. destruct (fits _ _); simpl; [|done].
  split; [|done]. intros q. destruct (H q) as [H1 H2].
  rewrite content_add_event, content_insert. simpl. rewrite payloads_snoc.
  split.
  - case_bool_decide.
    + subst. by rewrite H1, app_assoc.
    + by rewrite app_nil_r.
  - intros Hq. destruct (decide (p = q)) as [->|].
    + by rewrite lookup_insert_eq.
    + rewrite lookup_insert_ne by done. auto.
Qed.

(** C9: every file the program opens is opened for appending: when the
    program ends, however it ends, every file holds the bytes it held
    before the run, unchanged, followed by the records written to it
    during the run, and no file that existed is gone. *)
Theorem outputs_append_only blake2b fuel a fs fl free p :
  let s0 := init_state fl free in
  let s' := snd (main blake2b fuel a fs s0) in
  content p s' = content p s0 ++ payloads p (log s')
  /\ (forall c, fl !! p = Some c ->
        files s' !! p = Some (c ++ payloads p (log s'))).
Proof.
  intros s0 s'.
  assert (appended s0 s') as H.
  { apply (fo_main blake2b a fs (appended s0) (fun _ => True)); try done.
    - apply appended_files_only.
    - apply appended_event.
    - apply appended_open.
    - intros q b _. apply appended_write.
    - intros q. split; [|done]. simpl. by rewrite app_nil_r. }
  destruct (H p) as [H1 H2]. split; [done|].
  intros c Hc. destruct H2 as [c' Hc']; [simpl; rewrite Hc; eauto|].
  unfold content in H1. simpl in H1. rewrite Hc, Hc' in H1. simpl in H1.
  by rewrite Hc', H1.
Qed.

(** ** The shard router *)


Lemma choose_out_hash blake2b a outs full dir_rel s :
  (2 <= length outs)%nat -> mode a <> roundrobin ->
  choose_out blake2b a outs full dir_rel s =
    (Ok (hashed_index blake2b (routing_key (mode a) full dir_rel) (length outs)), s).
Proof.
  intros Hn Hm. unfold choose_out, hashed_index.
  destruct (Z.eqb_spec (Z.of_nat (length outs)) 1); [lia|].
  destruct (Z.eqb_spec (Z.of_nat (length outs)) 0); [lia|].
  by destruct (mode a).
Qed.

Lemma flush_all_content outs p s :
  content p (snd (for_each outs file_flush s)) = content p s
  /\ fst (for_each outs file_flush s) = Ok tt.
Proof.
  revert s. induction outs as [|o outs IH]; intros s; [done|].
  simpl. unfold bind, file_flush at 1, modify. simpl.
  destruct (IH (add_event (EvFlush o) s)) as [-> ->]. done.
Qed.

Lemma try_except_ok {A} (m h : M A) s a s' :
  m s = (Ok a, s') -> try_except_OSError m h s = (Ok a, s').
Proof. unfold try_except_OSError. by intros ->. Qed.

(** What [file_worker] does with an entry that is a regular file, when
    the record fits on the disk. *)
Lemma file_worker_entry_file blake2b a outs dir_rel de s idx s1 o :
  is_file_nofollow de = Some true ->
  choose_out blake2b a outs (rel_file_of dir_rel de) dir_rel s = (Ok idx, s1) ->
  outs !! Z.to_nat idx = Some o ->
  fits (Z.of_nat (length (enc_record (rel_file_of dir_rel de)))) (disk_free s1) = true ->
  exists s',
    file_worker_entry blake2b a outs dir_rel de s = (Ok tt, s')
    /\ content o s' = content o s1 ++ enc_record (rel_file_of dir_rel de)
    /\ (forall p, p <> o -> content p s' = content p s1).
Proof.
  intros Hf Hc Ho Hfit.
  set (rec := enc_record (rel_file_of dir_rel de)) in *.
  set (sw := add_event (EvWrite o rec)
    (set_files (<[o := content o s1 ++ rec]> (files s1))
       (use_space (Z.of_nat (length rec)) (disk_free s1)) s1)).
  set (s2 := set_files_emitted (files_emitted sw + 1) sw).
  assert (forall p, content p s2 =
    if bool_decide (o = p) then content o s1 ++ rec else content p s1) as C.
  { intros p. unfold s2, sw, content. simpl.
    case_bool_decide; [subst; by rewrite lookup_insert_eq|by rewrite lookup_insert_ne]. }
  exists (snd ((if Z.land (files_emitted s2) 0xFFFFF =? 0
                then for_each outs file_flush else ret tt) s2)).
  split.
  - unfold file_worker_entry. apply try_except_ok.
    unfold de_is_file. rewrite Hf.
    rewrite (bind_ok _ _ s true s eq_refl).
    rewrite (bind_ok _ _ s idx s1 Hc). rewrite Ho.
    assert (file_write o rec s1 = (Ok tt, sw)) as Hw.
    { unfold file_write. by rewrite Hfit. }
    rewrite (bind_ok _ _ s1 tt sw Hw).
    rewrite (bind_ok _ _ sw tt s2 eq_refl).
    rewrite (bind_ok (gets files_emitted) _ s2 _ s2 eq_refl).
    destruct (Z.land _ _ =? 0); [|done].
    destruct (flush_all_content outs o s2) as [_ E2].
    destruct (for_each outs file_flush s2) as [r s3]. simpl in *. by subst r.
  - destruct (Z.land _ _ =? 0); simpl.
    + split.
      * destruct (flush_all_content outs o s2) as [-> _].
        by rewrite C, bool_decide_eq_true_2.
      * intros p Hp. destruct (flush_all_content outs p s2) as [-> _].
        rewrite C, bool_decide_eq_false_2; done.
    + split.
      * by rewrite C, bool_decide_eq_true_2.
      * intros p Hp. rewrite C, bool_decide_eq_false_2; done.
Qed.

(** C3: with at least two shards and a hashing mode, the index chosen for
    a file is the four-byte digest of its routing key (the relative path
    of its directory under [bydir], its own relative path under [hash]),
    read as a little-endian unsigned integer, modulo the number of
    shards; it is a valid index, the record of the file is written to the
    shard at this index, and under [bydir] two files of one directory get
    the same index. *)
Theorem shard_index_is_hash blake2b a outs dir_rel de s :
  (2 <= length outs)%nat -> mode a <> roundrobin ->
  let f := rel_file_of dir_rel de in
  let idx := hashed_index blake2b (routing_key (mode a) f dir_rel) (length outs) in
  choose_out blake2b a outs f dir_rel s = (Ok idx, s)
  /\ 0 <= idx < Z.of_nat (length outs)
  /\ (exists o, outs !! Z.to_nat idx = Some o
      /\ (is_file_nofollow de = Some true ->
          fits (Z.of_nat (length (enc_record f))) (disk_free s) = true ->
          content o (snd (file_worker_entry blake2b a outs dir_rel de s)) =
            content o s ++ enc_record f))
  /\ (mode a = bydir ->
      forall de', choose_out blake2b a outs (rel_file_of dir_rel de') dir_rel s =
                  (Ok idx, s)).
Proof.
  intros Hn Hm f idx.
  assert (0 <= idx < Z.of_nat (length outs)) as Hi.
  { unfold idx, hashed_index. apply Z.mod_pos_bound. lia. }
  split; [by apply choose_out_hash|]. split; [done|]. split.
  - destruct (lookup_lt_is_Some_2 outs (Z.to_nat idx)) as [o Ho]; [lia|].
    exists o. split; [done|]. intros Hf Hfit.
    destruct (file_worker_entry_file blake2b a outs dir_rel de s idx s o)
      as (s' & -> & E & _); try done.
    by apply choose_out_hash.
  - intros Hb de'. rewrite choose_out_hash by done. unfold idx.
    by rewrite Hb.
Qed.


Lemma shard_index_is_hash_witness :
  choose_out toy_digest args_bydir4 (outs_of args_bydir4)
    (rel_file_of (lit "d") (file_entry "p.txt")) (lit "d") (init_state ∅ None)
  = choose_out toy_digest args_bydir4 (outs_of args_bydir4)
    (rel_file_of (lit "d") (file_entry "q.txt")) (lit "d") (init_state ∅ None).
Proof.
  destruct (shard_index_is_hash toy_digest args_bydir4 (outs_of args_bydir4)
    (lit "d") (file_entry "p.txt") (init_state ∅ None))
    as (H1 & _ & _ & H4).
  - vm_compute. lia.
  - done.
  - rewrite H1. symmetry. by apply H4.
Defined.

(** ** What a run writes and visits *)



Lemma good_file_wf_path a f : good_file a f -> wf_path f.
Proof.
  intros (xs & n & H & Hn & ->). apply rel_of_wf_path, Forall_app.
  split; [by eapply good_names_wf|]. by apply Forall_singleton.
Qed.



Lemma good_file_startswith a f : good_file a f -> startswith_sep f = false.
Proof.
  intros (xs & n & H & Hn & ->). apply rel_of_startswith, Forall_app.
  split; [by eapply good_names_wf|]. by apply Forall_singleton.
Qed.

Section Run.
Context (blake2b : bytes -> Z -> bytes) (fuel : nat) (a : args) (fs : filesys).
Context (fl : gmap str bytes) (free : option Z).
Hypothesis fs_ok : wf_fs fs.
Hypothesis no_alias : dirs_out a ∉ outs_of a.
Hypothesis ledger : ledger_ok a fl.

Lemma run_inv_init : run_inv a fs (init_state fl free).
Proof.
  split; simpl.
  - intros d Hd. by apply elem_of_nil in Hd.
  - intros d Hd. by apply elem_of_nil in Hd.
  - exact ledger.
  - done.
Qed.

Lemma run_inv_final :
  run_inv a fs (snd (main blake2b fuel a fs (init_state fl free))).
Proof. by apply inv_main, run_inv_init. Qed.



Lemma run_write_out o b :
  o ∈ outs_of a ->
  EvWrite o b ∈ log (snd (main blake2b fuel a fs (init_state fl free))) ->
  file_record a fs b.
Proof.
  intros Ho H. pose proof (inv_log _ _ _ run_inv_final) as L.
  eapply Forall_forall in L; [|done]. simpl in L.
  destruct L as [[-> _]|[_ L]]; done.
Qed.

Lemma file_record_good b :
  file_record a fs b ->
  exists dir_rel de,
    good_rel a dir_rel /\ de ∈ entries (scandir fs (dir_abs_of a dir_rel))
    /\ b = enc_record (rel_file_of dir_rel de)
    /\ good_file a (rel_file_of dir_rel de).
Proof.
  intros (dir_rel & de & H1 & H2 & H3 & ->). exists dir_rel, de.
  repeat split; try done. apply good_file_rel; [done|]. by eapply fs_ok.
Qed.

End Run.


(** C5: the record of a file is the relative path of its directory, as
    the ledger has it, joined to the name of its entry by the separator,
    and the bare name for a file of the root, which the ledger calls
    ["."]; it does not begin with a separator. *)
Theorem file_record_relative blake2b fuel a fs fl free o b :
  wf_fs fs -> dirs_out a ∉ outs_of a -> ledger_ok a fl ->
  let s' := snd (main blake2b fuel a fs (init_state fl free)) in
  o ∈ outs_of a -> EvWrite o b ∈ log s' ->
  exists dir_rel de,
    de ∈ entries (scandir fs (dir_abs_of a dir_rel))
    /\ b = encode (rel_file_of dir_rel de) ++ [0]
    /\ rel_file_of dir_rel de =
         (if bool_decide (dir_rel = lit ".") then name de
          else dir_rel ++ [sep] ++ name de)
    /\ (dir_rel = lit "." -> dir_abs_of a dir_rel = root a)
    /\ (dir_rel <> lit "." ->
        dir_abs_of a dir_rel = os_path_join (root a) dir_rel)
    /\ startswith_sep (rel_file_of dir_rel de) = false.
Proof.
  intros Hfs Hal Hl s' Ho Hw.
  pose proof (run_write_out blake2b fuel a fs fl free Hfs Hal Hl o _ Ho Hw) as R.
  apply (file_record_good a fs Hfs) in R as (dir_rel & de & _ & Hde & E & G).
  exists dir_rel, de. repeat split; try done.
  - unfold dir_abs_of. intros ->. done.
  - unfold dir_abs_of. intros H. by rewrite bool_decide_eq_false_2.
  - by eapply good_file_startswith.
Qed.

Lemma wf_fs_of tbl : wf_table tbl -> wf_fs (fs_of tbl).
Proof.
  intros H d de. simpl. induction H as [|[q l] t Hl H IH]; simpl.
  - intros Hd. by apply elem_of_nil in Hd.
  - case_bool_decide; [|done]. intros Hd. by eapply Forall_forall in Hl.
Qed.

Lemma ledger_ok_fresh a fl : fl !! dirs_out a = None -> ledger_ok a fl.
Proof. intros H. exists []. by rewrite H. Qed.


Lemma file_record_relative_witness :
  exists dir_rel de,
    de ∈ entries (scandir tree1 (dir_abs_of args1 dir_rel))
    /\ encode (lit "a/x.txt") ++ [0] = encode (rel_file_of dir_rel de) ++ [0]
    /\ rel_file_of dir_rel de =
         (if bool_decide (dir_rel = lit ".") then name de
          else dir_rel ++ [sep] ++ name de)
    /\ (dir_rel = lit "." -> dir_abs_of args1 dir_rel = root args1)
    /\ (dir_rel <> lit "." ->
        dir_abs_of args1 dir_rel = os_path_join (root args1) dir_rel)
    /\ startswith_sep (rel_file_of dir_rel de) = false.
Proof.
  apply (file_record_relative toy_digest 10 args1 tree1 ∅ None (lit "files.nul")).
  - apply wf_fs_of. compute_done.
  - compute_done.
  - by apply ledger_ok_fresh.
  - compute_done.
  - compute_done.
Defined.

(** ** The NUL-delimited encoding *)

Lemma decode_all_encoded rs :
  Forall wf_path rs -> mapM decode (encode <$> rs) = Some rs.
Proof.
  induction 1 as [|r rs Hr H IH]; [done|].
  rewrite fmap_cons. simpl. rewrite decode_encode by apply Hr. simpl.
  by rewrite IH.
Qed.

Lemma payloads_cons p e l :
  payloads p (e :: l) =
    match e with
    | EvWrite q b => if bool_decide (q = p) then b else []
    | _ => []
    end ++ payloads p l.
Proof. done. Qed.

Lemma payloads_good a fs p l :
  wf_fs fs -> Forall (good_event a fs) l ->
  exists rs, payloads p l = write_all rs /\ Forall wf_path rs.
Proof.
  intros Hfs. induction 1 as [|e l He H (rs & E & Hrs)]; [by exists []|].
  rewrite payloads_cons, E.
  destruct e as [| |q b| | | | | |]; try by exists rs.
  case_bool_decide; [|by exists rs]. simpl in He.
  destruct He as [[_ (r & Hr & ->)]|[_ Hf]].
  - exists (r :: rs). split; [done|]. constructor; [|done].
    by eapply good_rel_wf_path.
  - apply (file_record_good a fs Hfs) in Hf as (dir_rel & de & _ & _ & -> & G).
    exists (rel_file_of dir_rel de :: rs). split; [done|]. constructor; [|done].
    by eapply good_file_wf_path.
Qed.

(** C6: the bytes a run writes to a file are the encoding of a sequence
    of paths, each followed by one NUL; no path of the sequence has a NUL
    in its encoding; splitting these bytes on NUL and decoding the pieces
    gives the sequence back, in the order of the writes, with nothing
    left over; and the reader of phase 2 puts exactly this sequence. *)
Theorem nul_roundtrip blake2b fuel a fs fl free p :
  wf_fs fs -> dirs_out a ∉ outs_of a -> ledger_ok a fl ->
  let s' := snd (main blake2b fuel a fs (init_state fl free)) in
  exists rs,
    payloads p (log s') = flat_map (fun r => encode r ++ [0]) rs
    /\ Forall (fun r => 0 ∉ encode r) rs
    /\ mapM decode (records (payloads p (log s'))) = Some rs
    /\ leftover_from [] (payloads p (log s')) = []
    /\ (forall put q s,
          keeps q put -> content q s = payloads p (log s') ->
          read_dirs (S (length (content q s))) chunk_size put q 0 [] s =
            for_each rs put s).
Proof.
  intros Hfs Hal Hl s'.
  pose proof (inv_log _ _ _ (run_inv_final blake2b fuel a fs fl free Hfs Hal Hl)) as L.
  destruct (payloads_good a fs p _ Hfs L) as (rs & E & Hrs).
  exists rs. fold s' in E. rewrite E.
  destruct (records_write_all rs Hrs) as [R1 R2].
  repeat split; try done.
  - eapply Forall_impl; [done|]. apply wf_path_no_nul.
  - rewrite R1. by apply decode_all_encoded.
  - intros put q s K Hq. by apply read_dirs_write_all.
Qed.

Lemma nul_roundtrip_witness :
  exists rs,
    payloads (lit "dirs.nul")
      (log (snd (main toy_digest 10 args1 tree1 (init_state ∅ None))))
      = flat_map (fun r => encode r ++ [0]) rs
    /\ mapM decode (records (payloads (lit "dirs.nul")
         (log (snd (main toy_digest 10 args1 tree1 (init_state ∅ None))))))
       = Some rs.
Proof.
  destruct (nul_roundtrip toy_digest 10 args1 tree1 ∅ None (lit "dirs.nul"))
    as (rs & H1 & _ & H3 & _).
  - apply wf_fs_of. compute_done.
  - compute_done.
  - by apply ledger_ok_fresh.
  - exists rs. by split.
Defined.

(** C10: a record of length zero in the ledger, at the start of the file
    or just after a NUL, is read as ["."]: the reader puts the records
    before it, then ["."], then the records after it, and ["."] is the
    root for [file_worker]. *)
Theorem empty_record_is_root a put p s pre post :
  keeps p put -> content p s = pre ++ 0 :: post ->
  (pre = [] \/ exists pre', pre = pre' ++ [0]) ->
  read_dirs (S (length (content p s))) chunk_size put p 0 [] s =
    (put_all put (records pre) ;;; put (lit ".") ;;;
     put_all put (records post)) s
  /\ dir_abs_of a (lit ".") = root a.
Proof.
  intros K E Hpre. split; [|done].
  rewrite read_dirs_spec; try done; cycle 1.
  { unfold chunk_size. lia. }
  { apply not_elem_of_nil. }
  { rewrite drop_0. lia. }
  rewrite drop_0, E.
  destruct (records_from_app [] pre (0 :: post)) as [-> _].
  assert (leftover_from [] pre = []) as ->.
  { destruct Hpre as [->|[pre' ->]]; [done|].
    by destruct (records_from_app [] pre' [0]) as [_ ->]. }
  rewrite put_all_app. apply bind_ext. intros _ s1. done.
Qed.


Lemma empty_record_is_root_witness :
  log (snd (read_dirs (S (length (content (lit "dirs.nul") ledger_gap)))
              chunk_size note_dir (lit "dirs.nul") 0 [] ledger_gap))
  = [EvScandir (lit "a"); EvScandir (lit "."); EvScandir (lit "b")].
Proof.
  destruct (empty_record_is_root args1 note_dir (lit "dirs.nul") ledger_gap
              (encode (lit "a") ++ [0]) (encode (lit "b") ++ [0])) as [-> _].
  - by intros d s.
  - compute_done.
  - right. by exists (encode (lit "a")).
  - compute_done.
Defined.

(** ** Phase 1 runs to completion *)

Lemma tree_size_S n a fs d :
  tree_size (S n) a fs d =
    (fun ks => S (sum_list ks)) <$> mapM (tree_size n a fs) (subdirs a fs d).
Proof. done. Qed.

Lemma tree_size_mono n a fs : forall d k,
  tree_size n a fs d = Some k -> tree_size (S n) a fs d = Some k.
Proof.
  induction n as [|n IH]; intros d k; [done|].
  rewrite (tree_size_S (S n)), (tree_size_S n).
  destruct (mapM (tree_size n a fs) (subdirs a fs d)) as [ks|] eqn:E; [|done].
  intros [= <-].
  assert (mapM (tree_size (S n) a fs) (subdirs a fs d) = Some ks) as ->; [|done].
  apply mapM_Some. apply mapM_Some in E.
  eapply Forall2_impl; [done|]. intros c kc. apply IH.
Qed.



Lemma ok_subdirs n a fs d :
  ok n a fs d -> Forall (ok n a fs) (subdirs a fs d)
          /\ sz n a fs d = S (sum_list_with (sz n a fs) (subdirs a fs d)).
Proof.
  intros [k Hk]. unfold sz at 1. rewrite Hk. simpl.
  destruct n as [|n']; [done|]. rewrite tree_size_S in Hk.
  destruct (mapM (tree_size n' a fs) (subdirs a fs d)) as [ks|] eqn:E; [|done].
  injection Hk as <-. apply mapM_Some in E.
  assert (Forall2 (fun c kc => tree_size (S n') a fs c = Some kc)
            (subdirs a fs d) ks) as E'.
  { eapply Forall2_impl; [done|]. intros c kc. apply tree_size_mono. }
  clear E.
  assert (Forall (ok (S n') a fs) (subdirs a fs d)
          /\ sum_list_with (sz (S n') a fs) (subdirs a fs d) = sum_list ks)
    as [H1 H2].
  { induction E' as [|c kc cs ks Hc _ [IH1 IH2]]; [done|]. split.
    - constructor; [|done]. unfold ok. rewrite Hc. eauto.
    - simpl. unfold sz at 1. rewrite Hc. simpl. by rewrite IH2. }
  by rewrite H2.
Qed.

Lemma ok_sz_pos n a fs d : ok n a fs d -> (1 <= sz n a fs d)%nat.
Proof. intros H. destruct (ok_subdirs n a fs d H) as [_ ->]. lia. Qed.

Lemma sum_sz_length n a fs ds : Forall (ok n a fs) ds -> (length ds <= sum_list_with (sz n a fs) ds)%nat.
Proof.
  induction 1 as [|d ds Hd H IH]; simpl; [done|].
  pose proof (ok_sz_pos n a fs d Hd). lia.
Qed.

Lemma sum_sz_sublist n a fs cs ds :
  sublist cs ds -> (sum_list_with (sz n a fs) cs <= sum_list_with (sz n a fs) ds)%nat.
Proof. induction 1; simpl; lia. Qed.

Lemma ok_sublist n a fs cs ds : sublist cs ds -> Forall (ok n a fs) ds -> Forall (ok n a fs) cs.
Proof.
  intros S H. apply Forall_forall. intros c Hc.
  eapply Forall_forall in H; [done|]. by eapply elem_of_sublist.
Qed.



Lemma bind_modify {B} f (k : unit -> M B) s :
  bind (modify f) k s = k tt (f s).
Proof. done. Qed.

Lemma bind_gets {A B} (f : state -> A) (k : A -> M B) s :
  bind (gets f) k s = k (f s) s.
Proof. done. Qed.

Lemma file_write_cases p b s :
  file_write p b s = (Raise OSError, s)
  \/ exists s', file_write p b s = (Ok tt, s')
       /\ dir_q s' = dir_q s /\ dir_in_q s' = dir_in_q s
       /\ rr_counter s' = rr_counter s.
Proof.
  unfold file_write. destruct (fits _ _); [right|by left]. by eexists.
Qed.

Lemma emit_dir_cases a r s :
  emit_dir a r s = (Raise OSError, s)
  \/ exists s', emit_dir a r s = (Ok tt, s') /\ dir_q s' = dir_q s.
Proof.
  unfold emit_dir.
  destruct (file_write_cases (dirs_out a) (encode r ++ [0]) s)
    as [E|(s1 & E & Q & _)].
  - left. unfold bind at 1. by rewrite E.
  - right. rewrite (bind_ok _ _ s tt s1 E).
    rewrite bind_modify, bind_gets.
    destruct (Z.land _ _ =? 0); eexists; by split.
Qed.

(** Handling an entry in phase 1 never fails when the queue has room: the
    queue gets the directory, or stays as it is. *)
Lemma dir_worker_entry_q a d de s :
  (followed a de = true -> 0 < maxq a ->
     Z.of_nat (length (items (dir_q s))) < maxq a) ->
  exists s', dir_worker_entry a d de s = (Ok tt, s')
    /\ (dir_q s' = dir_q s
        \/ followed a de = true
           /\ dir_q s' = {| items := items (dir_q s) ++ [Path (de_path d de)];
                            unfinished_tasks := unfinished_tasks (dir_q s) + 1 |}).
Proof.
  intros Hroom. unfold dir_worker_entry, followed in *.
  unfold try_except_OSError, de_is_dir.
  destruct (if follow_symlinks a then _ else _) as [[]|]; simpl;
    try (eexists; split; [done|by left]).
  unfold bind at 1. simpl. case_bool_decide as Hx; simpl in *.
  { eexists; split; [done|by left]. }
  destruct (emit_dir_cases a (relpath (root a) (de_path d de)) s)
    as [E|(s1 & E & Q)].
  - unfold bind. rewrite E. eexists; split; [done|by left].
  - rewrite (bind_ok _ _ s tt s1 E). unfold dir_q_put, q_put. rewrite Q.
    destruct (Z.ltb_spec 0 (maxq a)); simpl.
    + destruct (Z.leb_spec (maxq a) (Z.of_nat (length (items (dir_q s))))).
      { specialize (Hroom eq_refl ltac:(done)). lia. }
      eexists; split; [done|]. right. by split.
    + eexists; split; [done|]. right. by split.
Qed.

Lemma dir_entries_q a d es : forall s,
  (0 < maxq a ->
     Z.of_nat (length (items (dir_q s)) + length (subdirs_of a d es)) <= maxq a) ->
  exists s' cs, for_each es (dir_worker_entry a d) s = (Ok tt, s')
    /\ items (dir_q s') = items (dir_q s) ++ (Path <$> cs)
    /\ unfinished_tasks (dir_q s') = unfinished_tasks (dir_q s) + Z.of_nat (length cs)
    /\ sublist cs (subdirs_of a d es).
Proof.
  induction es as [|de es IH]; intros s Hroom.
  - exists s, []. simpl. rewrite app_nil_r. repeat split; [lia|done].
  - cbn [for_each subdirs_of] in *.
    destruct (dir_worker_entry_q a d de s) as (s1 & E & Hq).
    { intros Hf Hm. specialize (Hroom Hm). rewrite Hf in Hroom. simpl in Hroom. lia. }
    rewrite (bind_ok _ _ s tt s1 E).
    destruct Hq as [Hq|[Hf Hq]].
    + destruct (IH s1) as (s' & cs & E' & I1 & I2 & I3).
      { rewrite Hq. intros Hm. specialize (Hroom Hm).
        destruct (followed a de); simpl in Hroom; lia. }
      exists s', cs. rewrite Hq in *. repeat split; try done.
      destruct (followed a de); [by apply sublist_cons|done].
    + rewrite Hf in *. destruct (IH s1) as (s' & cs & E' & I1 & I2 & I3).
      { rewrite Hq. simpl. intros Hm. specialize (Hroom Hm).
        rewrite length_app. simpl in *. lia. }
      exists s', (de_path d de :: cs). rewrite Hq in *. simpl in *.
      repeat split; try done.
      * by rewrite I1, <- app_assoc.
      * lia.
      * by apply sublist_skip.
Qed.

Lemma try_except_catch {A} (m h : M A) s s' :
  m s = (Raise OSError, s') -> try_except_OSError m h s = h s'.
Proof. unfold try_except_OSError. by intros ->. Qed.

Lemma try_except_caught {A} (m : M A) x s s' :
  m s = (Raise OSError, s') -> try_except_OSError m (ret x) s = (Ok x, s').
Proof. unfold try_except_OSError. by intros ->. Qed.

Lemma try_finally_ok {A} (m : M A) f s x s1 s2 :
  m s = (Ok x, s1) -> f s1 = (Ok tt, s2) -> try_finally m f s = (Ok x, s2).
Proof. unfold try_finally, bind. by intros -> ->. Qed.

Lemma dir_worker_item_q a fs d s :
  (0 < maxq a ->
     Z.of_nat (length (items (dir_q s)) + length (subdirs a fs d)) <= maxq a) ->
  exists s' cs, dir_worker_item a fs (Path d) s = (Ok false, s')
    /\ items (dir_q s') = items (dir_q s) ++ (Path <$> cs)
    /\ unfinished_tasks (dir_q s') =
         unfinished_tasks (dir_q s) + Z.of_nat (length cs) - 1
    /\ sublist cs (subdirs a fs d).
Proof.
  intros Hroom.
  destruct (dir_entries_q a d (entries (scandir fs d)) (add_event (EvScandir d) s))
    as (s1 & cs & E & I1 & I2 & I3); [done|].
  exists (set_dir_q (q_task_done (dir_q s1)) s1), cs. simpl in *.
  split; [|by rewrite I1, I2].
  unfold dir_worker_item.
  assert (try_except_OSError (scan fs d (dir_worker_entry a d)) (ret tt) s
          = (Ok tt, s1)) as H.
  { unfold scan. destruct (it_fails (scandir fs d)).
    - apply try_except_catch. rewrite bind_modify.
      by rewrite (bind_ok _ _ _ tt s1 E).
    - apply try_except_ok. rewrite bind_modify.
      by rewrite (bind_ok _ _ _ tt s1 E). }
  erewrite bind_ok; [done|]. by eapply try_finally_ok.
Qed.

Lemma fmap_Path_app (xs ys : list str) :
  (Path <$> xs) ++ (Path <$> ys) = Path <$> (xs ++ ys).
Proof. by rewrite fmap_app. Qed.

Lemma dir_worker_S fuel a fs alive :
  dir_worker (S fuel) a fs alive =
    (q <- gets dir_q ;;
     match alive, items q with
     | O, _ => ret O
     | _, [] => ret alive
     | S alive', x :: _ =>
       modify (set_dir_q (q_pop q)) ;;;
       returned <- dir_worker_item a fs x ;;
       dir_worker fuel a fs (if returned : bool then alive' else alive)
     end).
Proof. done. Qed.

(** The pool of phase 1 empties its queue, given time and room. *)
Lemma dir_worker_drains n a fs : forall fuel s ds alive,
  (0 < alive)%nat ->
  items (dir_q s) = Path <$> ds ->
  unfinished_tasks (dir_q s) = Z.of_nat (length ds) ->
  Forall (ok n a fs) ds ->
  (sum_list_with (sz n a fs) ds < fuel)%nat ->
  (0 < maxq a -> Z.of_nat (sum_list_with (sz n a fs) ds) <= maxq a) ->
  exists s', dir_worker fuel a fs alive s = (Ok alive, s')
    /\ dir_q s' = empty_queue.
Proof.
  induction fuel as [|fuel IH]; intros s ds alive Ha Hi Hu Hok Hf Hroom; [lia|].
  rewrite dir_worker_S, bind_gets. rewrite Hi.
  destruct alive as [|alive']; [lia|].
  destruct ds as [|d rest]; simpl.
  { exists s. split; [done|]. destruct (dir_q s). simpl in *. by subst. }
  rewrite bind_modify.
  set (s1 := set_dir_q (q_pop (dir_q s)) s).
  apply Forall_cons in Hok as [Hd Hrest]. simpl in Hf, Hroom.
  destruct (ok_subdirs n a fs d Hd) as [Hsub Hsz].
  pose proof (sum_sz_length n a fs _ Hrest) as L1.
  pose proof (sum_sz_length n a fs _ Hsub) as L2.
  destruct (dir_worker_item_q a fs d s1) as (s2 & cs & E & I1 & I2 & I3).
  { intros Hm. specialize (Hroom Hm). unfold s1. simpl. rewrite Hi. simpl.
    rewrite length_fmap. lia. }
  rewrite (bind_ok _ _ s1 false s2 E).
  pose proof (sum_sz_sublist n a fs _ _ I3) as L3.
  apply (IH s2 (rest ++ cs)).
  - lia.
  - rewrite I1. unfold s1. simpl. rewrite Hi. simpl. apply fmap_Path_app.
  - rewrite I2. unfold s1. simpl. rewrite Hu, length_app. simpl. lia.
  - apply Forall_app. split; [done|]. by eapply ok_sublist.
  - rewrite sum_list_with_app. lia.
  - intros Hm. specialize (Hroom Hm). rewrite sum_list_with_app. lia.
Qed.

Lemma dir_q_put_empty a x s :
  dir_q s = empty_queue ->
  dir_q_put a x s =
    (Ok tt, set_dir_q {| items := [x]; unfinished_tasks := 1 |} s).
Proof.
  intros E. unfold dir_q_put, q_put. rewrite E. simpl.
  change (Z.of_nat 0) with 0.
  destruct (Z.ltb_spec 0 (maxq a)), (Z.leb_spec (maxq a) 0); simpl; try done; lia.
Qed.

Lemma stop_dir_workers_ok a fs : forall n alive s,
  (n <= alive)%nat -> dir_q s = empty_queue ->
  exists s', stop_dir_workers n a fs alive s = (Ok (alive - n)%nat, s')
    /\ dir_q s' = empty_queue.
Proof.
  induction n as [|n IH]; intros alive s Hn Hq; cbn [stop_dir_workers].
  { exists s. by rewrite Nat.sub_0_r. }
  rewrite (bind_ok _ _ s tt _ (dir_q_put_empty a stop s Hq)).
  destruct alive as [|al]; [lia|].
  set (s1 := set_dir_q _ s).
  set (s2 := set_dir_q (q_task_done (dir_q (set_dir_q (q_pop (dir_q s1)) s1)))
               (set_dir_q (q_pop (dir_q s1)) s1)).
  assert (dir_worker 2 a fs (S al) s1 = (Ok al, s2)) as E.
  { rewrite dir_worker_S, bind_gets. simpl. by destruct al. }
  rewrite (bind_ok _ _ s1 al s2 E).
  destruct (IH al s2) as (s' & E' & Hq'); [lia|done|].
  exists s'. split; [|done]. rewrite E'. do 2 f_equal.
Qed.

Lemma emit_dir_ok a r s :
  fits (Z.of_nat (length (encode r ++ [0]))) (disk_free s) = true ->
  exists s', emit_dir a r s = (Ok tt, s') /\ dir_q s' = dir_q s.
Proof.
  intros Hfit. destruct (emit_dir_cases a r s) as [E|H]; [|done].
  exfalso. unfold emit_dir, bind, file_write in E. rewrite Hfit in E. simpl in E.
  by destruct (Z.land _ _ =? 0).
Qed.

Lemma pool_size_pos w : (0 < pool_size w)%nat.
Proof. unfold pool_size. lia. Qed.

Lemma phase1_completes n k a fs fuel s :
  dirs_out a <> [] -> fits 2 (disk_free s) = true ->
  tree_size n a fs (root a) = Some k -> (k < fuel)%nat -> room_for a k ->
  exists s1, phase1 fuel a fs s = (Ok tt, s1).
Proof.
  intros Hd Hfit Hk Hfuel Hroom. unfold phase1.
  rewrite !bind_modify. unfold open_append.
  rewrite bool_decide_eq_false_2 by done. rewrite bind_modify.
  set (s1 := add_event _ _).
  destruct (emit_dir_ok a (lit ".") s1) as (s2 & E2 & Q2); [done|].
  rewrite (bind_ok _ _ s1 tt s2 E2).
  rewrite (bind_ok _ _ s2 tt _ (dir_q_put_empty a (Path (root a)) s2 Q2)).
  rewrite bind_modify.
  set (s3 := add_event _ _).
  destruct (dir_worker_drains n a fs fuel s3 [root a] (pool_size (workers1 a)))
    as (s4 & E4 & Q4); try done.
  - apply pool_size_pos.
  - apply Forall_singleton. unfold ok. rewrite Hk. eauto.
  - simpl. unfold sz. rewrite Hk. simpl. lia.
  - simpl. unfold sz. rewrite Hk. simpl. destruct Hroom; lia.
  - rewrite (bind_ok _ _ s3 _ s4 E4).
    unfold q_join at 1. unfold bind at 1. rewrite Q4. simpl.
    rewrite bind_modify.
    set (s5 := add_event _ s4).
    destruct (stop_dir_workers_ok a fs (pool_size (workers1 a))
                (pool_size (workers1 a)) s5) as (s6 & E6 & Q6); [lia|done|].
    rewrite (bind_ok _ _ s5 _ s6 E6). rewrite Nat.sub_diag. simpl.
    eexists. reflexivity.
Qed.

(** ** Phase 2 runs to completion *)

Lemma choose_out_ok blake2b a outs full dir_rel s :
  outs <> [] ->
  exists idx s', choose_out blake2b a outs full dir_rel s = (Ok idx, s')
    /\ 0 <= idx < Z.of_nat (length outs)
    /\ dir_in_q s' = dir_in_q s.
Proof.
  intros Ho. unfold choose_out.
  assert (0 < Z.of_nat (length outs)) by (destruct outs; simpl; [done|lia]).
  destruct (Z.eqb_spec (Z.of_nat (length outs)) 1) as [E|_].
  { exists 0, s. split; [done|]. split; [lia|done]. }
  destruct (Z.eqb_spec (Z.of_nat (length outs)) 0); [lia|].
  destruct (mode a).
  - rewrite bind_gets, bind_modify. eexists _, _. split; [done|].
    split; [|done]. apply Z.mod_pos_bound. lia.
  - eexists _, _. split; [done|]. split; [|done]. apply Z.mod_pos_bound. lia.
  - eexists _, _. split; [done|]. split; [|done]. apply Z.mod_pos_bound. lia.
Qed.

Lemma flush_all_ok outs : forall s,
  exists s', for_each outs file_flush s = (Ok tt, s')
    /\ dir_in_q s' = dir_in_q s.
Proof.
  induction outs as [|o outs IH]; intros s; [by exists s|].
  cbn [for_each]. unfold file_flush at 1. rewrite bind_modify.
  destruct (IH (add_event (EvFlush o) s)) as (s' & -> & Q). by exists s'.
Qed.

Lemma file_worker_entry_ok blake2b a outs dir_rel de s :
  outs <> [] ->
  exists s', file_worker_entry blake2b a outs dir_rel de s = (Ok tt, s')
    /\ dir_in_q s' = dir_in_q s.
Proof.
  intros Ho. unfold file_worker_entry, de_is_file.
  destruct (is_file_nofollow de) as [[]|].
  - destruct (choose_out_ok blake2b a outs (rel_file_of dir_rel de) dir_rel s Ho)
      as (idx & s1 & E1 & Hi & Q1).
    destruct (lookup_lt_is_Some_2 outs (Z.to_nat idx)) as [o Hidx]; [lia|].
    destruct (file_write_cases o (encode (rel_file_of dir_rel de) ++ [0]) s1)
      as [E2|(s2 & E2 & _ & Q2 & _)].
    + exists s1. split; [|done]. apply try_except_caught.
      rewrite (bind_ok _ _ s true s eq_refl).
      rewrite (bind_ok _ _ s idx s1 E1). rewrite Hidx.
      unfold bind at 1. by rewrite E2.
    + destruct (flush_all_ok outs (set_files_emitted (files_emitted s2 + 1) s2))
        as (s3 & E3 & Q3).
      exists (if Z.land (files_emitted s2 + 1) 0xFFFFF =? 0 then s3
              else set_files_emitted (files_emitted s2 + 1) s2).
      split; [|by destruct (_ =? 0); rewrite ?Q3; simpl; congruence].
      apply try_except_ok.
      rewrite (bind_ok _ _ s true s eq_refl).
      rewrite (bind_ok _ _ s idx s1 E1). rewrite Hidx.
      rewrite (bind_ok _ _ s1 tt s2 E2).
      rewrite bind_modify, bind_gets. simpl.
      by destruct (_ =? 0).
  - exists s. split; [|done]. by apply try_except_ok.
  - exists s. split; [|done]. by apply try_except_caught.
Qed.

Lemma file_entries_ok blake2b a outs dir_rel es : forall s,
  outs <> [] ->
  exists s', for_each es (file_worker_entry blake2b a outs dir_rel) s = (Ok tt, s')
    /\ dir_in_q s' = dir_in_q s.
Proof.
  induction es as [|de es IH]; intros s Ho; [by exists s|].
  cbn [for_each].
  destruct (file_worker_entry_ok blake2b a outs dir_rel de s Ho) as (s1 & E1 & Q1).
  rewrite (bind_ok _ _ s tt s1 E1).
  destruct (IH s1 Ho) as (s2 & E2 & Q2). exists s2. split; [done|congruence].
Qed.

Lemma file_worker_item_ok blake2b a fs outs d s :
  outs <> [] ->
  exists s', file_worker_item blake2b a fs outs (Path d) s = (Ok false, s')
    /\ dir_in_q s' = q_task_done (dir_in_q s).
Proof.
  intros Ho.
  destruct (file_entries_ok blake2b a outs d
              (entries (scandir fs (dir_abs_of a d)))
              (add_event (EvScandir (dir_abs_of a d)) s) Ho) as (s1 & E & Q).
  exists (set_dir_in_q (q_task_done (dir_in_q s1)) s1). simpl in *.
  split; [|by rewrite Q].
  unfold file_worker_item.
  assert (try_except_OSError
            (scan fs (dir_abs_of a d) (file_worker_entry blake2b a outs d))
            (ret tt) s = (Ok tt, s1)) as H.
  { unfold scan. destruct (it_fails (scandir fs (dir_abs_of a d))).
    - apply try_except_caught. rewrite bind_modify.
      by rewrite (bind_ok _ _ _ tt s1 E).
    - apply try_except_ok. rewrite bind_modify.
      by rewrite (bind_ok _ _ _ tt s1 E). }
  erewrite bind_ok; [done|]. by eapply try_finally_ok.
Qed.

Lemma file_worker_S blake2b fuel a fs outs alive :
  file_worker blake2b (S fuel) a fs outs alive =
    (q <- gets dir_in_q ;;
     match alive, items q with
     | O, _ => ret O
     | _, [] => ret alive
     | S alive', x :: _ =>
       modify (set_dir_in_q (q_pop q)) ;;;
       returned <- file_worker_item blake2b a fs outs x ;;
       file_worker blake2b fuel a fs outs (if returned : bool then alive' else alive)
     end).
Proof. done. Qed.

Lemma dir_in_q_put_empty a x s :
  dir_in_q s = empty_queue ->
  dir_in_q_put a x s =
    (Ok tt, set_dir_in_q {| items := [x]; unfinished_tasks := 1 |} s).
Proof.
  intros E. unfold dir_in_q_put, q_put. rewrite E. simpl.
  change (Z.of_nat 0) with 0.
  destruct (Z.ltb_spec 0 (maxq a)), (Z.leb_spec (maxq a) 0); simpl; try done; lia.
Qed.





Lemma os_path_join_nonempty x y : y <> [] -> os_path_join x y <> [].
Proof.
  intros Hy. unfold os_path_join. repeat case_match; try done.
  - by destruct x.
  - by destruct x.
Qed.

Lemma shard_name_nonempty i : shard_name i <> [].
Proof. done. Qed.

Lemma open_all_ok ps : forall s,
  Forall (fun p => p <> []) ps ->
  exists s', for_each ps open_append s = (Ok tt, s').
Proof.
  induction ps as [|p ps IH]; intros s H; [by exists s|].
  apply Forall_cons in H as [Hp H]. cbn [for_each]. unfold open_append at 1.
  rewrite bool_decide_eq_false_2 by done. rewrite bind_modify. by apply IH.
Qed.

Lemma falsy_false o : falsy o = false -> exists p, o = Some p /\ p <> [].
Proof.
  destruct o as [p|]; [|done]. simpl. intros H%bool_decide_eq_false. eauto.
Qed.

Lemma open_outputs_ok a fs s :
  config_ok a fs ->
  outs_of a <> []
  /\ exists s', open_outputs (out_manifest a) (outdir a) (shards a) s
                = (Ok (outs_of a), s').
Proof.
  intros (_ & _ & H1 & H2). unfold open_outputs, outs_of.
  destruct (Z.ltb_spec 0 (shards a)).
  - destruct (falsy_false _ (H2 ltac:(lia))) as (od & -> & Hod).
    split.
    + unfold range. destruct (Z.to_nat (shards a)) eqn:E; [lia|done].
    + destruct (open_all_ok
        ((fun i => os_path_join od (shard_name i)) <$> range (shards a)) s)
        as (s' & E).
      { apply Forall_fmap, Forall_forall. intros i _. simpl.
        apply os_path_join_nonempty, shard_name_nonempty. }
      exists s'. by rewrite (bind_ok _ _ s tt s' E).
  - destruct (falsy_false _ (H1 ltac:(lia))) as (om & -> & Hom).
    split; [done|]. unfold open_append.
    rewrite bool_decide_eq_false_2 by done. rewrite bind_modify. eauto.
Qed.


Lemma holds_result {A} I (m : M A) Q s r s' :
  holds I m Q -> I s -> m s = (r, s') -> I s'.
Proof. intros H Hs E. destruct (H s Hs) as [H' _]. by rewrite E in H'. Qed.



(** ** Errors of the file system *)

Lemma try_except_bind_ret {A B} (k : A -> M B) h s x :
  try_except_OSError (bind (ret x) k) h s = try_except_OSError (k x) h s.
Proof. done. Qed.



Lemma scan_fails_ignored fs d body s :
  try_except_OSError (scan fs d body) (ret tt) s =
  try_except_OSError
    (modify (add_event (EvScandir d)) ;;; for_each (entries (scandir fs d)) body)
    (ret tt) s.
Proof.
  unfold scan, try_except_OSError. rewrite !bind_modify. unfold bind.
  destruct (for_each _ _ _) as [[[]|e| |] s1]; try done.
  by destruct (it_fails _).
Qed.

Lemma dir_worker_entry_res a d de s :
  fst (dir_worker_entry a d de s) = Ok tt
  \/ fst (dir_worker_entry a d de s) = Blocked.
Proof.
  unfold dir_worker_entry, de_is_dir.
  destruct (if follow_symlinks a then _ else _) as [[]|].
  - rewrite (try_except_bind_ret _ _ _ true). case_bool_decide; [by left|].
    destruct (emit_dir_cases a (relpath (root a) (de_path d de)) s)
      as [E|(s1 & E & Q)].
    + left. erewrite try_except_caught; [done|]. unfold bind. by rewrite E.
    + unfold try_except_OSError. rewrite (bind_ok _ _ s tt s1 E).
      unfold dir_q_put. destruct (q_put _ _ _); [by left|by right].
  - left. by rewrite (try_except_bind_ret _ _ _ false).
  - left. by erewrite try_except_caught.
Qed.

Lemma dir_entries_res a d es : forall s,
  fst (for_each es (dir_worker_entry a d) s) = Ok tt
  \/ fst (for_each es (dir_worker_entry a d) s) = Blocked.
Proof.
  induction es as [|de es IH]; intros s; [by left|].
  cbn [for_each]. unfold bind.
  destruct (dir_worker_entry_res a d de s) as [E|E];
    destruct (dir_worker_entry a d de s) as [r s1]; simpl in E; subst r.
  - apply IH.
  - by right.
Qed.

Lemma dir_worker_item_res a fs x s :
  is_raise (fst (dir_worker_item a fs x s)) = false.
Proof.
  destruct x as [d|]; [|done]. unfold dir_worker_item.
  assert (exists s1,
    try_except_OSError (scan fs d (dir_worker_entry a d)) (ret tt) s = (Ok tt, s1)
    \/ try_except_OSError (scan fs d (dir_worker_entry a d)) (ret tt) s
       = (Blocked, s1)) as (s1 & H).
  { rewrite scan_fails_ignored. unfold try_except_OSError. rewrite bind_modify.
    destruct (dir_entries_res a d (entries (scandir fs d))
                (add_event (EvScandir d) s)) as [E|E];
      destruct (for_each _ _ _) as [r s1]; simpl in E; subst r; eauto. }
  unfold bind, try_finally. by destruct H as [-> | ->].
Qed.

Lemma file_worker_item_res blake2b a fs outs x s :
  outs <> [] -> is_raise (fst (file_worker_item blake2b a fs outs x s)) = false.
Proof.
  intros Ho. destruct x as [d|]; [|done].
  by destruct (file_worker_item_ok blake2b a fs outs d s Ho) as (s' & -> & _).
Qed.










(** ** Errors of the output files *)








(** ** Phase 1 does not look at the files *)

Lemma forget_eq s s' :
  forget s = forget s' <->
  disk_free s = disk_free s' /\ dirs_emitted s = dirs_emitted s'
  /\ dir_q s = dir_q s' /\ rr_counter s = rr_counter s'
  /\ files_emitted s = files_emitted s' /\ dir_in_q s = dir_in_q s'
  /\ log s = log s'.
Proof.
  destruct s, s'. unfold forget, set_files. simpl. split.
  - intros H. by injection H as -> -> -> -> -> -> ->.
  - by intros (-> & -> & -> & -> & -> & -> & ->).
Qed.

Lemma blind_ret {A} (x : A) : blind (ret x).
Proof. by intros s s' H. Qed.

Lemma blind_raise {A} e : blind (@raise A e).
Proof. by intros s s' H. Qed.

Lemma blind_block {A} : blind (@block A).
Proof. by intros s s' H. Qed.

Lemma blind_out_of_fuel {A} : blind (@out_of_fuel A).
Proof. by intros s s' H. Qed.

Lemma blind_bind {A B} (m : M A) (k : A -> M B) :
  blind m -> (forall x, blind (k x)) -> blind (bind m k).
Proof.
  intros Hm Hk s s' H. unfold bind. destruct (Hm s s' H) as [E1 E2].
  destruct (m s) as [r s1], (m s') as [r' s1']. simpl in *. subst r'.
  destruct r; try done. by apply Hk.
Qed.

Lemma blind_try_except {A} (m h : M A) :
  blind m -> blind h -> blind (try_except_OSError m h).
Proof.
  intros Hm Hh s s' H. unfold try_except_OSError.
  destruct (Hm s s' H) as [E1 E2].
  destruct (m s) as [r s1], (m s') as [r' s1']. simpl in *. subst r'.
  destruct r as [x|e| |]; try done. destruct e; try done. by apply Hh.
Qed.

Lemma blind_try_finally {A} (m : M A) f :
  blind m -> blind f -> blind (try_finally m f).
Proof.
  intros Hm Hf s s' H. unfold try_finally.
  destruct (Hm s s' H) as [E1 E2].
  destruct (m s) as [r s1], (m s') as [r' s1']. simpl in *. subst r'.
  destruct r as [x|e| |]; try done.
  - apply blind_bind; [done| |done]. intros _. apply blind_ret.
  - apply blind_bind; [done| |done]. intros _. apply blind_raise.
Qed.

Lemma blind_for_each {A} (l : list A) body :
  (forall x, blind (body x)) -> blind (for_each l body).
Proof.
  intros H. induction l as [|x l IH]; [apply blind_ret|].
  cbn [for_each]. apply blind_bind; [done|]. by intros _.
Qed.

Lemma blind_gets {A} (f : state -> A) :
  (forall s, f s = f (forget s)) -> blind (gets f).
Proof.
  intros Hf s s' H. unfold gets. simpl. split; [|done].
  by rewrite (Hf s), (Hf s'), H.
Qed.

Lemma blind_modify f :
  (forall s, forget (f s) = forget (f (forget s))) -> blind (modify f).
Proof.
  intros Hf s s' H. unfold modify. simpl. split; [done|].
  by rewrite (Hf s), (Hf s'), H.
Qed.

Lemma blind_open_append p : blind (open_append p).
Proof.
  unfold open_append. case_bool_decide; [apply blind_raise|].
  intros s s' E. split; [done|]. simpl.
  apply forget_eq in E as (H1 & H2 & H3 & H4 & H5 & H6 & H7).
  apply forget_eq. simpl. repeat split; congruence.
Qed.

Lemma blind_file_write p b : blind (file_write p b).
Proof.
  intros s s' H. unfold file_write.
  pose proof H as (D & H2 & H3 & H4 & H5 & H6 & H7)%forget_eq. rewrite <- D.
  destruct (fits _ _); simpl; [|done]. split; [done|].
  apply forget_eq. simpl. repeat split; congruence.
Qed.

Lemma blind_dir_q_put a x : blind (dir_q_put a x).
Proof.
  intros s s' H. unfold dir_q_put.
  pose proof H as (H1 & H2 & Q & H4 & H5 & H6 & H7)%forget_eq. rewrite <- Q.
  destruct (q_put _ _ _); simpl; [|done]. split; [done|].
  apply forget_eq. simpl. repeat split; congruence.
Qed.

Lemma blind_q_join_dir_q : blind (q_join dir_q).
Proof.
  intros s s' H. unfold q_join.
  pose proof H as (H1 & H2 & Q & H4 & H5 & H6 & H7)%forget_eq. rewrite <- Q.
  by destruct (_ =? _).
Qed.

Lemma blind_emit_dir a r : blind (emit_dir a r).
Proof.
  unfold emit_dir. apply blind_bind; [apply blind_file_write|]. intros _.
  apply blind_bind; [by apply blind_modify|]. intros _.
  apply blind_bind; [by apply blind_gets|]. intros n.
  destruct (Z.eqb _ _); [by apply blind_modify|apply blind_ret].
Qed.

Lemma blind_dir_worker_entry a d de : blind (dir_worker_entry a d de).
Proof.
  unfold dir_worker_entry. apply blind_try_except; [|apply blind_ret].
  apply blind_bind.
  - unfold de_is_dir.
    destruct (follow_symlinks a);
      [destruct (is_dir_follow de)|destruct (is_dir_nofollow de)];
      first [apply blind_ret|apply blind_raise].
  - intros []; [|apply blind_ret]. case_bool_decide; [apply blind_ret|].
    apply blind_bind; [apply blind_emit_dir|]. intros _. apply blind_dir_q_put.
Qed.

Lemma blind_scan fs d body : (forall de, blind (body de)) -> blind (scan fs d body).
Proof.
  intros H. unfold scan. apply blind_bind; [by apply blind_modify|]. intros _.
  apply blind_bind; [by apply blind_for_each|]. intros _.
  destruct (it_fails _); [apply blind_raise|apply blind_ret].
Qed.

Lemma blind_dir_worker_item a fs x : blind (dir_worker_item a fs x).
Proof.
  destruct x as [d|]; simpl.
  - apply blind_bind; [|intros _; apply blind_ret].
    apply blind_try_finally; [|by apply blind_modify].
    apply blind_try_except; [|apply blind_ret].
    apply blind_scan. intros de. apply blind_dir_worker_entry.
  - apply blind_bind; [by apply blind_modify|]. intros _. apply blind_ret.
Qed.

Lemma blind_dir_worker a fs fuel : forall alive, blind (dir_worker fuel a fs alive).
Proof.
  induction fuel as [|fuel IH]; intros alive; [apply blind_out_of_fuel|].
  rewrite dir_worker_S. apply blind_bind; [by apply blind_gets|]. intros q.
  destruct alive as [|al]; [apply blind_ret|].
  destruct (items q) as [|x xs]; [apply blind_ret|].
  apply blind_bind; [by apply blind_modify|]. intros _.
  apply blind_bind; [apply blind_dir_worker_item|]. intros r. apply IH.
Qed.

Lemma blind_stop_dir_workers a fs n : forall alive,
  blind (stop_dir_workers n a fs alive).
Proof.
  induction n as [|n IH]; intros alive; cbn [stop_dir_workers];
    [apply blind_ret|].
  apply blind_bind; [apply blind_dir_q_put|]. intros _.
  apply blind_bind; [apply blind_dir_worker|]. intros al. apply IH.
Qed.

Lemma blind_phase1 fuel a fs : blind (phase1 fuel a fs).
Proof.
  unfold phase1.
  apply blind_bind; [by apply blind_modify|]. intros _.
  apply blind_bind; [by apply blind_modify|]. intros _.
  apply blind_bind; [apply blind_open_append|]. intros _.
  apply blind_bind; [apply blind_emit_dir|]. intros _.
  apply blind_bind; [apply blind_dir_q_put|]. intros _.
  apply blind_bind; [by apply blind_modify|]. intros _.
  apply blind_bind; [apply blind_dir_worker|]. intros al.
  apply blind_bind; [apply blind_q_join_dir_q|]. intros _.
  apply blind_bind; [by apply blind_modify|]. intros _.
  apply blind_bind; [apply blind_stop_dir_workers|]. intros al'.
  apply blind_bind.
  { unfold join_threads. destruct al'; [apply blind_ret|apply blind_block]. }
  intros _.
  apply blind_bind; [by apply blind_modify|]. intros _.
  apply blind_bind; [by apply blind_modify|]. intros _. by apply blind_modify.
Qed.


(** ** What phase 2 writes under the modes [bydir] and [hash] *)

Lemma choose_out_static blake2b a outs full dir_rel s :
  outs <> [] -> mode a <> roundrobin ->
  choose_out blake2b a outs full dir_rel s
    = (Ok (static_index blake2b a outs full dir_rel), s).
Proof.
  intros Ho Hm. unfold static_index.
  destruct (Z.eqb_spec (Z.of_nat (length outs)) 1) as [E|E].
  - unfold choose_out. by rewrite E.
  - apply choose_out_hash; [|done]. destruct outs as [|? [|? ?]]; simpl in *; try done; lia.
Qed.

Lemma static_index_bound blake2b a outs full dir_rel :
  outs <> [] -> 0 <= static_index blake2b a outs full dir_rel < Z.of_nat (length outs).
Proof.
  intros Ho. unfold static_index, hashed_index.
  assert (0 < Z.of_nat (length outs)) by (destruct outs; simpl; [done|lia]).
  destruct (Z.eqb_spec (Z.of_nat (length outs)) 1); [lia|].
  apply Z.mod_pos_bound. lia.
Qed.

Lemma flush_all_log outs : forall s,
  exists s', for_each outs file_flush s = (Ok tt, s')
    /\ dir_in_q s' = dir_in_q s /\ disk_free s' = disk_free s
    /\ forall p, payloads p (log s') = payloads p (log s).
Proof.
  induction outs as [|o outs IH]; intros s; [by exists s|].
  cbn [for_each]. unfold file_flush at 1. rewrite bind_modify.
  destruct (IH (add_event (EvFlush o) s)) as (s' & -> & Q & D & L).
  exists s'. repeat split; try done. intros p. rewrite L. simpl.
  by apply payloads_not_write.
Qed.

Lemma file_worker_entry_writes blake2b a outs dir_rel de s :
  outs <> [] -> mode a <> roundrobin -> disk_free s = None ->
  exists s', file_worker_entry blake2b a outs dir_rel de s = (Ok tt, s')
    /\ dir_in_q s' = dir_in_q s /\ disk_free s' = None
    /\ forall p, payloads p (log s') =
         payloads p (log s) ++ write_all (entry_files blake2b a outs p dir_rel de).
Proof.
  intros Ho Hm Hd. unfold file_worker_entry, de_is_file, entry_files.
  destruct (is_file_nofollow de) as [[]|].
  - rewrite (try_except_bind_ret _ _ _ true).
    set (f := rel_file_of dir_rel de).
    set (idx := static_index blake2b a outs f dir_rel).
    destruct (lookup_lt_is_Some_2 outs (Z.to_nat idx)) as [o Hidx].
    { pose proof (static_index_bound blake2b a outs f dir_rel Ho). lia. }
    set (s2 := add_event (EvWrite o (encode f ++ [0]))
                 (set_files (<[o := content o s ++ (encode f ++ [0])]> (files s))
                    None s)).
    destruct (flush_all_log outs (set_files_emitted (files_emitted s2 + 1) s2))
      as (s3 & E3 & Q3 & D3 & L3).
    exists (if Z.land (files_emitted s2 + 1) 0xFFFFF =? 0 then s3
            else set_files_emitted (files_emitted s2 + 1) s2).
    split; [|split; [|split]].
    + apply try_except_ok.
      rewrite (bind_ok _ _ s idx s (choose_out_static blake2b a outs f dir_rel s Ho Hm)).
      fold idx. rewrite Hidx.
      assert (file_write o (encode f ++ [0]) s = (Ok tt, s2)) as E2.
      { unfold file_write. by rewrite Hd. }
      rewrite (bind_ok _ _ s tt s2 E2).
      rewrite bind_modify, bind_gets. simpl.
      by destruct (Z.land _ _ =? 0).
    + by destruct (Z.land _ _ =? 0); rewrite ?Q3.
    + by destruct (Z.land _ _ =? 0); rewrite ?D3.
    + intros p.
      assert (payloads p (log s2) = payloads p (log s) ++
                (if bool_decide (o = p) then encode f ++ [0] else [])) as L2.
      { simpl. by rewrite payloads_snoc. }
      assert (write_all (if bool_decide (outs !! Z.to_nat idx = Some p)
                         then [f] else [])
              = if bool_decide (o = p) then encode f ++ [0] else []) as ->.
      { rewrite Hidx. repeat case_bool_decide; simplify_eq; try done.
        unfold write_all, enc_record. simpl. by rewrite app_nil_r. }
      rewrite <- L2. by destruct (Z.land _ _ =? 0); rewrite ?L3.
  - exists s. rewrite (try_except_bind_ret _ _ _ false).
    repeat split; try done. intros p. by rewrite app_nil_r.
  - exists s. split; [by apply try_except_caught|].
    repeat split; try done. intros p. by rewrite app_nil_r.
Qed.

Lemma file_entries_writes blake2b a outs dir_rel es : forall s,
  outs <> [] -> mode a <> roundrobin -> disk_free s = None ->
  exists s', for_each es (file_worker_entry blake2b a outs dir_rel) s = (Ok tt, s')
    /\ dir_in_q s' = dir_in_q s /\ disk_free s' = None
    /\ forall p, payloads p (log s') =
         payloads p (log s)
         ++ write_all (flat_map (entry_files blake2b a outs p dir_rel) es).
Proof.
  induction es as [|de es IH]; intros s Ho Hm Hd.
  { exists s. repeat split; try done. intros p. by rewrite app_nil_r. }
  cbn [for_each].
  destruct (file_worker_entry_writes blake2b a outs dir_rel de s Ho Hm Hd)
    as (s1 & E1 & Q1 & D1 & L1).
  rewrite (bind_ok _ _ s tt s1 E1).
  destruct (IH s1 Ho Hm D1) as (s2 & E2 & Q2 & D2 & L2).
  exists s2. split; [done|]. split; [congruence|]. split; [done|].
  intros p. rewrite L2, L1. simpl. by rewrite write_all_app, app_assoc.
Qed.

Lemma file_worker_item_writes blake2b a fs outs d s :
  outs <> [] -> mode a <> roundrobin -> disk_free s = None ->
  exists s', file_worker_item blake2b a fs outs (Path d) s = (Ok false, s')
    /\ dir_in_q s' = q_task_done (dir_in_q s) /\ disk_free s' = None
    /\ forall p, payloads p (log s') =
         payloads p (log s) ++ write_all (item_files blake2b a fs outs p d).
Proof.
  intros Ho Hm Hd.
  destruct (file_entries_writes blake2b a outs d
              (entries (scandir fs (dir_abs_of a d)))
              (add_event (EvScandir (dir_abs_of a d)) s) Ho Hm Hd)
    as (s1 & E & Q & D & L).
  exists (set_dir_in_q (q_task_done (dir_in_q s1)) s1). simpl in *.
  split; [|split; [by rewrite Q|split; [done|]]].
  - unfold file_worker_item.
    assert (try_except_OSError
              (scan fs (dir_abs_of a d) (file_worker_entry blake2b a outs d))
              (ret tt) s = (Ok tt, s1)) as H.
    { rewrite scan_fails_ignored. apply try_except_ok. by rewrite bind_modify. }
    erewrite bind_ok; [done|]. by eapply try_finally_ok.
  - intros p. rewrite L. by rewrite payloads_not_write.
Qed.

Lemma hand_over_writes blake2b a fs outs alive d s :
  outs <> [] -> mode a <> roundrobin -> (0 < alive)%nat ->
  dir_in_q s = empty_queue -> disk_free s = None ->
  exists s', hand_over blake2b a fs outs alive (Path d) s = (Ok alive, s')
    /\ dir_in_q s' = empty_queue /\ disk_free s' = None
    /\ forall p, payloads p (log s') =
         payloads p (log s) ++ write_all (item_files blake2b a fs outs p d).
Proof.
  intros Ho Hm Ha Hq Hd. unfold hand_over.
  rewrite (bind_ok _ _ s tt _ (dir_in_q_put_empty a (Path d) s Hq)).
  set (s1 := set_dir_in_q _ s).
  destruct alive as [|al]; [lia|].
  rewrite file_worker_S, bind_gets. simpl. rewrite bind_modify.
  set (s2 := set_dir_in_q _ s1).
  destruct (file_worker_item_writes blake2b a fs outs d s2 Ho Hm Hd)
    as (s3 & E3 & Q3 & D3 & L3).
  rewrite (bind_ok _ _ s2 false s3 E3).
  rewrite bind_gets, Q3. simpl.
  exists s3. split; [done|]. split; [by rewrite Q3|]. done.
Qed.

Lemma put_each_writes blake2b a fs outs alive rs : forall s,
  outs <> [] -> mode a <> roundrobin -> (0 < alive)%nat ->
  dir_in_q s = empty_queue -> disk_free s = None ->
  exists s',
    for_each rs (fun dir_rel =>
      hand_over blake2b a fs outs alive (Path dir_rel) ;;; ret tt) s = (Ok tt, s')
    /\ dir_in_q s' = empty_queue
    /\ forall p, payloads p (log s') =
         payloads p (log s)
         ++ write_all (flat_map (item_files blake2b a fs outs p) rs).
Proof.
  induction rs as [|r rs IH]; intros s Ho Hm Ha Hq Hd.
  { exists s. repeat split; try done. intros p. by rewrite app_nil_r. }
  cbn [for_each].
  destruct (hand_over_writes blake2b a fs outs alive r s Ho Hm Ha Hq Hd)
    as (s1 & E1 & Q1 & D1 & L1).
  rewrite bind_assoc. rewrite (bind_ok _ _ s alive s1 E1). simpl.
  destruct (IH s1 Ho Hm Ha Q1 D1) as (s2 & E2 & Q2 & L2).
  exists s2. split; [done|]. split; [done|].
  intros p. rewrite L2, L1. simpl. by rewrite write_all_app, app_assoc.
Qed.

Lemma hand_over_stop_log blake2b a fs outs al s :
  dir_in_q s = empty_queue ->
  exists s', hand_over blake2b a fs outs (S al) stop s = (Ok al, s')
    /\ dir_in_q s' = empty_queue /\ log s' = log s.
Proof.
  intros Hq. unfold hand_over.
  rewrite (bind_ok _ _ s tt _ (dir_in_q_put_empty a stop s Hq)).
  set (s1 := set_dir_in_q _ s).
  rewrite file_worker_S, bind_gets. simpl. rewrite !bind_modify.
  eexists. split; [by destruct al|done].
Qed.

Lemma stop_file_workers_log blake2b a fs outs : forall n alive s,
  (n <= alive)%nat -> dir_in_q s = empty_queue ->
  exists s', stop_file_workers blake2b n a fs outs alive s = (Ok (alive - n)%nat, s')
    /\ log s' = log s.
Proof.
  induction n as [|n IH]; intros alive s Hn Hq; cbn [stop_file_workers].
  { exists s. by rewrite Nat.sub_0_r. }
  destruct alive as [|al]; [lia|].
  destruct (hand_over_stop_log blake2b a fs outs al s Hq) as (s1 & E1 & Q1 & L1).
  rewrite (bind_ok _ _ s al s1 E1).
  destruct (IH al s1) as (s' & E' & L'); [lia|done|].
  exists s'. split; [by rewrite E'|congruence].
Qed.

Lemma close_all_log outs : forall s,
  exists s', for_each outs (fun o => file_flush o ;;; file_close o) s = (Ok tt, s')
    /\ forall p, payloads p (log s') = payloads p (log s).
Proof.
  induction outs as [|o outs IH]; intros s; [by exists s|].
  cbn [for_each]. unfold file_flush at 1, file_close at 1.
  rewrite bind_assoc, !bind_modify.
  destruct (IH (add_event (EvClose o) (add_event (EvFlush o) s))) as (s' & E & L).
  exists s'. split; [done|]. intros p. rewrite L. simpl.
  by rewrite !payloads_not_write.
Qed.

Lemma open_all_log ps : forall s,
  Forall (fun p => p <> []) ps ->
  exists s', for_each ps open_append s = (Ok tt, s')
    /\ disk_free s' = disk_free s
    /\ (forall p, content p s' = content p s)
    /\ forall p, payloads p (log s') = payloads p (log s).
Proof.
  induction ps as [|q ps IH]; intros s H; [by exists s|].
  apply Forall_cons in H as [Hq H]. cbn [for_each]. unfold open_append at 1.
  rewrite bool_decide_eq_false_2 by done. rewrite bind_modify.
  destruct (IH (add_event (EvOpenAppend q)
                  (set_files (<[q := content q s]> (files s)) (disk_free s) s)) H)
    as (s' & E & D & C & L).
  exists s'. split; [done|]. split; [done|]. split.
  - intros p. rewrite C, content_add_event, content_insert.
    by case_bool_decide; subst.
  - intros p. rewrite L. simpl. by rewrite payloads_not_write.
Qed.

Lemma open_outputs_log a fs s :
  config_ok a fs ->
  exists s', open_outputs (out_manifest a) (outdir a) (shards a) s
               = (Ok (outs_of a), s')
    /\ disk_free s' = disk_free s
    /\ (forall p, content p s' = content p s)
    /\ forall p, payloads p (log s') = payloads p (log s).
Proof.
  intros (_ & _ & H1 & H2). unfold open_outputs, outs_of.
  destruct (Z.ltb_spec 0 (shards a)).
  - destruct (falsy_false _ (H2 ltac:(lia))) as (od & -> & Hod).
    destruct (open_all_log
      ((fun i => os_path_join od (shard_name i)) <$> range (shards a)) s)
      as (s' & E & R).
    { apply Forall_fmap, Forall_forall. intros i _. simpl.
      apply os_path_join_nonempty, shard_name_nonempty. }
    exists s'. by rewrite (bind_ok _ _ s tt s' E).
  - destruct (falsy_false _ (H1 ltac:(lia))) as (om & -> & Hom).
    destruct (open_all_log [om] s) as (s' & E & R); [by constructor|].
    exists s'. split; [|done]. cbn [for_each] in E.
    unfold bind in *. destruct (open_append om s) as [[[]|e| |] s1]; simpl in *.
    all: unfold ret in *; congruence.
Qed.

Lemma phase2_writes blake2b a fs rs s :
  config_ok a fs -> mode a <> roundrobin -> dirs_out a ∉ outs_of a ->
  disk_free s = None ->
  content (dirs_out a) s = write_all rs -> Forall wf_path rs ->
  exists s', phase2 blake2b a fs s = (Ok tt, s')
    /\ forall p, payloads p (log s') =
         payloads p (log s)
         ++ write_all (flat_map (item_files blake2b a fs (outs_of a) p) rs).
Proof.
  intros Hc Hm Hal Hd Hrs Hwf. unfold phase2.
  destruct (open_outputs_ok a fs s Hc) as (Ho & _).
  destruct (open_outputs_log a fs s Hc) as (s1 & E1 & D1 & C1 & L1).
  rewrite (bind_ok _ _ s _ s1 E1). rewrite !bind_modify, bind_gets.
  set (n := pool_size (workers2 a)).
  set (s2 := add_event (EvOpenRead (dirs_out a)) _).
  set (put := fun dir_rel : str =>
    hand_over blake2b a fs (outs_of a) n (Path dir_rel) ;;; ret tt).
  assert (content (dirs_out a) s2 = write_all rs) as C2.
  { unfold s2. rewrite !content_add_event. unfold content in *. simpl.
    by rewrite C1. }
  assert (read_dirs (S (length (content (dirs_out a) s2))) chunk_size put
            (dirs_out a) 0 [] s2 = for_each rs put s2) as R.
  { apply read_dirs_write_all; [by apply hand_over_keeps|done|done]. }
  destruct (put_each_writes blake2b a fs (outs_of a) n rs s2) as (s3 & E3 & Q3 & L3);
    [done|done|apply pool_size_pos|done|by rewrite <- Hd, <- D1|].
  rewrite (bind_ok _ _ s2 tt s3 (eq_trans R E3)).
  unfold q_join at 1. unfold bind at 1. rewrite Q3. simpl.
  rewrite bind_modify.
  set (s4 := add_event _ s3).
  destruct (stop_file_workers_log blake2b a fs (outs_of a) n n s4)
    as (s5 & E5 & L5); [lia|done|].
  rewrite (bind_ok _ _ s4 _ s5 E5). rewrite Nat.sub_diag. simpl.
  rewrite bind_ret_l, bind_modify.
  destruct (close_all_log (outs_of a) (add_event (EvThreadsJoined 2) s5))
    as (s6 & E6 & L6).
  exists s6. split; [done|]. intros p. rewrite L6. simpl.
  rewrite payloads_not_write by done. rewrite L5. unfold s4. simpl.
  rewrite payloads_not_write by done. rewrite L3. f_equal.
  unfold s2. simpl. rewrite !payloads_not_write by done. apply L1.
Qed.

(** ** Two runs on the same tree *)

Lemma phase1_disk_none fuel a fs s r s' :
  disk_free s = None -> phase1 fuel a fs s = (r, s') -> disk_free s' = None.
Proof.
  intros Hd E.
  eapply (holds_result (fun s => disk_free s = None)); [|exact Hd|exact E].
  apply (fo_phase1 a fs _ (fun _ => True)); try done.
  - intros s1 s2 _ D _ H. congruence.
  - intros p. unfold open_append. case_bool_decide; [apply holds_raise|].
    by apply holds_modify.
  - intros p b _ s1 H1. unfold file_write. by rewrite H1.
Qed.

Lemma phase1_no_out_write fuel a fs o s r s' :
  o <> dirs_out a -> payloads o (log s) = [] ->
  phase1 fuel a fs s = (r, s') -> payloads o (log s') = [].
Proof.
  intros Ho Hp E.
  eapply (holds_result (fun s => payloads o (log s) = [])); [|exact Hp|exact E].
  apply (fo_phase1 a fs _ (fun p => p <> o)); try done.
  - intros s1 s2 _ _ L H. by rewrite L.
  - intros e s1 He H. simpl. by rewrite payloads_not_write.
  - intros p. unfold open_append. case_bool_decide; [apply holds_raise|].
    apply holds_modify. intros s1 H1. simpl. by rewrite payloads_not_write.
  - intros p b Hpo s1 H1. unfold file_write. destruct (fits _ _); simpl; [|done].
    split; [|done]. rewrite payloads_snoc, H1.
    by rewrite bool_decide_eq_false_2.
Qed.

Lemma appended_refl s : log s = [] -> appended s s.
Proof.
  intros L p. split; [|done]. by rewrite L, app_nil_r.
Qed.

Lemma phase1_appended fuel a fs s0 r s' :
  log s0 = [] -> phase1 fuel a fs s0 = (r, s') -> appended s0 s'.
Proof.
  intros L E.
  eapply (holds_result (appended s0)); [|by apply appended_refl|exact E].
  apply (fo_phase1 a fs (appended s0) (fun _ => True)); try done.
  - apply appended_files_only.
  - apply appended_event.
  - apply appended_open.
  - intros q b _. apply appended_write.
Qed.

Lemma main_appended blake2b fuel a fs s0 r s' :
  log s0 = [] -> main blake2b fuel a fs s0 = (r, s') -> appended s0 s'.
Proof.
  intros L E.
  eapply (holds_result (appended s0)); [|by apply appended_refl|exact E].
  apply (fo_main blake2b a fs (appended s0) (fun _ => True)); try done.
  - apply appended_files_only.
  - apply appended_event.
  - apply appended_open.
  - intros q b _. apply appended_write.
Qed.

Lemma main_phases blake2b fuel a fs s :
  config_ok a fs ->
  main blake2b fuel a fs s = (phase1 fuel a fs ;;; phase2 blake2b a fs) s.
Proof.
  intros (H1 & H2 & H3 & H4). unfold main. rewrite H1. simpl.
  assert ((shards a =? 0) && falsy (out_manifest a) = false) as ->.
  { destruct (Z.eqb_spec (shards a) 0); [|done]. rewrite H3; [done|lia]. }
  assert ((0 <? shards a) && falsy (outdir a) = false) as ->.
  { destruct (Z.ltb_spec 0 (shards a)); [|done]. by rewrite H4. }
  done.
Qed.

Lemma ledger_payload_good a fs l :
  dirs_out a ∉ outs_of a -> Forall (good_event a fs) l ->
  exists rs, payloads (dirs_out a) l = write_all rs /\ Forall (good_rel a) rs.
Proof.
  intros Hal. induction 1 as [|e l He H (rs & E & Hrs)]; [by exists []|].
  rewrite payloads_cons, E.
  destruct e as [| |q b| | | | | |]; try by exists rs.
  case_bool_decide as Hq; [|by exists rs]. simpl in He.
  destruct He as [[_ (r & Hr & ->)]|[Ho _]]; [|by subst].
  exists (r :: rs). split; [done|]. by constructor.
Qed.

Lemma entry_files_elem blake2b a outs p dir_rel de f :
  f ∈ entry_files blake2b a outs p dir_rel de ->
  f = rel_file_of dir_rel de /\ p ∈ outs.
Proof.
  unfold entry_files. destruct (is_file_nofollow de) as [[]|];
    try by intros ?%elem_of_nil.
  case_bool_decide as E; [|by intros ?%elem_of_nil].
  intros ->%list_elem_of_singleton. split; [done|]. by eapply list_elem_of_lookup_2.
Qed.

Lemma item_files_elem blake2b a fs outs p d f :
  f ∈ item_files blake2b a fs outs p d ->
  p ∈ outs /\ exists de, de ∈ entries (scandir fs (dir_abs_of a d))
                         /\ f = rel_file_of d de.
Proof.
  unfold item_files. rewrite list_elem_of_In, in_flat_map.
  intros (de & Hde%list_elem_of_In & [-> Hp]%list_elem_of_In%entry_files_elem).
  eauto.
Qed.

Lemma elem_of_flat_map {A B} (f : A -> list B) l y :
  y ∈ flat_map f l <-> exists x, x ∈ l /\ y ∈ f x.
Proof.
  rewrite list_elem_of_In, in_flat_map. split.
  - intros (x & H1 & H2). exists x. by rewrite !list_elem_of_In.
  - intros (x & H1 & H2). exists x. by rewrite <- !list_elem_of_In.
Qed.

Lemma routed_ledger_nil blake2b a fs rs :
  dirs_out a ∉ outs_of a ->
  flat_map (item_files blake2b a fs (outs_of a) (dirs_out a)) rs = [].
Proof.
  intros Hal. destruct (flat_map _ _) as [|f l] eqn:E; [done|].
  assert (f ∈ flat_map (item_files blake2b a fs (outs_of a) (dirs_out a)) rs)
    as (d & _ & [Hp _]%item_files_elem)%elem_of_flat_map
    by (rewrite E; apply list_elem_of_here).
  done.
Qed.

Lemma routed_wf blake2b a fs p rs :
  wf_fs fs -> Forall (good_rel a) rs ->
  Forall wf_path (flat_map (item_files blake2b a fs (outs_of a) p) rs).
Proof.
  intros Hfs Hrs. apply Forall_forall. intros f (d & Hd & Hf)%elem_of_flat_map.
  apply item_files_elem in Hf as (_ & de & Hde & ->).
  eapply good_file_wf_path, good_file_rel; [|by eapply Hfs].
  by eapply Forall_forall in Hrs.
Qed.

Lemma records_after c rs :
  leftover_from [] c = [] -> Forall wf_path rs ->
  records (c ++ write_all rs) = records c ++ (encode <$> rs).
Proof.
  intros Hc Hrs. destruct (records_write_all rs Hrs) as [<- _]. unfold records.
  destruct (records_from_app [] c (write_all rs)) as [-> _]. by rewrite Hc.
Qed.

(** A run: it completes, and when the ledger held the records [r0] and
    phase 1 adds the records [rp], the ledger holds [r0 ++ rp] in the end
    and each output holds what it held, followed by the records phase 2
    routes to it. *)
Lemma run_writes blake2b n k fuel a fs fl :
  mode a <> roundrobin ->
  config_ok a fs -> wf_fs fs -> dirs_out a ∉ outs_of a -> ledger_ok a fl ->
  tree_size n a fs (root a) = Some k -> (k < fuel)%nat -> room_for a k ->
  exists m s',
    phase1 fuel a fs (init_state fl None) = (Ok tt, m)
    /\ main blake2b fuel a fs (init_state fl None) = (Ok tt, s')
    /\ (exists rp, payloads (dirs_out a) (log m) = write_all rp
                   /\ Forall (good_rel a) rp)
    /\ forall r0 rp,
         default [] (fl !! dirs_out a) = write_all r0 -> Forall (good_rel a) r0 ->
         payloads (dirs_out a) (log m) = write_all rp -> Forall (good_rel a) rp ->
         content (dirs_out a) s' = write_all (r0 ++ rp)
         /\ forall o, o ∈ outs_of a ->
              content o s' = default [] (fl !! o)
                ++ write_all (flat_map (item_files blake2b a fs (outs_of a) o)
                                (r0 ++ rp)).
Proof.
  intros Hm Hc Hfs Hal Hl Hk Hfuel Hroom.
  set (s0 := init_state fl None).
  destruct (phase1_completes n k a fs fuel s0) as (m & E1); try done.
  { by destruct Hc as (_ & ? & _). }
  assert (run_inv a fs m) as Im.
  { eapply holds_result; [by apply inv_phase1| |exact E1]. by apply run_inv_init. }
  pose proof (phase1_disk_none fuel a fs s0 _ m eq_refl E1) as Dm.
  pose proof (phase1_appended fuel a fs s0 _ m eq_refl E1) as Am.
  destruct (inv_ledger _ _ _ Im) as (rs & Cm & Hrs).
  destruct (phase2_writes blake2b a fs rs m Hc Hm Hal Dm Cm) as (s' & E2 & L2).
  { eapply Forall_impl; [done|]. apply good_rel_wf_path. }
  assert (main blake2b fuel a fs s0 = (Ok tt, s')) as E.
  { rewrite main_phases by done. by rewrite (bind_ok _ _ s0 tt m E1). }
  pose proof (main_appended blake2b fuel a fs s0 _ s' eq_refl E) as As.
  exists m, s'. split; [done|]. split; [done|].
  split; [exact (ledger_payload_good a fs (log m) Hal (inv_log _ _ _ Im))|].
  intros r0 rp E0 H0 Ep Hp. clear Hrs L2 E.
  assert (content (dirs_out a) m = write_all (r0 ++ rp)) as Cm'.
  { destruct (Am (dirs_out a)) as [-> _]. unfold content. simpl.
    by rewrite E0, Ep, write_all_app. }
  assert (Forall (good_rel a) (r0 ++ rp)) as Hr by by apply Forall_app.
  destruct (phase2_writes blake2b a fs (r0 ++ rp) m Hc Hm Hal Dm Cm')
    as (s2 & E2' & L2).
  { eapply Forall_impl; [done|]. apply good_rel_wf_path. }
  assert (s2 = s') as -> by congruence.
  split.
  - destruct (As (dirs_out a)) as [-> _]. rewrite L2, routed_ledger_nil by done.
    rewrite <- Cm'. destruct (Am (dirs_out a)) as [-> _]. simpl.
    by rewrite !app_nil_r.
  - intros o Ho. destruct (As o) as [-> _]. rewrite L2.
    rewrite (phase1_no_out_write fuel a fs o s0 (Ok tt) m); try done.
    by intros ->.
Qed.

(** C2: under the modes [bydir] and [hash], two runs on the same tree
    with the same command line: the first run completes, the second run,
    started on the files the first one left, completes, and for each
    index [i] the file of shard [i] holds the same set of records after
    the second run as after the first. *)
Theorem rerun_same_partition blake2b n k fuel a fs fl :
  mode a = bydir \/ mode a = hash ->
  config_ok a fs -> wf_fs fs -> dirs_out a ∉ outs_of a ->
  ledger_ok a fl -> outs_ok a fl ->
  tree_size n a fs (root a) = Some k -> (k < fuel)%nat -> room_for a k ->
  exists s1 s2,
    main blake2b fuel a fs (init_state fl None) = (Ok tt, s1)
    /\ main blake2b fuel a fs (init_state (files s1) None) = (Ok tt, s2)
    /\ forall i o, outs_of a !! i = Some o ->
         forall r, r ∈ records (content o s2) <-> r ∈ records (content o s1).
Proof.
  intros Hmode Hc Hfs Hal Hl Ho Hk Hfuel Hroom.
  assert (mode a <> roundrobin) as Hm by (destruct Hmode; congruence).
  destruct (run_writes blake2b n k fuel a fs fl)
    as (m1 & s1 & P1 & E1 & (rp & Lp & Gp) & W1); try done.
  destruct Hl as (r0 & L0 & G0).
  destruct (W1 r0 rp L0 G0 Lp Gp) as [C1 F1].
  assert (Forall (good_rel a) (r0 ++ rp)) as G1 by by apply Forall_app.
  assert (ledger_ok a (files s1)) as Hl1 by (by exists (r0 ++ rp)).
  destruct (run_writes blake2b n k fuel a fs (files s1))
    as (m2 & s2 & P2 & E2 & _ & W2); try done.
  (* the second phase 1 adds to the ledger what the first added *)
  destruct (blind_phase1 fuel a fs (init_state fl None)
              (init_state (files s1) None) eq_refl) as [_ B].
  rewrite P1, P2 in B. simpl in B.
  apply forget_eq in B as (_ & _ & _ & _ & _ & _ & B).
  destruct (W2 (r0 ++ rp) rp) as [_ F2]; try done.
  { by rewrite <- B. }
  exists s1, s2. split; [done|]. split; [done|].
  intros i o Hi r.
  assert (o ∈ outs_of a) as Hin by by eapply list_elem_of_lookup_2.
  set (F := item_files blake2b a fs (outs_of a) o).
  rewrite (F2 o Hin). fold (content o s1). rewrite (F1 o Hin).
  fold F. rewrite <- app_assoc, <- write_all_app.
  rewrite !records_after;
    try (by apply Ho);
    try (rewrite <- ?flat_map_app; apply routed_wf; [done|];
         repeat (apply Forall_app; split); done).
  rewrite !elem_of_app, !list_elem_of_fmap.
  split; intros [H|(f & -> & Hf)]; try by left.
  all: right; exists f; (split; [done|]).
  2: { apply elem_of_app. by left. }
  apply elem_of_app in Hf as [Hf|Hf]; [done|].
  apply elem_of_flat_map in Hf as (d & Hd & Hf).
  apply elem_of_flat_map. exists d. split; [|done].
  rewrite !elem_of_app in Hd. rewrite elem_of_app. tauto.
Qed.

Lemma config_ok_args_bydir4 fs :
  isdir fs (lit "/r") = true -> config_ok args_bydir4 fs.
Proof. intros H. by repeat split. Qed.

Lemma rerun_same_partition_witness :
  exists s1 s2,
    main toy_digest 10 args_bydir4 tree1 (init_state ∅ None) = (Ok tt, s1)
    /\ main toy_digest 10 args_bydir4 tree1 (init_state (files s1) None) = (Ok tt, s2)
    /\ forall i o, outs_of args_bydir4 !! i = Some o ->
         forall r, r ∈ records (content o s2) <-> r ∈ records (content o s1).
Proof.
  apply (rerun_same_partition toy_digest 3 3 10 args_bydir4 tree1 ∅).
  - by left.
  - by apply config_ok_args_bydir4.
  - apply wf_fs_of. compute_done.
  - compute_done.
  - by apply ledger_ok_fresh.
  - intros o _. by rewrite lookup_empty.
  - compute_done.
  - lia.
  - right. simpl. lia.
Defined.

(** ** The barrier between the phases *)

Section Barrier.
Import Threads.

Lemma count_app {A} (f : A -> bool) l l' :
  count f (l ++ l') = (count f l + count f l')%nat.
Proof. induction l as [|x l IH]; simpl; [done|]. rewrite IH. lia. Qed.

Lemma count_le {A} (f : A -> bool) l : (count f l <= length l)%nat.
Proof. induction l as [|x l IH]; simpl; [done|]. destruct (f x); lia. Qed.

Lemma count_insert {A} (f : A -> bool) l i x y :
  l !! i = Some x ->
  (count f (<[i := y]> l) + (if f x then 1 else 0)
   = count f l + (if f y then 1 else 0))%nat.
Proof.
  revert i. induction l as [|z l IH]; intros [|i] H; simplify_eq/=.
  - lia.
  - specialize (IH i H). lia.
Qed.

Lemma count_replicate {A} (f : A -> bool) n x :
  f x = false -> count f (replicate n x) = O.
Proof. intros H. induction n as [|n IH]; simpl; [done|]. by rewrite H, IH. Qed.

Lemma count_all {A} (f : A -> bool) l :
  Forall (fun x => f x = true) l -> count f l = length l.
Proof. induction 1 as [|x l H _ IH]; simpl; [done|]. by rewrite H, IH. Qed.

Lemma count_none {A} (f : A -> bool) l :
  Forall (fun x => f x = false) l -> count f l = O.
Proof. induction 1 as [|x l H _ IH]; simpl; [done|]. by rewrite H, IH. Qed.

Lemma count_full_head {A} (f : A -> bool) x l :
  count f (x :: l) = length (x :: l) -> f x = true /\ count f l = length l.
Proof.
  simpl. pose proof (count_le f l). destruct (f x); [split; [done|lia]|lia].
Qed.

Lemma take_closing a k :
  (k <= 2)%nat ->
  take (3 + length (outs_of a) + k) (closing a) =
    [EvThreadsJoined 1; EvFlush (dirs_out a); EvClose (dirs_out a)]
    ++ (EvOpenAppend <$> outs_of a)
    ++ take k [EvStart 2 (pool_size (workers2 a)); EvOpenRead (dirs_out a)].
Proof.
  intros Hk. unfold closing.
  rewrite <- Nat.add_assoc. rewrite take_app_add' by done. f_equal.
  rewrite take_app_add' by by rewrite length_fmap. done.
Qed.

Lemma closing_outputs a :
  take 3 (closing a) ++ (EvOpenAppend <$> outs_of a)
  = take (3 + length (outs_of a)) (closing a).
Proof.
  rewrite <- (Nat.add_0_r (3 + _)), take_closing by lia.
  by rewrite app_nil_r.
Qed.

Lemma closing_start a :
  take (3 + length (outs_of a)) (closing a)
    ++ [EvStart 2 (pool_size (workers2 a))]
  = take (4 + length (outs_of a)) (closing a).
Proof.
  rewrite <- closing_outputs.
  replace (4 + length (outs_of a))%nat
    with (3 + length (outs_of a) + 1)%nat by lia.
  rewrite take_closing by lia. by rewrite <- !app_assoc.
Qed.

Lemma closing_read a :
  take (4 + length (outs_of a)) (closing a) ++ [EvOpenRead (dirs_out a)]
  = take (5 + length (outs_of a)) (closing a).
Proof.
  rewrite <- closing_start, <- closing_outputs.
  replace (5 + length (outs_of a))%nat
    with (3 + length (outs_of a) + 2)%nat by lia.
  rewrite take_closing by lia. by rewrite <- !app_assoc.
Qed.

Lemma inv_init a : inv a (init a).
Proof.
  split; simpl.
  - by rewrite !count_replicate.
  - by rewrite !count_replicate.
  - done.
  - done.
  - done.
  - lia.
  - by exists [].
Qed.

Lemma inv_main_step a c c' : main_step a c = Some c' -> inv a c -> inv a c'.
Proof.
  unfold main_step. intros E [I1 I2 I3 I4 I5 I6 (w & I7 & I8)].
  destruct (main_at c) as [|[|k]|i| | | | | |] eqn:Em.
  - (* dir_q.join() returns *)
    destruct (Z.eqb_spec (unfinished_tasks (tasks c)) 0) as [E0|]; [|done].
    simplify_eq. simpl in *.
    assert (items (tasks c) = []) as Hi
      by (destruct (items (tasks c)); simpl in *; [done|lia]).
    rewrite Hi in *. simpl in *.
    split; simpl; rewrite ?Hi; simpl; try done; try lia.
    + by intros k [= <-].
    + exists (w ++ [EvQueueJoined 1]). rewrite I7. simpl. rewrite !app_nil_r.
      split; [done|]. apply Forall_app. split; [done|]. by constructor.
  - (* the sentinels are put *)
    simplify_eq. simpl in *. split; simpl; try done; try lia.
    + intros _. by apply I4.
    + intros i [= <-] j Hj. lia.
    + exists w. by rewrite I7, !app_nil_r.
  - (* a sentinel is put *)
    unfold q_put in E. destruct (_ && _); [done|]. simplify_eq. simpl in *.
    specialize (I3 _ eq_refl). destruct I4 as [I4 I4']; [done|].
    split; simpl; rewrite ?length_app, ?count_app; simpl; try done; try lia.
    + intros k' [= <-]. lia.
    + by exists w.
  - (* a thread is joined *)
    destruct (ths1 c !! i) as [[]|] eqn:Ei; try done; simplify_eq; simpl in *.
    + split; simpl; try done; try (intros _; by apply I4).
      * intros i' [= <-] j Hj. destruct (decide (j = i)) as [->|]; [done|].
        apply (I5 i eq_refl). lia.
      * exists w. by rewrite I7, !app_nil_r.
    + split; simpl; try done; try (intros _; by apply I4).
      * intros _. apply Forall_lookup. intros j x Hj.
        assert (j < i)%nat as Hji.
        { apply lookup_lt_Some in Hj. apply lookup_ge_None in Ei. lia. }
        rewrite (I5 i eq_refl j Hji) in Hj. congruence.
      * exists w. by rewrite I7, app_nil_r.
  - simplify_eq.
    split; [simpl; try done; try (intros _; by apply I4);
            try (intros _; apply I6; simpl; lia)..|].
    unfold move; cbn [trace main_at]. exists w. by rewrite I7, <- app_assoc.
  - simplify_eq.
    split; [simpl; try done; try (intros _; by apply I4);
            try (intros _; apply I6; simpl; lia)..|].
    unfold move; cbn [trace main_at]. exists w. by rewrite I7, <- app_assoc.
  - simplify_eq.
    split; [simpl; try done; try (intros _; by apply I4);
            try (intros _; apply I6; simpl; lia)..|].
    unfold move; cbn [trace main_at]. exists w.
    rewrite I7, <- app_assoc. split; [|done]. f_equal. apply closing_outputs.
  - simplify_eq.
    split; [simpl; try done; try (intros _; by apply I4);
            try (intros _; apply I6; simpl; lia)..|].
    unfold move; cbn [trace main_at]. exists w.
    rewrite I7, <- app_assoc. split; [|done]. f_equal. apply closing_start.
  - simplify_eq.
    split; [simpl; try done; try (intros _; by apply I4);
            try (intros _; apply I6; simpl; lia)..|].
    unfold move; cbn [trace main_at]. exists w.
    rewrite I7, <- app_assoc. split; [|done]. f_equal. apply closing_read.
  - done.
Qed.
Lemma count_lookup {A} (f : A -> bool) l i x :
  l !! i = Some x -> f x = true -> (0 < count f l)%nat.
Proof.
  revert i. induction l as [|z l IH]; intros [|i] H Hx; simplify_eq/=.
  - rewrite Hx. lia.
  - specialize (IH i H Hx). lia.
Qed.

Lemma worker_step_event a fs ok w q w' q' es :
  worker_step a fs ok w q = Some (w', q', es) -> Forall phase1_event es.
Proof.
  intros H. destruct w as [|[d|]|d [|de todo]|d de todo| |]; simpl in H;
    repeat case_match; simplify_eq; repeat constructor.
Qed.

Lemma inv_thread_step a fs i ok c c' :
  step a fs (Thread i ok) c = Some c' -> inv a c -> inv a c'.
Proof.
  unfold step. intros E [I1 I2 I3 I4 I5 I6 (tr & I7 & I8)].
  destruct (ths1 c !! i) as [w|] eqn:Hi; [|done].
  destruct (worker_step a fs ok w (tasks c)) as [[[w' q'] es]|] eqn:Hw; [|done].
  simplify_eq.
  assert (w <> Returned) as Hr by (by intros ->).
  assert (progress a (main_at c) = O) as Hp.
  { destruct (progress a (main_at c)) eqn:Ep; [done|]. exfalso. apply Hr.
    assert (Forall (eq Returned) (ths1 c)) as H by (apply I6; lia).
    symmetry. by eapply Forall_lookup_1 in H. }
  pose proof (count_insert busy (ths1 c) i w w' Hi) as Cb.
  pose proof (count_insert has_stop (ths1 c) i w w' Hi) as Cs.
  pose proof (count_insert returned (ths1 c) i w w' Hi) as Cr.
  pose proof (count_lookup busy (ths1 c) i w Hi) as Pb.
  pose proof (worker_step_event _ _ _ _ _ _ _ _ Hw) as He.
  assert (inv_joined' : forall k, main_at c = JoinThreads k ->
            forall j, (j < k)%nat -> <[i := w']> (ths1 c) !! j = Some Returned).
  { intros k Hk j Hj. destruct (decide (i = j)) as [->|Hij].
    - rewrite (I5 k Hk j Hj) in Hi. congruence.
    - rewrite list_lookup_insert_ne by done. by apply (I5 k). }
  assert (inv_trace' : exists w0, trace c ++ es
            = w0 ++ take (progress a (main_at c)) (closing a)
            /\ Forall phase1_event w0).
  { exists (tr ++ es). rewrite I7, Hp. simpl. rewrite !app_nil_r.
    split; [done|]. by apply Forall_app. }
  assert (inv_all' : (0 < progress a (main_at c))%nat ->
            Forall (eq Returned) (<[i := w']> (ths1 c))) by (intros; lia).
  destruct w as [|[d|]|d [|de todo]|d de todo| |]; simpl in Hw.
  - (* dir_q.get() *)
    destruct (items (tasks c)) as [|x xs] eqn:Hq; [done|]. simplify_eq.
    pose proof (count_le is_stop xs).
    destruct x; simpl in *;
      (split; simpl; rewrite ?length_insert, ?Hq; simpl; try done; try lia;
       intros Hne; destruct (I4 Hne); split; lia).
  - (* os.scandir(d) *)
    simplify_eq. simpl in *.
    split; simpl; rewrite ?length_insert; simpl; try done; try lia.
    intros Hne; destruct (I4 Hne); split; lia.
  - (* the sentinel: task_done() and return *)
    simplify_eq. simpl in *.
    split; simpl; rewrite ?length_insert; simpl; try done; try lia.
    intros Hne; destruct (I4 Hne); split; lia.
  - (* the listing ends *)
    simplify_eq. simpl in *.
    split; simpl; rewrite ?length_insert; simpl; try done; try lia.
    intros Hne; destruct (I4 Hne); split; lia.
  - (* an entry *)
    destruct (followed a de && ok); simplify_eq; simpl in *;
      (split; simpl; rewrite ?length_insert; simpl; try done; try lia;
       intros Hne; destruct (I4 Hne); split; lia).
  - (* dir_q.put(de.path) *)
    unfold q_put in Hw. destruct (_ && _); [done|]. simplify_eq. simpl in *.
    specialize (Pb eq_refl).
    split; simpl; rewrite ?length_insert, ?length_app, ?count_app; simpl;
      try done; try lia.
    intros Hne; destruct (I4 Hne); lia.
  - (* task_done() *)
    simplify_eq. simpl in *. specialize (Pb eq_refl).
    split; simpl; rewrite ?length_insert; simpl; try done; try lia.
    intros Hne; destruct (I4 Hne); lia.
  - done.
Qed.

Lemma inv_run a fs sched : forall c c',
  run a fs sched c = Some c' -> inv a c -> inv a c'.
Proof.
  induction sched as [|act sched IH]; intros c c' E Hc; simpl in E.
  { by simplify_eq. }
  destruct (step a fs act c) as [c1|] eqn:E1; [|done].
  apply (IH c1 c' E). destruct act as [|i ok].
  - by apply (inv_main_step a c).
  - by apply (inv_thread_step a fs i ok c).
Qed.

Lemma inv_drained a c :
  inv a c -> (0 < progress a (main_at c))%nat ->
  Forall (eq Returned) (ths1 c) /\ tasks c = empty_queue.
Proof.
  intros [I1 I2 I3 I4 I5 I6 _] Hp. pose proof (I6 Hp) as Hr.
  split; [done|].
  assert (count returned (ths1 c) = length (ths1 c)) as Cr.
  { apply count_all. eapply Forall_impl; [done|]. by intros ? <-. }
  assert (count has_stop (ths1 c) = O) as Cs.
  { apply count_none. eapply Forall_impl; [done|]. by intros ? <-. }
  assert (count busy (ths1 c) = O) as Cb.
  { apply count_none. eapply Forall_impl; [done|]. by intros ? <-. }
  assert (stops_put (main_at c) (length (ths1 c)) = length (ths1 c)) as Sp.
  { destruct (main_at c); simpl in *; try done; lia. }
  destruct I4 as [_ I4]. { intros E. rewrite E in Hp. simpl in Hp. lia. }
  assert (items (tasks c) = []) as Hi.
  { destruct (items (tasks c)); [done|]. simpl in *. lia. }
  rewrite Hi, Cb, Cs in I1. simpl in I1.
  destruct (tasks c). simpl in *. by subst.
Qed.

(** C8: in every run of the threads of phase 1 and of the main thread,
    whatever the order of their turns, what was done so far is what
    phase 1 did, followed by a part of this sequence of the main thread:
    the threads are joined, the ledger is flushed, the ledger is closed,
    the outputs are opened, the threads of phase 2 are started, the
    ledger is opened for reading.  Once this sequence has begun, every
    thread of phase 1 has returned, the queue is empty and has no task
    that is not done; and an output is opened, a thread of phase 2
    started or the ledger read only after the join, the flush and the
    close. *)
Theorem phase_barrier a fs sched c :
  run a fs sched (init a) = Some c ->
  exists w m,
    trace c = w ++ m
    /\ Forall phase1_event w
    /\ m `prefix_of` closing a
    /\ (m <> [] -> Forall (eq Returned) (ths1 c) /\ tasks c = empty_queue)
    /\ (forall e, e ∈ m -> phase2_event e ->
          exists m', m = EvThreadsJoined 1 :: EvFlush (dirs_out a)
                         :: EvClose (dirs_out a) :: m').
Proof.
  intros E. pose proof (inv_run a fs sched _ _ E (inv_init a)) as Hc.
  destruct (inv_trace a c Hc) as (w & Hw & Hp).
  exists w, (take (progress a (main_at c)) (closing a)).
  split; [done|]. split; [done|]. split; [apply prefix_take|]. split.
  - intros Hm. apply (inv_drained a c Hc).
    destruct (progress a (main_at c)); [done|lia].
  - intros e He Pe. unfold closing in *.
    destruct (main_at c); simpl in *;
      try (by apply elem_of_nil in He); try by eexists.
    + apply list_elem_of_singleton in He as ->. done.
    + apply elem_of_cons in He as [->|He]; [done|].
      apply list_elem_of_singleton in He as ->. done.
Qed.
End Barrier.

Lemma phase_barrier_witness :
  exists c, Threads.run args1 tree1 Threads.sched1 (Threads.init args1) = Some c
    /\ Threads.main_at c = Threads.Reading
    /\ exists w m,
        Threads.trace c = w ++ m
        /\ Forall Threads.phase1_event w
        /\ m `prefix_of` Threads.closing args1
        /\ (m <> [] -> Forall (eq Threads.Returned) (Threads.ths1 c)
                       /\ Threads.tasks c = empty_queue)
        /\ (forall e, e ∈ m -> Threads.phase2_event e ->
              exists m', m = EvThreadsJoined 1 :: EvFlush (dirs_out args1)
                             :: EvClose (dirs_out args1) :: m').
Proof.
  eexists. split; [vm_compute; reflexivity|]. split; [reflexivity|].
  apply (phase_barrier args1 tree1 Threads.sched1). vm_compute. reflexivity.
Defined.

(** ** The ledger is the breadth-first listing of the tree *)

Lemma found_nil fuel a fs : found fuel a fs [] = [].
Proof. by destruct fuel. Qed.

Lemma found_app a fs xs : forall acc f,
  found (length xs + f) a fs (xs ++ acc) =
    flat_map (subdirs a fs) xs
    ++ found f a fs (acc ++ flat_map (subdirs a fs) xs).
Proof.
  induction xs as [|x xs IH]; intros acc f; simpl.
  { by rewrite app_nil_r. }
  rewrite <- !app_assoc. f_equal.
  by rewrite IH, <- !app_assoc.
Qed.

Lemma ok_children n a fs d :
  ok (S n) a fs d ->
  Forall (ok n a fs) (subdirs a fs d)
  /\ sz (S n) a fs d = S (sum_list_with (sz n a fs) (subdirs a fs d)).
Proof.
  intros [k Hk]. unfold sz at 1. rewrite Hk. simpl.
  rewrite tree_size_S in Hk.
  destruct (mapM (tree_size n a fs) (subdirs a fs d)) as [ks|] eqn:E; [|done].
  injection Hk as <-. apply mapM_Some in E.
  assert (Forall (ok n a fs) (subdirs a fs d)
          /\ sum_list_with (sz n a fs) (subdirs a fs d) = sum_list ks)
    as [H1 H2].
  { induction E as [|c kc cs ks Hc _ [IH1 IH2]]; [done|]. split.
    - constructor; [|done]. unfold ok. rewrite Hc. eauto.
    - simpl. unfold sz at 1. rewrite Hc. simpl. by rewrite IH2. }
  by rewrite H2.
Qed.

Lemma ok_children_all n a fs ds :
  Forall (ok (S n) a fs) ds ->
  Forall (ok n a fs) (flat_map (subdirs a fs) ds)
  /\ sum_list_with (sz (S n) a fs) ds =
     (length ds + sum_list_with (sz n a fs) (flat_map (subdirs a fs) ds))%nat.
Proof.
  induction 1 as [|d ds Hd _ [IH1 IH2]]; simpl; [done|].
  destruct (ok_children n a fs d Hd) as [H1 H2]. split.
  - by apply Forall_app.
  - rewrite sum_list_with_app, H2, IH2. lia.
Qed.

Lemma found_levels a fs : forall n ds fuel,
  Forall (ok n a fs) ds ->
  (sum_list_with (sz n a fs) ds <= fuel)%nat ->
  found fuel a fs ds = levels n a fs ds.
Proof.
  induction n as [|n IH]; intros ds fuel Hok Hf.
  - destruct ds as [|d ds]; [by rewrite found_nil|].
    apply Forall_cons in Hok as [[k Hk] _]. done.
  - destruct (ok_children_all n a fs ds Hok) as [Hc Hs]. simpl.
    transitivity (found (length ds + (fuel - length ds)) a fs (ds ++ [])).
    { rewrite app_nil_r. f_equal. lia. }
    rewrite found_app. simpl. f_equal. apply IH; [done|lia].
Qed.

Lemma elem_of_subdirs_of a d es c :
  c ∈ subdirs_of a d es <->
  exists de, de ∈ es /\ followed a de = true /\ c = de_path d de.
Proof.
  induction es as [|de es IH]; simpl.
  - split; [by intros ?%elem_of_nil|]. by intros (? & ?%elem_of_nil & _).
  - destruct (followed a de) eqn:F.
    + rewrite elem_of_cons, IH. split.
      * intros [->|(de' & H1 & H2 & H3)].
        -- exists de. split; [apply list_elem_of_here|done].
        -- exists de'. split; [by apply list_elem_of_further|done].
      * intros (de' & [->|H1]%elem_of_cons & H2 & H3); [by left|].
        right. by exists de'.
    + rewrite IH. split.
      * intros (de' & H1 & H2 & H3). exists de'.
        split; [by apply list_elem_of_further|done].
      * intros (de' & [->|H1]%elem_of_cons & H2 & H3); [congruence|].
        by exists de'.
Qed.

Lemma levels_sound a fs : forall n ds,
  Forall (reach a fs) ds -> Forall (reach a fs) (levels n a fs ds).
Proof.
  induction n as [|n IH]; intros ds H; simpl; [done|].
  assert (Forall (reach a fs) (flat_map (subdirs a fs) ds)) as Hc.
  { apply Forall_forall. intros c (d & Hd & Hc)%elem_of_flat_map.
    apply elem_of_subdirs_of in Hc as (de & H1 & H2 & ->).
    apply reach_step; try done. by eapply Forall_forall in H. }
  apply Forall_app. split; [done|]. by apply IH.
Qed.



Lemma emit_dir_exact a r s :
  disk_free s = None ->
  exists s', emit_dir a r s = (Ok tt, s')
    /\ dir_q s' = dir_q s /\ disk_free s' = None
    /\ payloads (dirs_out a) (log s') =
         payloads (dirs_out a) (log s) ++ enc_record r.
Proof.
  intros Hd. unfold emit_dir.
  set (s1 := add_event (EvWrite (dirs_out a) (encode r ++ [0]))
               (set_files (<[dirs_out a := content (dirs_out a) s ++ (encode r ++ [0])]>
                             (files s)) None s)).
  assert (file_write (dirs_out a) (encode r ++ [0]) s = (Ok tt, s1)) as E.
  { unfold file_write. by rewrite Hd. }
  rewrite (bind_ok _ _ s tt s1 E), bind_modify, bind_gets.
  assert (payloads (dirs_out a) (log s1)
          = payloads (dirs_out a) (log s) ++ enc_record r) as L.
  { simpl. by rewrite payloads_snoc, bool_decide_eq_true_2. }
  destruct (Z.land _ _ =? 0); eexists; (split; [done|]); simpl;
    rewrite ?payloads_not_write by done; by rewrite <- L.
Qed.

Lemma dir_worker_entry_exact a d de s :
  disk_free s = None ->
  (followed a de = true -> 0 < maxq a ->
     Z.of_nat (length (items (dir_q s))) < maxq a) ->
  exists s', dir_worker_entry a d de s = (Ok tt, s')
    /\ disk_free s' = None
    /\ items (dir_q s') = items (dir_q s) ++ (Path <$> subdirs_of a d [de])
    /\ unfinished_tasks (dir_q s') =
         unfinished_tasks (dir_q s) + Z.of_nat (length (subdirs_of a d [de]))
    /\ payloads (dirs_out a) (log s') =
         payloads (dirs_out a) (log s)
         ++ write_all (relpath (root a) <$> subdirs_of a d [de]).
Proof.
  intros Hd Hroom. unfold dir_worker_entry, de_is_dir. simpl.
  unfold followed in *.
  destruct (if follow_symlinks a then _ else _) as [[]|]; simpl.
  - rewrite (try_except_bind_ret _ _ _ true). case_bool_decide as Hx; simpl.
    { exists s. rewrite !app_nil_r. repeat split; try done. lia. }
    destruct (emit_dir_exact a (relpath (root a) (de_path d de)) s Hd)
      as (s1 & E & Q & D & L).
    assert (dir_q_put a (Path (de_path d de)) s1 =
              (Ok tt, set_dir_q {| items := items (dir_q s) ++ [Path (de_path d de)];
                                   unfinished_tasks := unfinished_tasks (dir_q s) + 1 |} s1))
      as E2.
    { unfold dir_q_put, q_put. rewrite Q.
      destruct (Z.ltb_spec 0 (maxq a)); simpl; [|done].
      destruct (Z.leb_spec (maxq a) (Z.of_nat (length (items (dir_q s)))));
        [|done].
      specialize (Hroom eq_refl ltac:(done)). lia. }
    eexists. split.
    { apply try_except_ok. rewrite (bind_ok _ _ s tt s1 E). exact E2. }
    simpl. repeat split; try done.
    rewrite L. unfold write_all. simpl. by rewrite app_nil_r.
  - rewrite (try_except_bind_ret _ _ _ false).
    exists s. rewrite !app_nil_r. repeat split; try done. lia.
  - exists s. split; [by apply try_except_caught|].
    rewrite !app_nil_r. repeat split; try done. lia.
Qed.

Lemma subdirs_of_cons a d de es :
  subdirs_of a d (de :: es) = subdirs_of a d [de] ++ subdirs_of a d es.
Proof. simpl. by destruct (followed a de). Qed.

Lemma dir_entries_exact a d es : forall s,
  disk_free s = None ->
  (0 < maxq a ->
     Z.of_nat (length (items (dir_q s)) + length (subdirs_of a d es)) <= maxq a) ->
  exists s', for_each es (dir_worker_entry a d) s = (Ok tt, s')
    /\ disk_free s' = None
    /\ items (dir_q s') = items (dir_q s) ++ (Path <$> subdirs_of a d es)
    /\ unfinished_tasks (dir_q s') =
         unfinished_tasks (dir_q s) + Z.of_nat (length (subdirs_of a d es))
    /\ payloads (dirs_out a) (log s') =
         payloads (dirs_out a) (log s)
         ++ write_all (relpath (root a) <$> subdirs_of a d es).
Proof.
  induction es as [|de es IH]; intros s Hd Hroom.
  { exists s. simpl. rewrite !app_nil_r. repeat split; try done. lia. }
  rewrite subdirs_of_cons in *. cbn [for_each].
  rewrite length_app in Hroom.
  destruct (dir_worker_entry_exact a d de s Hd) as (s1 & E & D1 & I1 & U1 & L1).
  { intros Hf Hm. specialize (Hroom Hm). simpl in Hroom. rewrite Hf in Hroom.
    simpl in Hroom. lia. }
  rewrite (bind_ok _ _ s tt s1 E).
  destruct (IH s1 D1) as (s2 & E2 & D2 & I2 & U2 & L2).
  { intros Hm. specialize (Hroom Hm). rewrite I1, length_app, length_fmap. lia. }
  exists s2. split; [done|]. split; [done|].
  rewrite I2, I1, U2, U1, L2, L1, length_app, !fmap_app, write_all_app.
  rewrite <- !app_assoc. repeat split; try done. lia.
Qed.

Lemma dir_worker_item_exact a fs d s :
  disk_free s = None ->
  (0 < maxq a ->
     Z.of_nat (length (items (dir_q s)) + length (subdirs a fs d)) <= maxq a) ->
  exists s', dir_worker_item a fs (Path d) s = (Ok false, s')
    /\ disk_free s' = None
    /\ items (dir_q s') = items (dir_q s) ++ (Path <$> subdirs a fs d)
    /\ unfinished_tasks (dir_q s') =
         unfinished_tasks (dir_q s) + Z.of_nat (length (subdirs a fs d)) - 1
    /\ payloads (dirs_out a) (log s') =
         payloads (dirs_out a) (log s)
         ++ write_all (relpath (root a) <$> subdirs a fs d).
Proof.
  intros Hd Hroom.
  destruct (dir_entries_exact a d (entries (scandir fs d))
              (add_event (EvScandir d) s) Hd Hroom) as (s1 & E & D & I & U & L).
  exists (set_dir_q (q_task_done (dir_q s1)) s1). simpl in *.
  split; [|by rewrite I, U, L, payloads_not_write].
  unfold dir_worker_item.
  assert (try_except_OSError (scan fs d (dir_worker_entry a d)) (ret tt) s
          = (Ok tt, s1)) as H.
  { rewrite scan_fails_ignored. apply try_except_ok. by rewrite bind_modify. }
  erewrite bind_ok; [done|]. by eapply try_finally_ok.
Qed.

Lemma dir_worker_exact n a fs : forall fuel s ds alive,
  (0 < alive)%nat -> disk_free s = None ->
  items (dir_q s) = Path <$> ds ->
  unfinished_tasks (dir_q s) = Z.of_nat (length ds) ->
  Forall (ok n a fs) ds ->
  (sum_list_with (sz n a fs) ds < fuel)%nat ->
  (0 < maxq a -> Z.of_nat (sum_list_with (sz n a fs) ds) <= maxq a) ->
  exists s', dir_worker fuel a fs alive s = (Ok alive, s')
    /\ dir_q s' = empty_queue /\ disk_free s' = None
    /\ payloads (dirs_out a) (log s') =
         payloads (dirs_out a) (log s)
         ++ write_all (relpath (root a) <$> found fuel a fs ds).
Proof.
  induction fuel as [|fuel IH]; intros s ds alive Ha Hd Hi Hu Hok Hf Hroom; [lia|].
  rewrite dir_worker_S, bind_gets. rewrite Hi.
  destruct alive as [|alive']; [lia|].
  destruct ds as [|d rest]; simpl.
  { exists s. rewrite app_nil_r. repeat split; try done.
    destruct (dir_q s). simpl in *. by subst. }
  rewrite bind_modify.
  set (s1 := set_dir_q (q_pop (dir_q s)) s).
  apply Forall_cons in Hok as [Hok Hrest]. simpl in Hf, Hroom.
  destruct (ok_subdirs n a fs d Hok) as [Hsub Hsz].
  pose proof (sum_sz_length n a fs _ Hrest) as L1.
  pose proof (sum_sz_length n a fs _ Hsub) as L2.
  destruct (dir_worker_item_exact a fs d s1 Hd) as (s2 & E & D2 & I2 & U2 & P2).
  { intros Hm. specialize (Hroom Hm). unfold s1. simpl. rewrite Hi. simpl.
    rewrite length_fmap. lia. }
  rewrite (bind_ok _ _ s1 false s2 E).
  destruct (IH s2 (rest ++ subdirs a fs d) (S alive')) as (s3 & E3 & Q3 & D3 & P3).
  - lia.
  - done.
  - rewrite I2. unfold s1. simpl. rewrite Hi. simpl. apply fmap_Path_app.
  - rewrite U2. unfold s1. simpl. rewrite Hu, length_app. simpl. lia.
  - by apply Forall_app.
  - rewrite sum_list_with_app. lia.
  - intros Hm. specialize (Hroom Hm). rewrite sum_list_with_app. lia.
  - exists s3. split; [done|]. split; [done|]. split; [done|].
    rewrite P3, P2, fmap_app, write_all_app, <- app_assoc. done.
Qed.

Lemma stop_dir_workers_log a fs : forall n alive s,
  (n <= alive)%nat -> dir_q s = empty_queue ->
  exists s', stop_dir_workers n a fs alive s = (Ok (alive - n)%nat, s')
    /\ dir_q s' = empty_queue /\ log s' = log s /\ disk_free s' = disk_free s.
Proof.
  induction n as [|n IH]; intros alive s Hn Hq; cbn [stop_dir_workers].
  { exists s. by rewrite Nat.sub_0_r. }
  rewrite (bind_ok _ _ s tt _ (dir_q_put_empty a stop s Hq)).
  destruct alive as [|al]; [lia|].
  set (s1 := set_dir_q _ s).
  set (s2 := set_dir_q (q_task_done (dir_q (set_dir_q (q_pop (dir_q s1)) s1)))
               (set_dir_q (q_pop (dir_q s1)) s1)).
  assert (dir_worker 2 a fs (S al) s1 = (Ok al, s2)) as E.
  { rewrite dir_worker_S, bind_gets. simpl. by destruct al. }
  rewrite (bind_ok _ _ s1 al s2 E).
  destruct (IH al s2) as (s' & E' & Hq' & L' & D'); [lia|done|].
  exists s'. split; [by rewrite E'|]. split; [done|]. by rewrite L', D'.
Qed.

Lemma phase1_exact n k a fs fuel s :
  dirs_out a <> [] -> disk_free s = None ->
  tree_size n a fs (root a) = Some k -> (k < fuel)%nat -> room_for a k ->
  exists s1, phase1 fuel a fs s = (Ok tt, s1)
    /\ disk_free s1 = None
    /\ payloads (dirs_out a) (log s1) =
         payloads (dirs_out a) (log s)
         ++ write_all (lit "." :: (relpath (root a) <$> levels n a fs [root a])).
Proof.
  intros Hdo Hd Hk Hfuel Hroom. unfold phase1.
  rewrite !bind_modify. unfold open_append.
  rewrite bool_decide_eq_false_2 by done. rewrite bind_modify.
  set (s1 := add_event _ _).
  destruct (emit_dir_exact a (lit ".") s1) as (s2 & E2 & Q2 & D2 & L2); [done|].
  rewrite (bind_ok _ _ s1 tt s2 E2).
  rewrite (bind_ok _ _ s2 tt _ (dir_q_put_empty a (Path (root a)) s2 Q2)).
  rewrite bind_modify.
  set (s3 := add_event _ _).
  assert (ok n a fs (root a)) as Hok by (unfold ok; rewrite Hk; eauto).
  destruct (dir_worker_exact n a fs fuel s3 [root a] (pool_size (workers1 a)))
    as (s4 & E4 & Q4 & D4 & L4); try done.
  - apply pool_size_pos.
  - by apply Forall_singleton.
  - simpl. unfold sz. rewrite Hk. simpl. lia.
  - simpl. unfold sz. rewrite Hk. simpl. destruct Hroom; lia.
  - rewrite (bind_ok _ _ s3 _ s4 E4).
    unfold q_join at 1. unfold bind at 1. rewrite Q4. simpl.
    rewrite bind_modify.
    set (s5 := add_event _ s4).
    destruct (stop_dir_workers_log a fs (pool_size (workers1 a))
                (pool_size (workers1 a)) s5) as (s6 & E6 & Q6 & L6 & D6);
      [lia|done|].
    rewrite (bind_ok _ _ s5 _ s6 E6). rewrite Nat.sub_diag. simpl.
    eexists. split; [reflexivity|]. simpl. split; [by rewrite D6|].
    rewrite !payloads_not_write by done. rewrite L6. unfold s5. simpl.
    rewrite payloads_not_write by done. rewrite L4. unfold s3. simpl.
    rewrite payloads_not_write by done. rewrite L2. unfold s1. simpl.
    rewrite payloads_not_write by done.
    rewrite (found_levels a fs n [root a] fuel).
    + unfold write_all at 2. simpl. by rewrite <- app_assoc.
    + by apply Forall_singleton.
    + simpl. unfold sz. rewrite Hk. simpl. lia.
Qed.




(** ** From phase 1 to phase 2: the path of a directory *)

Lemma os_path_join_name d n :
  wf_name n ->
  os_path_join d n = (if bool_decide (d = []) || endswith_sep d then d ++ n
                      else d ++ sep :: n)
  /\ endswith_sep (os_path_join d n) = false
  /\ os_path_join d n <> [].
Proof.
  intros Hn. destruct (wf_name_sep n Hn) as [Hs Hne].
  unfold os_path_join. rewrite startswith_sep_name by done.
  split; [done|]. destruct (bool_decide (d = []) || endswith_sep d).
  - split; [by apply endswith_sep_app|]. destruct d, n; done.
  - split; [|by destruct d].
    change (d ++ sep :: n) with (d ++ [sep] ++ n). rewrite app_assoc.
    by apply endswith_sep_app.
Qed.

Lemma os_path_join_app_sep r y n :
  startswith_sep y = false -> y <> [] ->
  os_path_join r (y ++ sep :: n) = os_path_join r y ++ sep :: n.
Proof.
  intros Hy Hne. unfold os_path_join.
  assert (startswith_sep (y ++ sep :: n) = false) as ->
    by (destruct y; [done|exact Hy]).
  rewrite Hy. destruct (bool_decide (r = []) || endswith_sep r).
  - by rewrite app_assoc.
  - by rewrite <- app_assoc.
Qed.

Lemma crawl_not_slash r xs :
  xs <> [] -> Forall wf_name xs ->
  endswith_sep (foldl os_path_join r xs) = false
  /\ foldl os_path_join r xs <> [].
Proof.
  destruct xs as [|y xs _] using rev_ind; [done|]. intros _ H.
  apply Forall_app in H as [_ [Hy _]%Forall_cons]. rewrite foldl_snoc.
  by destruct (os_path_join_name (foldl os_path_join r xs) y Hy) as (_ & ? & ?).
Qed.

Lemma os_path_join_rel r xs :
  xs <> [] -> Forall wf_name xs ->
  os_path_join r (rel_of xs) = foldl os_path_join r xs.
Proof.
  induction xs as [|n xs IH] using rev_ind; [done|]. intros _ H.
  apply Forall_app in H as [Hxs [Hn _]%Forall_cons].
  rewrite foldl_snoc.
  destruct xs as [|x xs']; [simpl; unfold sep_join; simpl; by rewrite app_nil_r|].
  rewrite rel_of_snoc by done.
  destruct (rel_of_startswith (x :: xs') Hxs) as [H1 H2].
  rewrite os_path_join_app_sep, IH by done.
  destruct (crawl_not_slash r (x :: xs')) as [E1 E2]; [done|done|].
  destruct (os_path_join_name (foldl os_path_join r (x :: xs')) n Hn) as [-> _].
  rewrite E1. by rewrite bool_decide_eq_false_2.
Qed.

Lemma abs_comps_crawl r xs :
  Forall wf_name xs -> abs_comps (foldl os_path_join r xs) = abs_comps r ++ xs.
Proof.
  induction xs as [|n xs IH] using rev_ind; intros H.
  { by rewrite app_nil_r. }
  apply Forall_app in H as [Hxs [Hn _]%Forall_cons].
  by rewrite foldl_snoc, abs_comps_join, IH, app_assoc.
Qed.

Lemma followed_name a de : followed a de = true -> name de ∉ exclude a.
Proof.
  unfold followed. destruct (if follow_symlinks a then _ else _) as [[]|];
    try done. by intros ?%negb_true_iff%bool_decide_eq_false.
Qed.

Lemma reach_names a fs d :
  wf_fs fs -> reach a fs d ->
  exists xs, Forall (good_name a) xs /\ d = foldl os_path_join (root a) xs.
Proof.
  intros Hfs. induction 1 as [|d de _ (xs & Hxs & ->) Hde Hf].
  - by exists [].
  - exists (xs ++ [name de]). split; [|by rewrite foldl_snoc].
    apply Forall_app. split; [done|]. apply Forall_singleton. split.
    + by eapply Hfs.
    + by apply followed_name.
Qed.

Lemma reach_rel a fs d :
  wf_fs fs -> reach a fs d ->
  exists xs,
    Forall (good_name a) xs
    /\ d = foldl os_path_join (root a) xs
    /\ relpath (root a) d = rel_of xs.
Proof.
  intros Hfs Hd. destruct (reach_names a fs d Hfs Hd) as (xs & Hxs & ->).
  pose proof (good_names_wf a xs Hxs) as Hwf.
  exists xs. split; [done|]. split; [done|].
  apply relpath_under; [|done]. by apply abs_comps_crawl.
Qed.

Lemma reach_back a fs d :
  wf_fs fs -> reach a fs d -> dir_abs_of a (relpath (root a) d) = d.
Proof.
  intros Hfs Hd. destruct (reach_rel a fs d Hfs Hd) as (xs & Hxs & -> & ->).
  pose proof (good_names_wf a xs Hxs) as Hwf.
  unfold dir_abs_of. case_bool_decide as E.
  - by apply rel_of_dot_inv in E as ->.
  - apply os_path_join_rel; [|done]. by intros ->.
Qed.

(** X2: the record phase 1 writes for a directory it reaches leads phase
    2 back to this directory.  For the directory reached from the root
    through the names [xs], the record is the names joined by the
    separator (["."] for the root itself), and the path phase 2 lists
    for this record, the root for ["."] and [os.path.join(root, record)]
    otherwise, is the very path phase 1 listed. *)
Theorem ledger_record_round_trip a fs d :
  wf_fs fs -> reach a fs d ->
  exists xs,
    Forall (good_name a) xs
    /\ d = foldl os_path_join (root a) xs
    /\ relpath (root a) d = rel_of xs
    /\ dir_abs_of a (relpath (root a) d) = d.
Proof.
  intros Hfs Hd. destruct (reach_rel a fs d Hfs Hd) as (xs & Hxs & E1 & E2).
  exists xs. split; [done|]. split; [done|]. split; [done|].
  by apply (reach_back a fs).
Qed.

Lemma ledger_record_round_trip_witness :
  exists xs,
    Forall (good_name args1) xs
    /\ lit "/r/a" = foldl os_path_join (root args1) xs
    /\ relpath (root args1) (lit "/r/a") = rel_of xs
    /\ dir_abs_of args1 (relpath (root args1) (lit "/r/a")) = lit "/r/a".
Proof.
  apply (ledger_record_round_trip args1 tree1 (lit "/r/a")).
  - apply wf_fs_of. compute_done.
  - apply (reach_step args1 tree1 (lit "/r") (dir_entry "a")).
    + apply reach_root.
    + apply list_elem_of_here.
    + reflexivity.
Defined.


(** ** The outputs list the files of the tree *)



Lemma good_rel_reach a fs d :
  wf_fs fs -> reach a fs d -> good_rel a (relpath (root a) d).
Proof.
  intros Hfs Hd.
  destruct (reach_rel a fs d Hfs Hd) as (xs & H & _ & ->).
  by exists xs.
Qed.

Lemma relpath_root a : relpath (root a) (root a) = lit ".".
Proof. apply (relpath_under (root a) (root a) []); [by rewrite app_nil_r|done]. Qed.



(** ** The shard files *)

Lemma decimal_app x y :
  decimal (x ++ y) = foldl (fun acc c => 10 * acc + (c - 48)) (decimal x) y.
Proof. unfold decimal. by rewrite foldl_app. Qed.

Lemma decimal_snoc x c : decimal (x ++ [c]) = 10 * decimal x + (c - 48).
Proof. by rewrite decimal_app. Qed.

Lemma digits_spec : forall fuel n acc,
  0 <= n -> (Z.to_nat n < fuel)%nat ->
  exists d, digits fuel n acc = d ++ acc /\ decimal d = n.
Proof.
  induction fuel as [|fuel IH]; intros n acc Hn Hf; [lia|]. simpl.
  destruct (Z.ltb_spec n 10) as [H10|H10].
  - exists [48 + n mod 10]. split; [done|].
    unfold decimal. simpl. rewrite Z.mod_small by lia. lia.
  - destruct (IH (n / 10) ((48 + n mod 10) :: acc)) as (d & -> & Hd).
    + apply Z.div_pos; lia.
    + assert (n / 10 < n) by (apply Z.div_lt; lia).
      assert (0 <= n / 10) by (apply Z.div_pos; lia). lia.
    + exists (d ++ [48 + n mod 10]). split; [by rewrite <- app_assoc|].
      rewrite decimal_snoc, Hd. pose proof (Z.div_mod n 10). lia.
Qed.

Lemma decimal_zeros k d : decimal (replicate k 48 ++ d) = decimal d.
Proof.
  rewrite decimal_app.
  assert (decimal (replicate k 48) = 0) as ->; [|done].
  induction k as [|k IH]; [done|].
  rewrite replicate_S_end, decimal_snoc, IH. lia.
Qed.

Lemma decimal_fmt_05d i : 0 <= i -> decimal (fmt_05d i) = i.
Proof.
  intros Hi. unfold fmt_05d.
  destruct (digits_spec (S (Z.to_nat i)) i [] Hi) as (d & -> & Hd); [lia|].
  by rewrite app_nil_r, decimal_zeros.
Qed.

Lemma shard_name_inj i j :
  0 <= i -> 0 <= j -> shard_name i = shard_name j -> i = j.
Proof.
  intros Hi Hj E. unfold shard_name in E.
  apply app_inv_head, app_inv_tail in E.
  by rewrite <- (decimal_fmt_05d i), <- (decimal_fmt_05d j), E.
Qed.

Lemma os_path_join_shard_inj od i j :
  os_path_join od (shard_name i) = os_path_join od (shard_name j) ->
  shard_name i = shard_name j.
Proof.
  unfold os_path_join.
  change (startswith_sep (shard_name i)) with false.
  change (startswith_sep (shard_name j)) with false.
  destruct (bool_decide (od = []) || endswith_sep od).
  - by intros ?%app_inv_head.
  - intros E%app_inv_head. exact (f_equal tail E).
Qed.

Lemma range_lookup n i x :
  range n !! i = Some x -> x = Z.of_nat i /\ 0 <= x < n.
Proof.
  unfold range. rewrite list_lookup_fmap.
  destruct (seq 0 (Z.to_nat n) !! i) as [k|] eqn:E; [|done].
  apply lookup_seq in E as [-> ?]. intros [= <-]. lia.
Qed.

Lemma outs_of_NoDup a : NoDup (outs_of a).
Proof.
  unfold outs_of. destruct (0 <? shards a).
  - destruct (outdir a) as [od|]; [|constructor].
    apply NoDup_alt. intros i j o.
    rewrite !list_lookup_fmap.
    destruct (range (shards a) !! i) as [x|] eqn:Ei; [|done].
    destruct (range (shards a) !! j) as [y|] eqn:Ej; [|done].
    apply range_lookup in Ei as [-> ?]. apply range_lookup in Ej as [-> ?].
    simpl. intros [= <-] [= E].
    apply os_path_join_shard_inj, shard_name_inj in E; lia.
  - destruct (out_manifest a); [apply NoDup_singleton|constructor].
Qed.

Lemma outs_of_length a fs :
  config_ok a fs -> length (outs_of a) = Z.to_nat (Z.max 1 (shards a)).
Proof.
  intros (_ & _ & H1 & H2). unfold outs_of.
  destruct (Z.ltb_spec 0 (shards a)).
  - destruct (falsy_false _ (H2 ltac:(lia))) as (od & -> & _).
    unfold range. rewrite !length_fmap, length_seq. lia.
  - destruct (falsy_false _ (H1 ltac:(lia))) as (om & -> & _). simpl. lia.
Qed.

Lemma open_all_created ps : forall s,
  Forall (fun p => p <> []) ps ->
  exists s', for_each ps open_append s = (Ok tt, s')
    /\ (forall p, content p s' = content p s)
    /\ (forall p, p ∈ ps \/ is_Some (files s !! p) -> is_Some (files s' !! p))
    /\ disk_free s' = disk_free s.
Proof.
  induction ps as [|q ps IH]; intros s H.
  { exists s. repeat split; try done. intros p [?%elem_of_nil|?]; done. }
  apply Forall_cons in H as [Hq H]. cbn [for_each]. unfold open_append at 1.
  rewrite bool_decide_eq_false_2 by done. rewrite bind_modify.
  destruct (IH (add_event (EvOpenAppend q)
                  (set_files (<[q := content q s]> (files s)) (disk_free s) s)) H)
    as (s' & E & C & F & D).
  exists s'. split; [done|]. split; [|split; [|done]].
  - intros p. rewrite C, content_add_event, content_insert.
    by case_bool_decide; subst.
  - intros p Hp. apply F. simpl.
    destruct (decide (q = p)) as [->|Hne].
    + right. rewrite lookup_insert_eq. eauto.
    + rewrite lookup_insert_ne by done.
      destruct Hp as [[->|Hp]%elem_of_cons|Hp]; [done|by left|by right].
Qed.

(** X4: [open_outputs] opens one file for [--out-manifest] when the
    shard count is zero or less, and otherwise one file for each shard
    index in the output directory; no two shards share a file.  Each of
    these files exists afterwards, a file that existed before still
    does, and every file holds what it held: nothing is truncated. *)
Theorem open_outputs_distinct a fs s :
  config_ok a fs ->
  NoDup (outs_of a)
  /\ length (outs_of a) = Z.to_nat (Z.max 1 (shards a))
  /\ exists s',
       open_outputs (out_manifest a) (outdir a) (shards a) s = (Ok (outs_of a), s')
       /\ (forall p, content p s' = content p s)
       /\ (forall p, p ∈ outs_of a \/ is_Some (files s !! p) ->
                     is_Some (files s' !! p))
       /\ disk_free s' = disk_free s.
Proof.
  intros Hc. split; [apply outs_of_NoDup|]. split; [by eapply outs_of_length|].
  destruct Hc as (_ & _ & H1 & H2). unfold open_outputs, outs_of.
  destruct (Z.ltb_spec 0 (shards a)).
  - destruct (falsy_false _ (H2 ltac:(lia))) as (od & -> & Hod).
    destruct (open_all_created
      ((fun i => os_path_join od (shard_name i)) <$> range (shards a)) s)
      as (s' & E & R).
    { apply Forall_fmap, Forall_forall. intros i _. simpl.
      apply os_path_join_nonempty, shard_name_nonempty. }
    exists s'. by rewrite (bind_ok _ _ s tt s' E).
  - destruct (falsy_false _ (H1 ltac:(lia))) as (om & -> & Hom).
    destruct (open_all_created [om] s) as (s' & E & R); [by constructor|].
    exists s'. split; [|done]. cbn [for_each] in E.
    unfold bind in *. destruct (open_append om s) as [[[]|e| |] s1]; simpl in *.
    all: unfold ret in *; congruence.
Qed.

Lemma open_outputs_distinct_witness :
  NoDup (outs_of args_bydir4) /\ length (outs_of args_bydir4) = 4%nat.
Proof.
  destruct (open_outputs_distinct args_bydir4 tree1 (init_state ∅ None))
    as (H1 & H2 & _).
  - by apply config_ok_args_bydir4.
  - split; [done|]. by rewrite H2.
Defined.

(** ** Round robin deals the files to the shards in turn *)

Lemma dealt_to_app outs p l l' : forall c,
  dealt_to outs p c (l ++ l') =
    dealt_to outs p c l ++ dealt_to outs p (c + Z.of_nat (length l)) l'.
Proof.
  induction l as [|f l IH]; intros c; simpl.
  { by rewrite Z.add_0_r. }
  rewrite IH, <- app_assoc. do 3 f_equal. lia.
Qed.

Lemma choose_out_roundrobin blake2b a outs full dir_rel s :
  (2 <= length outs)%nat -> mode a = roundrobin ->
  choose_out blake2b a outs full dir_rel s =
    (Ok (rr_counter s mod Z.of_nat (length outs)),
     set_rr_counter (rr_counter s + 1) s).
Proof.
  intros Hn Hm. unfold choose_out. rewrite Hm.
  destruct (Z.eqb_spec (Z.of_nat (length outs)) 1); [lia|].
  destruct (Z.eqb_spec (Z.of_nat (length outs)) 0); [lia|]. done.
Qed.

Lemma flush_all_frame outs : forall s,
  exists s', for_each outs file_flush s = (Ok tt, s')
    /\ dir_in_q s' = dir_in_q s /\ disk_free s' = disk_free s
    /\ rr_counter s' = rr_counter s
    /\ forall p, payloads p (log s') = payloads p (log s).
Proof.
  induction outs as [|o outs IH]; intros s; [by exists s|].
  cbn [for_each]. unfold file_flush at 1. rewrite bind_modify.
  destruct (IH (add_event (EvFlush o) s)) as (s' & -> & Q & D & R & L).
  exists s'. repeat split; try done. intros p. rewrite L. simpl.
  by apply payloads_not_write.
Qed.

Lemma rr_entry blake2b a outs dir_rel de s :
  (2 <= length outs)%nat -> mode a = roundrobin -> disk_free s = None ->
  exists s', file_worker_entry blake2b a outs dir_rel de s = (Ok tt, s')
    /\ dir_in_q s' = dir_in_q s /\ disk_free s' = None
    /\ rr_counter s' =
         rr_counter s + Z.of_nat (length (entry_record dir_rel de))
    /\ forall p, payloads p (log s') =
         payloads p (log s)
         ++ write_all (dealt_to outs p (rr_counter s) (entry_record dir_rel de)).
Proof.
  intros Hn Hm Hd. unfold file_worker_entry, de_is_file, entry_record.
  destruct (is_file_nofollow de) as [[]|].
  - rewrite (try_except_bind_ret _ _ _ true).
    set (f := rel_file_of dir_rel de).
    set (idx := rr_counter s mod Z.of_nat (length outs)).
    assert (0 <= idx < Z.of_nat (length outs)) as Hidx
      by (apply Z.mod_pos_bound; lia).
    destruct (lookup_lt_is_Some_2 outs (Z.to_nat idx)) as [o Ho]; [lia|].
    set (s1 := set_rr_counter (rr_counter s + 1) s).
    set (s2 := add_event (EvWrite o (encode f ++ [0]))
                 (set_files (<[o := content o s1 ++ (encode f ++ [0])]> (files s1))
                    None s1)).
    destruct (flush_all_frame outs (set_files_emitted (files_emitted s2 + 1) s2))
      as (s3 & E3 & Q3 & D3 & R3 & L3).
    exists (if Z.land (files_emitted s2 + 1) 0xFFFFF =? 0 then s3
            else set_files_emitted (files_emitted s2 + 1) s2).
    split; [|split; [|split; [|split]]].
    + apply try_except_ok.
      rewrite (bind_ok _ _ s idx s1
                 (choose_out_roundrobin blake2b a outs f dir_rel s Hn Hm)).
      rewrite Ho.
      assert (file_write o (encode f ++ [0]) s1 = (Ok tt, s2)) as E2.
      { unfold file_write. unfold s1 at 1 2. simpl. by rewrite Hd. }
      rewrite (bind_ok _ _ s1 tt s2 E2).
      rewrite bind_modify, bind_gets. simpl.
      by destruct (Z.land _ _ =? 0).
    + by destruct (Z.land _ _ =? 0); rewrite ?Q3.
    + by destruct (Z.land _ _ =? 0); rewrite ?D3.
    + destruct (Z.land _ _ =? 0); simpl; [rewrite R3|]; simpl; lia.
    + intros p.
      assert (payloads p (log s2) = payloads p (log s) ++
                (if bool_decide (o = p) then encode f ++ [0] else [])) as L2.
      { simpl. by rewrite payloads_snoc. }
      assert (write_all (dealt_to outs p (rr_counter s) [f])
              = if bool_decide (o = p) then encode f ++ [0] else []) as ->.
      { simpl. fold idx. rewrite Ho, app_nil_r.
        repeat case_bool_decide; simplify_eq; try done.
        unfold write_all, enc_record. simpl. by rewrite app_nil_r. }
      rewrite <- L2. by destruct (Z.land _ _ =? 0); rewrite ?L3.
  - exists s. rewrite (try_except_bind_ret _ _ _ false). simpl.
    repeat split; try done; [lia|]. intros p. by rewrite app_nil_r.
  - exists s. split; [by apply try_except_caught|]. simpl.
    repeat split; try done; [lia|]. intros p. by rewrite app_nil_r.
Qed.

Lemma rr_entries blake2b a outs dir_rel es : forall s,
  (2 <= length outs)%nat -> mode a = roundrobin -> disk_free s = None ->
  exists s', for_each es (file_worker_entry blake2b a outs dir_rel) s = (Ok tt, s')
    /\ dir_in_q s' = dir_in_q s /\ disk_free s' = None
    /\ rr_counter s' =
         rr_counter s + Z.of_nat (length (flat_map (entry_record dir_rel) es))
    /\ forall p, payloads p (log s') =
         payloads p (log s)
         ++ write_all (dealt_to outs p (rr_counter s)
                         (flat_map (entry_record dir_rel) es)).
Proof.
  induction es as [|de es IH]; intros s Hn Hm Hd.
  { exists s. simpl. repeat split; try done; [lia|].
    intros p. by rewrite app_nil_r. }
  cbn [for_each flat_map].
  destruct (rr_entry blake2b a outs dir_rel de s Hn Hm Hd)
    as (s1 & E1 & Q1 & D1 & R1 & L1).
  rewrite (bind_ok _ _ s tt s1 E1).
  destruct (IH s1 Hn Hm D1) as (s2 & E2 & Q2 & D2 & R2 & L2).
  exists s2. split; [done|]. split; [congruence|]. split; [done|]. split.
  - rewrite R2, R1, length_app. lia.
  - intros p. rewrite L2, L1, R1, dealt_to_app, write_all_app, app_assoc. done.
Qed.

Lemma rr_item blake2b a fs outs d s :
  (2 <= length outs)%nat -> mode a = roundrobin -> disk_free s = None ->
  exists s', file_worker_item blake2b a fs outs (Path d) s = (Ok false, s')
    /\ dir_in_q s' = q_task_done (dir_in_q s) /\ disk_free s' = None
    /\ rr_counter s' = rr_counter s + Z.of_nat (length (item_records a fs d))
    /\ forall p, payloads p (log s') =
         payloads p (log s)
         ++ write_all (dealt_to outs p (rr_counter s) (item_records a fs d)).
Proof.
  intros Hn Hm Hd.
  destruct (rr_entries blake2b a outs d
              (entries (scandir fs (dir_abs_of a d)))
              (add_event (EvScandir (dir_abs_of a d)) s) Hn Hm Hd)
    as (s1 & E & Q & D & R & L).
  exists (set_dir_in_q (q_task_done (dir_in_q s1)) s1). simpl in *.
  split; [|split; [by rewrite Q|split; [done|split; [done|]]]].
  - unfold file_worker_item.
    assert (try_except_OSError
              (scan fs (dir_abs_of a d) (file_worker_entry blake2b a outs d))
              (ret tt) s = (Ok tt, s1)) as H.
    { rewrite scan_fails_ignored. apply try_except_ok. by rewrite bind_modify. }
    erewrite bind_ok; [done|]. by eapply try_finally_ok.
  - intros p. rewrite L. by rewrite payloads_not_write.
Qed.

Lemma rr_hand_over blake2b a fs outs alive d s :
  (2 <= length outs)%nat -> mode a = roundrobin -> (0 < alive)%nat ->
  dir_in_q s = empty_queue -> disk_free s = None ->
  exists s', hand_over blake2b a fs outs alive (Path d) s = (Ok alive, s')
    /\ dir_in_q s' = empty_queue /\ disk_free s' = None
    /\ rr_counter s' = rr_counter s + Z.of_nat (length (item_records a fs d))
    /\ forall p, payloads p (log s') =
         payloads p (log s)
         ++ write_all (dealt_to outs p (rr_counter s) (item_records a fs d)).
Proof.
  intros Hn Hm Ha Hq Hd. unfold hand_over.
  rewrite (bind_ok _ _ s tt _ (dir_in_q_put_empty a (Path d) s Hq)).
  set (s1 := set_dir_in_q _ s).
  destruct alive as [|al]; [lia|].
  rewrite file_worker_S, bind_gets. simpl. rewrite bind_modify.
  set (s2 := set_dir_in_q _ s1).
  destruct (rr_item blake2b a fs outs d s2 Hn Hm Hd)
    as (s3 & E3 & Q3 & D3 & R3 & L3).
  rewrite (bind_ok _ _ s2 false s3 E3).
  rewrite bind_gets, Q3. simpl.
  exists s3. split; [done|]. split; [by rewrite Q3|]. done.
Qed.

Lemma rr_put_each blake2b a fs outs alive rs : forall s,
  (2 <= length outs)%nat -> mode a = roundrobin -> (0 < alive)%nat ->
  dir_in_q s = empty_queue -> disk_free s = None ->
  exists s',
    for_each rs (fun dir_rel =>
      hand_over blake2b a fs outs alive (Path dir_rel) ;;; ret tt) s = (Ok tt, s')
    /\ dir_in_q s' = empty_queue
    /\ forall p, payloads p (log s') =
         payloads p (log s)
         ++ write_all (dealt_to outs p (rr_counter s)
                         (flat_map (item_records a fs) rs)).
Proof.
  induction rs as [|r rs IH]; intros s Hn Hm Ha Hq Hd.
  { exists s. repeat split; try done. intros p. by rewrite app_nil_r. }
  cbn [for_each flat_map].
  destruct (rr_hand_over blake2b a fs outs alive r s Hn Hm Ha Hq Hd)
    as (s1 & E1 & Q1 & D1 & R1 & L1).
  rewrite bind_assoc. rewrite (bind_ok _ _ s alive s1 E1). simpl.
  destruct (IH s1 Hn Hm Ha Q1 D1) as (s2 & E2 & Q2 & L2).
  exists s2. split; [done|]. split; [done|].
  intros p. rewrite L2, L1, R1, dealt_to_app, write_all_app, app_assoc. done.
Qed.

Lemma rr_phase2 blake2b a fs rs s :
  config_ok a fs -> mode a = roundrobin -> (2 <= length (outs_of a))%nat ->
  dirs_out a ∉ outs_of a -> disk_free s = None ->
  content (dirs_out a) s = write_all rs -> Forall wf_path rs ->
  exists s', phase2 blake2b a fs s = (Ok tt, s')
    /\ forall p, payloads p (log s') =
         payloads p (log s)
         ++ write_all (dealt_to (outs_of a) p 0 (flat_map (item_records a fs) rs)).
Proof.
  intros Hc Hm Hn Hal Hd Hrs Hwf. unfold phase2.
  destruct (open_outputs_log a fs s Hc) as (s1 & E1 & D1 & C1 & L1).
  rewrite (bind_ok _ _ s _ s1 E1). rewrite !bind_modify, bind_gets.
  set (n := pool_size (workers2 a)).
  set (s2 := add_event (EvOpenRead (dirs_out a)) _).
  set (put := fun dir_rel : str =>
    hand_over blake2b a fs (outs_of a) n (Path dir_rel) ;;; ret tt).
  assert (content (dirs_out a) s2 = write_all rs) as C2.
  { unfold s2. rewrite !content_add_event. unfold content in *. simpl.
    by rewrite C1. }
  assert (read_dirs (S (length (content (dirs_out a) s2))) chunk_size put
            (dirs_out a) 0 [] s2 = for_each rs put s2) as R.
  { apply read_dirs_write_all; [by apply hand_over_keeps|done|done]. }
  destruct (rr_put_each blake2b a fs (outs_of a) n rs s2) as (s3 & E3 & Q3 & L3);
    [done|done|apply pool_size_pos|done|by rewrite <- Hd, <- D1|].
  rewrite (bind_ok _ _ s2 tt s3 (eq_trans R E3)).
  unfold q_join at 1. unfold bind at 1. rewrite Q3. simpl.
  rewrite bind_modify.
  set (s4 := add_event _ s3).
  destruct (stop_file_workers_log blake2b a fs (outs_of a) n n s4)
    as (s5 & E5 & L5); [lia|done|].
  rewrite (bind_ok _ _ s4 _ s5 E5). rewrite Nat.sub_diag. simpl.
  rewrite bind_ret_l, bind_modify.
  destruct (close_all_log (outs_of a) (add_event (EvThreadsJoined 2) s5))
    as (s6 & E6 & L6).
  exists s6. split; [done|]. intros p. rewrite L6. simpl.
  rewrite payloads_not_write by done. rewrite L5. unfold s4. simpl.
  rewrite payloads_not_write by done. rewrite L3. f_equal.
  unfold s2. simpl. rewrite !payloads_not_write by done. apply L1.
Qed.

Lemma dealt_to_deal outs i o :
  NoDup outs -> outs !! i = Some o ->
  forall l c, dealt_to outs o c l = deal (Z.of_nat (length outs)) (Z.of_nat i) c l.
Proof.
  intros Hnd Hi. pose proof (lookup_lt_Some _ _ _ Hi) as Hlt.
  induction l as [|f l IH]; intros c; simpl; [done|]. rewrite IH. f_equal.
  assert (0 <= c mod Z.of_nat (length outs) < Z.of_nat (length outs)) as Hc
    by (apply Z.mod_pos_bound; lia).
  case_bool_decide as E.
  - rewrite <- (NoDup_lookup _ _ _ _ Hnd E Hi), Z2Nat.id by lia.
    by rewrite Z.eqb_refl.
  - destruct (Z.eqb_spec (c mod Z.of_nat (length outs)) (Z.of_nat i)) as [E'|];
      [|done].
    exfalso. apply E. by rewrite E', Nat2Z.id.
Qed.


Lemma share_step n t i :
  0 < n -> 0 <= t -> 0 <= i < n ->
  share n (t + 1) i = share n t i + (if t mod n =? i then 1 else 0).
Proof.
  intros Hn Ht Hi. unfold share.
  pose proof (Z.div_mod t n ltac:(lia)) as E.
  pose proof (Z.mod_pos_bound t n Hn) as B.
  destruct (Z.eq_dec (t mod n) (n - 1)) as [Hr|Hr].
  - assert ((t + 1) / n = t / n + 1) as ->.
    { symmetry. apply (Z.div_unique _ _ _ 0); lia. }
    assert ((t + 1) mod n = 0) as ->.
    { symmetry. apply (Z.mod_unique _ _ (t / n + 1)); lia. }
    destruct (Z.ltb_spec i 0), (Z.ltb_spec i (t mod n)),
      (Z.eqb_spec (t mod n) i); lia.
  - assert ((t + 1) / n = t / n) as ->.
    { symmetry. apply (Z.div_unique _ _ _ (t mod n + 1)); lia. }
    assert ((t + 1) mod n = t mod n + 1) as ->.
    { symmetry. apply (Z.mod_unique _ _ (t / n)); lia. }
    destruct (Z.ltb_spec i (t mod n + 1)), (Z.ltb_spec i (t mod n)),
      (Z.eqb_spec (t mod n) i); lia.
Qed.

Lemma deal_length n i : 0 < n -> 0 <= i < n ->
  forall l c, 0 <= c ->
  Z.of_nat (length (deal n i c l)) =
    share n (c + Z.of_nat (length l)) i - share n c i.
Proof.
  intros Hn Hi. induction l as [|f l IH]; intros c Hc; simpl deal.
  { simpl. rewrite Z.add_0_r. lia. }
  rewrite length_app, Nat2Z.inj_add, IH by lia.
  rewrite (share_step n c i) by lia.
  replace (c + Z.of_nat (length (f :: l))) with (c + 1 + Z.of_nat (length l))
    by (simpl; lia).
  destruct (c mod n =? i); simpl; lia.
Qed.

Lemma deal_balanced n i j l :
  0 < n -> 0 <= i < n -> 0 <= j < n ->
  Z.abs (Z.of_nat (length (deal n i 0 l)) - Z.of_nat (length (deal n j 0 l))) <= 1.
Proof.
  intros Hn Hi Hj. rewrite !deal_length by lia. unfold share.
  rewrite Z.mod_0_l, Z.div_0_l by lia.
  destruct (Z.ltb_spec i 0), (Z.ltb_spec j 0); try lia.
  destruct (i <? _), (j <? _); lia.
Qed.

Lemma item_records_reach a fs ds :
  wf_fs fs -> Forall (reach a fs) ds ->
  flat_map (item_records a fs) (relpath (root a) <$> ds)
  = flat_map (dir_records a fs) ds.
Proof.
  intros Hfs. induction 1 as [|d ds Hd _ IH]; [done|].
  rewrite fmap_cons. cbn [flat_map]. rewrite IH. f_equal.
  unfold item_records, dir_records.
  by rewrite (reach_back a fs d Hfs Hd).
Qed.

(** X5: under the mode [roundrobin] with two shards or more, a run that
    no error disturbs and that starts without a ledger deals the records
    of the files to the shards in turn: the files are taken directory by
    directory in the order of the ledger, the files of a directory in
    the order of its listing, and the file number [k] goes to the shard
    of index [k mod N].  So two shards never differ by more than one
    record. *)
Theorem roundrobin_deals blake2b n k fuel a fs fl :
  mode a = roundrobin -> 2 <= shards a ->
  config_ok a fs -> wf_fs fs -> dirs_out a ∉ outs_of a ->
  default [] (fl !! dirs_out a) = [] ->
  tree_size n a fs (root a) = Some k -> (k < fuel)%nat -> room_for a k ->
  let l := flat_map (dir_records a fs) (root a :: levels n a fs [root a]) in
  exists s',
    main blake2b fuel a fs (init_state fl None) = (Ok tt, s')
    /\ (forall i o, outs_of a !! i = Some o ->
          content o s' =
            default [] (fl !! o) ++ write_all (deal (shards a) (Z.of_nat i) 0 l))
    /\ (forall i j, 0 <= i < shards a -> 0 <= j < shards a ->
          Z.abs (Z.of_nat (length (deal (shards a) i 0 l))
                 - Z.of_nat (length (deal (shards a) j 0 l))) <= 1).
Proof.
  intros Hm Hsh Hc Hfs Hal Hl Hk Hfuel Hroom l.
  set (s0 := init_state fl None).
  pose proof (outs_of_length a fs Hc) as Hlen.
  assert (Z.of_nat (length (outs_of a)) = shards a) as HN by lia.
  destruct (phase1_exact n k a fs fuel s0) as (m & E1 & Dm & Lm); try done.
  { by destruct Hc as (_ & ? & _). }
  change (payloads (dirs_out a) (log s0)) with (@nil Z) in Lm.
  rewrite app_nil_l in Lm.
  set (ds := root a :: levels n a fs [root a]) in *.
  assert (Forall (reach a fs) ds) as Hds.
  { apply Forall_cons. split; [apply reach_root|].
    apply levels_sound, Forall_singleton, reach_root. }
  assert (lit "." :: (relpath (root a) <$> levels n a fs [root a])
          = relpath (root a) <$> ds) as Er.
  { unfold ds. by rewrite fmap_cons, relpath_root. }
  rewrite Er in Lm.
  assert (content (dirs_out a) m = write_all (relpath (root a) <$> ds)) as Cm.
  { destruct (phase1_appended fuel a fs s0 _ m eq_refl E1 (dirs_out a)) as [-> _].
    unfold content. simpl. by rewrite Hl, Lm. }
  destruct (rr_phase2 blake2b a fs (relpath (root a) <$> ds) m)
    as (s' & E2 & L2); try done.
  { lia. }
  { apply Forall_fmap. eapply Forall_impl; [done|]. intros d Hd.
    by eapply good_rel_wf_path, good_rel_reach. }
  assert (main blake2b fuel a fs s0 = (Ok tt, s')) as E.
  { rewrite main_phases by done. by rewrite (bind_ok _ _ s0 tt m E1). }
  exists s'. split; [done|]. split.
  - intros i o Hi.
    assert (o ∈ outs_of a) as Ho by by eapply list_elem_of_lookup_2.
    destruct (main_appended blake2b fuel a fs s0 _ s' eq_refl E o) as [-> _].
    rewrite L2, (phase1_no_out_write fuel a fs o s0 (Ok tt) m); try done.
    + rewrite item_records_reach by done.
      rewrite (dealt_to_deal (outs_of a) i o (outs_of_NoDup a) Hi), HN. done.
    + by intros ->.
  - intros i j Hi Hj. apply deal_balanced; lia.
Qed.


Lemma roundrobin_deals_witness :
  exists s',
    main toy_digest 10 args_rr2 tree1 (init_state ∅ None) = (Ok tt, s')
    /\ content (lit "out/shard_00000.nul") s'
       = write_all [lit "f1.txt"; lit "b/y.txt"]
    /\ content (lit "out/shard_00001.nul") s' = write_all [lit "a/x.txt"].
Proof.
  destruct (roundrobin_deals toy_digest 3 3 10 args_rr2 tree1 ∅)
    as (s' & E & C & _).
  - done.
  - simpl. lia.
  - by repeat split.
  - apply wf_fs_of. compute_done.
  - compute_done.
  - done.
  - compute_done.
  - lia.
  - right. simpl. lia.
  - exists s'. split; [done|]. split.
    + rewrite (C 0%nat (lit "out/shard_00000.nul")) by (vm_compute; reflexivity).
      vm_compute. reflexivity.
    + rewrite (C 1%nat (lit "out/shard_00001.nul")) by (vm_compute; reflexivity).
      vm_compute. reflexivity.
Defined.

(** ** The reader of the ledger *)

Lemma records_tail c t :
  leftover_from [] c = [] -> 0 ∉ t -> records (c ++ t) = records c.
Proof.
  intros Hc Ht. unfold records.
  destruct (records_from_app [] c t) as [-> _]. rewrite Hc.
  destruct (records_from_nul_free [] t Ht) as [-> _]. by rewrite app_nil_r.
Qed.

Lemma records_bad rs bad rest :
  Forall wf_path rs -> 0 ∉ bad ->
  records (write_all rs ++ bad ++ 0 :: rest)
  = (encode <$> rs) ++ bad :: records rest.
Proof.
  intros Hrs Hb. unfold records.
  destruct (records_write_all rs Hrs) as [R L]. unfold records in R.
  destruct (records_from_app [] (write_all rs) (bad ++ 0 :: rest)) as [-> _].
  rewrite R, L. f_equal.
  destruct (records_from_app [] bad (0 :: rest)) as [-> _].
  by destruct (records_from_nul_free [] bad Hb) as [-> ->].
Qed.

(** X6: the reader of phase 2 puts the records of the ledger one by one,
    in order, whatever the size of the chunks it reads: a record cut by
    the end of a chunk is put whole.  What follows the last NUL of the
    file is not a record and is dropped without a word.  A record that
    is not UTF-8 stops the reader with [UnicodeDecodeError], the records
    before it having been put. *)
Theorem reader_streams put p s chunk rs :
  (0 < chunk)%nat -> keeps p put -> Forall wf_path rs ->
  (forall tail, 0 ∉ tail -> content p s = write_all rs ++ tail ->
     read_dirs (S (length (content p s))) chunk put p 0 [] s
     = for_each rs put s)
  /\ (forall bad rest, 0 ∉ bad -> decode bad = None ->
        content p s = write_all rs ++ bad ++ 0 :: rest ->
        read_dirs (S (length (content p s))) chunk put p 0 [] s
        = (for_each rs put ;;; raise UnicodeDecodeError) s).
Proof.
  intros Hc K Hrs.
  assert (read_dirs (S (length (content p s))) chunk put p 0 [] s
          = put_all put (records (content p s)) s) as R.
  { rewrite read_dirs_spec; try done.
    - apply not_elem_of_nil.
    - rewrite drop_0. lia. }
  split.
  - intros tail Ht E. rewrite R, E.
    destruct (records_write_all rs Hrs) as [Er El].
    rewrite records_tail, Er by done. by apply put_all_encoded.
  - intros bad rest Hb Hd E. rewrite R, E, records_bad by done.
    rewrite put_all_app. unfold bind.
    rewrite put_all_encoded by done.
    destruct (for_each rs put s) as [[[]|e| |] s1]; try done.
    simpl. by rewrite Hd.
Qed.

Lemma reader_streams_witness :
  log (snd (read_dirs (S (length (content (lit "dirs.nul") ledger_cut))) 1
              note_dir (lit "dirs.nul") 0 [] ledger_cut))
  = [EvScandir (lit "a")].
Proof.
  destruct (reader_streams note_dir (lit "dirs.nul") ledger_cut 1 [lit "a"])
    as [H _].
  - lia.
  - by intros d s.
  - repeat constructor; compute_done.
  - rewrite (H (encode (lit "b"))); [done|compute_done|done].
Defined.

(** ** The queue of phase 1 *)

Section QueueProtocol.
Import Threads.

Lemma count_zero {A} (f : A -> bool) l i x :
  count f l = O -> l !! i = Some x -> f x = false.
Proof.
  intros H Hi. destruct (f x) eqn:E; [|done].
  pose proof (count_lookup f l i x Hi E). lia.
Qed.

Lemma count_full {A} (f : A -> bool) l :
  count f l = length l -> Forall (fun x => f x = true) l.
Proof.
  induction l as [|x l IH]; intros H; [done|].
  apply count_full_head in H as [H1 H2]. constructor; [done|by apply IH].
Qed.

(** X7: in every run of the threads of phase 1 and of the main thread,
    whatever the order of their turns, [task_done()] is never called
    more often than [put()]: the counter of the queue is never negative
    and is at least one when a thread is about to call [task_done()].
    And [dir_q.join()] returns only when the work is done: once it has
    returned no thread handles a directory, and the queue holds nothing
    but sentinels. *)
Theorem queue_join_safe a fs sched c :
  run a fs sched (init a) = Some c ->
  0 <= unfinished_tasks (tasks c)
  /\ (forall i w, ths1 c !! i = Some w -> w = Finishing \/ w = Got stop ->
        1 <= unfinished_tasks (tasks c))
  /\ (main_at c <> JoinQueue ->
      (forall i w, ths1 c !! i = Some w -> busy w = false)
      /\ (forall x, x ∈ items (tasks c) -> x = stop)).
Proof.
  intros E. pose proof (inv_run a fs sched _ _ E (inv_init a)) as [I1 _ _ I4 _ _ _].
  split; [lia|]. split.
  - intros i w Hi [->| ->].
    + pose proof (count_lookup busy _ _ _ Hi eq_refl). lia.
    + pose proof (count_lookup has_stop _ _ _ Hi eq_refl). lia.
  - intros Hm. destruct (I4 Hm) as [Hb Hs]. split.
    + intros i w Hi. by eapply count_zero.
    + intros x Hx. apply count_full in Hs.
      eapply Forall_forall in Hs; [|done]. by destruct x.
Qed.

Lemma queue_join_safe_witness :
  exists c, run args1 tree1 sched1 (init args1) = Some c
    /\ 0 <= unfinished_tasks (tasks c).
Proof.
  eexists. split; [vm_compute; reflexivity|].
  apply (queue_join_safe args1 tree1 sched1). vm_compute. reflexivity.
Defined.

Lemma step_bounded a fs act c c' :
  0 < maxq a -> step a fs act c = Some c' ->
  Z.of_nat (length (items (tasks c))) <= maxq a ->
  Z.of_nat (length (items (tasks c'))) <= maxq a.
Proof.
  intros Hm E Hb. destruct act as [|i ok]; simpl in E.
  - unfold main_step in E.
    destruct (main_at c) as [|[|k]|i| | | | | |]; simplify_eq; try done.
    + by destruct (_ =? 0); simplify_eq.
    + unfold q_put in E.
      destruct (Z.ltb_spec 0 (maxq a)); [|lia].
      destruct (Z.leb_spec (maxq a) (Z.of_nat (length (items (tasks c)))));
        simpl in E; simplify_eq.
      simpl. rewrite length_app. simpl. lia.
    + by destruct (ths1 c !! i) as [[]|]; simplify_eq.
  - destruct (ths1 c !! i) as [w|]; [|done].
    destruct (worker_step a fs ok w (tasks c)) as [[[w' q'] es]|] eqn:Hw; [|done].
    simplify_eq. simpl.
    destruct w as [|[d|]|d [|de todo]|d de todo| |]; simpl in Hw;
      try (by simplify_eq).
    + destruct (items (tasks c)) as [|x xs] eqn:Hq; simplify_eq.
      simpl in *. rewrite Hq. simpl. lia.
    + by destruct (followed a de && ok); simplify_eq.
    + unfold q_put in Hw.
      destruct (Z.ltb_spec 0 (maxq a)); [|lia].
      destruct (Z.leb_spec (maxq a) (Z.of_nat (length (items (tasks c)))));
        simpl in Hw; simplify_eq.
      simpl. rewrite length_app. simpl. lia.
Qed.

(** X8: with a bound on the queue ([--maxq] above zero) the queue of
    phase 1 never holds more than [maxq] items, in any run of the
    threads, whatever the order of their turns. *)
Theorem queue_bounded a fs sched c :
  0 < maxq a -> run a fs sched (init a) = Some c ->
  Z.of_nat (length (items (tasks c))) <= maxq a.
Proof.
  intros Hm. assert (Z.of_nat (length (items (tasks (init a)))) <= maxq a) as H
    by (simpl; lia).
  revert H. generalize (init a). induction sched as [|act sched IH];
    intros c0 H E; simpl in E; [by simplify_eq|].
  destruct (step a fs act c0) as [c1|] eqn:E1; [|done].
  apply (IH c1); [|done]. by eapply step_bounded.
Qed.

Lemma queue_bounded_witness :
  exists c, run args1 tree1 sched1 (init args1) = Some c
    /\ Z.of_nat (length (items (tasks c))) <= maxq args1.
Proof.
  eexists. split; [vm_compute; reflexivity|].
  apply (queue_bounded args1 tree1 sched1); [done|]. vm_compute. reflexivity.
Defined.
Lemma run_cons a fs act sched c c1 :
  step a fs act c = Some c1 -> run a fs (act :: sched) c = run a fs sched c1.
Proof. simpl. by intros ->. Qed.

Lemma scanning_stuck a fs d : forall todo q tr,
  0 < maxq a -> 0 < unfinished_tasks q ->
  Z.of_nat (length (items q)) <= maxq a ->
  maxq a < Z.of_nat (length (items q) + length (subdirs_of a d todo)) ->
  exists k c',
    run a fs (replicate k (Thread 0 true))
      {| main_at := JoinQueue; ths1 := [Scanning d todo]; tasks := q;
         trace := tr |} = Some c'
    /\ main_at c' = JoinQueue /\ stuck a fs c'.
Proof.
  induction todo as [|de todo IH]; intros q tr Hm Hu Hq Hn; simpl in Hn.
  { lia. }
  destruct (followed a de) eqn:Hf.
  - destruct (Z.leb_spec (maxq a) (Z.of_nat (length (items q)))) as [Hfull|Hroom].
    + (* the queue is full: the thread waits in [put], the main thread in [join] *)
      exists 1%nat. eexists. split.
      { cbn [replicate]. erewrite run_cons; [reflexivity|].
        unfold step. simpl. rewrite Hf. reflexivity. }
      split; [done|]. intros [|[|i] ok]; simpl; try done.
      * unfold main_step. simpl.
        destruct (Z.eqb_spec (unfinished_tasks q) 0); [lia|done].
      * unfold q_put.
        destruct (Z.ltb_spec 0 (maxq a)); [|lia].
        destruct (Z.leb_spec (maxq a) (Z.of_nat (length (items q)))); [done|lia].
    + destruct (IH {| items := items q ++ [Path (de_path d de)];
                      unfinished_tasks := unfinished_tasks q + 1 |}
                  (tr ++ [EvWrite (dirs_out a)
                            (enc_record (relpath (root a) (de_path d de)))] ++ []))
        as (k & c' & E & H1 & H2); simpl; try lia.
      { rewrite length_app. simpl. lia. }
      { rewrite length_app. simpl in *. lia. }
      exists (S (S k)), c'. split; [|done]. cbn [replicate].
      erewrite run_cons; [|unfold step; simpl; rewrite Hf; reflexivity].
      erewrite run_cons; [exact E|].
      unfold step. simpl. unfold q_put.
      destruct (Z.ltb_spec 0 (maxq a)); [|lia].
      destruct (Z.leb_spec (maxq a) (Z.of_nat (length (items q)))); [lia|].
      simpl. by rewrite <- !app_assoc.
  - destruct (IH q (tr ++ [])) as (k & c' & E & H1 & H2); try done.
    exists (S k), c'. split; [|done]. cbn [replicate].
    erewrite run_cons; [exact E|]. unfold step. simpl. by rewrite Hf.
Qed.

(** X9: a bounded queue can hang the crawl.  With one thread in phase 1
    and a root that holds more directories to follow than the queue has
    room for, the thread fills the queue and then waits in [dir_q.put]
    for room that only itself could make, while the main thread waits in
    [dir_q.join()]: no thread can go on. *)
Theorem single_thread_hangs a fs :
  pool_size (workers1 a) = 1%nat -> 0 < maxq a ->
  maxq a < Z.of_nat (length (subdirs a fs (root a))) ->
  exists sched c,
    run a fs sched (init a) = Some c
    /\ main_at c = JoinQueue /\ stuck a fs c.
Proof.
  intros Hp Hm Hn. unfold subdirs in Hn.
  destruct (scanning_stuck a fs (root a) (entries (scandir fs (root a)))
              {| items := []; unfinished_tasks := 1 |}
              ([] ++ [EvScandir (root a)])) as (k & c & E & H1 & H2);
    simpl; try lia.
  exists (Thread 0 true :: Thread 0 true :: replicate k (Thread 0 true)), c.
  split; [|done]. unfold init. rewrite Hp. cbn [replicate].
  erewrite run_cons; [|reflexivity]. erewrite run_cons; [exact E|reflexivity].
Qed.
End QueueProtocol.


Lemma single_thread_hangs_witness :
  exists sched c,
    Threads.run args_tight tree1 sched (Threads.init args_tight) = Some c
    /\ Threads.main_at c = Threads.JoinQueue /\ stuck args_tight tree1 c.
Proof.
  apply (single_thread_hangs args_tight tree1).
  - reflexivity.
  - reflexivity.
  - vm_compute. reflexivity.
Defined.

(** ** The exceptions of a run *)

Lemma only_weaken {A} (E E' : exn -> Prop) (m : M A) :
  (forall e, E e -> E' e) -> only E m -> only E' m.
Proof. intros H Hm s e s' Hr. apply H. by eapply Hm. Qed.

Lemma never_only {A} (E : exn -> Prop) (m : M A) : never m -> only E m.
Proof. apply only_weaken. by intros e []. Qed.

Lemma only_ret {A} E (x : A) : only E (ret x).
Proof. by intros s e s'. Qed.

Lemma only_gets {A} E (f : state -> A) : only E (gets f).
Proof. by intros s e s'. Qed.

Lemma only_modify E f : only E (modify f).
Proof. by intros s e s'. Qed.

Lemma only_raise {A} (E : exn -> Prop) e : E e -> only E (@raise A e).
Proof. intros H s e' s' [= <- _]. done. Qed.

Lemma only_bind {A B} E (m : M A) (k : A -> M B) :
  only E m -> (forall x, only E (k x)) -> only E (bind m k).
Proof.
  intros Hm Hk s e s'. unfold bind.
  destruct (m s) as [[x|e1| |] s1] eqn:Em; try done.
  - apply Hk.
  - intros [= <- _]. by eapply Hm.
Qed.

Lemma only_try_except {A} E (m h : M A) :
  only (fun e => e = OSError \/ E e) m -> only E h ->
  only E (try_except_OSError m h).
Proof.
  intros Hm Hh s e s'. unfold try_except_OSError.
  destruct (m s) as [[x|e1| |] s1] eqn:Em; try done.
  destruct (Hm _ _ _ Em) as [->|He1]; [apply Hh|].
  destruct e1; try apply Hh; by intros [= <- _].
Qed.

Lemma only_try_finally {A} E (m : M A) f :
  only E m -> only E f -> only E (try_finally m f).
Proof.
  intros Hm Hf s e s'. unfold try_finally.
  destruct (m s) as [[x|e1| |] s1] eqn:Em; try done.
  - apply only_bind; [done|]. intros _. apply only_ret.
  - apply only_bind; [done|]. intros _. apply only_raise. by eapply Hm.
Qed.

Lemma only_for_each {A} E (l : list A) body :
  (forall x, only E (body x)) -> only E (for_each l body).
Proof.
  intros H. induction l as [|x l IH]; [apply only_ret|].
  cbn [for_each]. apply only_bind; [done|]. by intros _.
Qed.

Lemma only_file_write p b : only (eq OSError) (file_write p b).
Proof.
  intros s e s'. unfold file_write. destruct (fits _ _); [done|].
  by intros [= <- _].
Qed.

Lemma only_open_append p : only (eq OSError) (open_append p).
Proof.
  unfold open_append. case_bool_decide; [by apply only_raise|apply only_modify].
Qed.

Lemma never_dir_q_put a x : never (dir_q_put a x).
Proof. intros s e s'. unfold dir_q_put. by destruct (q_put _ _ _). Qed.

Lemma never_dir_in_q_put a x : never (dir_in_q_put a x).
Proof. intros s e s'. unfold dir_in_q_put. by destruct (q_put _ _ _). Qed.

Lemma never_q_join q : never (q_join q).
Proof. intros s e s'. unfold q_join. by destruct (_ =? 0). Qed.

Lemma never_join_threads n : never (join_threads n).
Proof. by destruct n; intros s e s'. Qed.

Lemma only_emit_dir a r : only (eq OSError) (emit_dir a r).
Proof.
  unfold emit_dir. apply only_bind; [apply only_file_write|]. intros _.
  apply only_bind; [apply only_modify|]. intros _.
  apply only_bind; [apply only_gets|]. intros n.
  destruct (Z.eqb _ _); [apply only_modify|apply only_ret].
Qed.

Lemma never_dir_worker_item a fs x : never (dir_worker_item a fs x).
Proof.
  intros s e s' E. pose proof (dir_worker_item_res a fs x s) as H.
  by rewrite E in H.
Qed.

Lemma never_file_worker_item blake2b a fs outs x :
  outs <> [] -> never (file_worker_item blake2b a fs outs x).
Proof.
  intros Ho s e s' E. pose proof (file_worker_item_res blake2b a fs outs x s Ho) as H.
  by rewrite E in H.
Qed.

Lemma never_dir_worker a fs fuel : forall alive, never (dir_worker fuel a fs alive).
Proof.
  induction fuel as [|fuel IH]; intros alive; [by intros s e s'|].
  rewrite dir_worker_S. apply only_bind; [apply only_gets|]. intros q.
  destruct alive as [|al]; [apply only_ret|].
  destruct (items q) as [|x xs]; [apply only_ret|].
  apply only_bind; [apply only_modify|]. intros _.
  apply only_bind; [apply never_dir_worker_item|]. intros r. apply IH.
Qed.

Lemma never_stop_dir_workers a fs n : forall alive,
  never (stop_dir_workers n a fs alive).
Proof.
  induction n as [|n IH]; intros alive; cbn [stop_dir_workers];
    [apply only_ret|].
  apply only_bind; [apply never_dir_q_put|]. intros _.
  apply only_bind; [apply never_dir_worker|]. intros al. apply IH.
Qed.

Lemma only_phase1 fuel a fs : only (eq OSError) (phase1 fuel a fs).
Proof.
  unfold phase1.
  apply only_bind; [apply only_modify|]. intros _.
  apply only_bind; [apply only_modify|]. intros _.
  apply only_bind; [apply only_open_append|]. intros _.
  apply only_bind; [apply only_emit_dir|]. intros _.
  apply only_bind; [apply never_only, never_dir_q_put|]. intros _.
  apply only_bind; [apply only_modify|]. intros _.
  apply only_bind; [apply never_only, never_dir_worker|]. intros al.
  apply only_bind; [apply never_only, never_q_join|]. intros _.
  apply only_bind; [apply only_modify|]. intros _.
  apply only_bind; [apply never_only, never_stop_dir_workers|]. intros al'.
  apply only_bind; [apply never_only, never_join_threads|]. intros _.
  apply only_bind; [apply only_modify|]. intros _.
  apply only_bind; [apply only_modify|]. intros _. apply only_modify.
Qed.

Lemma never_file_worker blake2b a fs outs fuel : outs <> [] ->
  forall alive, never (file_worker blake2b fuel a fs outs alive).
Proof.
  intros Ho. induction fuel as [|fuel IH]; intros alive; [by intros s e s'|].
  rewrite file_worker_S. apply only_bind; [apply only_gets|]. intros q.
  destruct alive as [|al]; [apply only_ret|].
  destruct (items q) as [|x xs]; [apply only_ret|].
  apply only_bind; [apply only_modify|]. intros _.
  apply only_bind; [by apply never_file_worker_item|]. intros r. apply IH.
Qed.

Lemma never_hand_over blake2b a fs outs alive x :
  outs <> [] -> never (hand_over blake2b a fs outs alive x).
Proof.
  intros Ho. unfold hand_over.
  apply only_bind; [apply never_dir_in_q_put|]. intros _.
  by apply never_file_worker.
Qed.

Lemma never_stop_file_workers blake2b a fs outs n : outs <> [] ->
  forall alive, never (stop_file_workers blake2b n a fs outs alive).
Proof.
  intros Ho. induction n as [|n IH]; intros alive; cbn [stop_file_workers];
    [apply only_ret|].
  apply only_bind; [by apply never_hand_over|]. intros al. apply IH.
Qed.

Lemma only_put_records put buf :
  (forall d, never (put d)) ->
  forall fuel start, only (eq UnicodeDecodeError) (put_records fuel put buf start).
Proof.
  intros Hp. induction fuel as [|fuel IH]; intros start; [by intros s e s'|].
  simpl. destruct (bytes_index buf 0 start) as [i|]; [|apply only_ret].
  destruct (decode _); [|by apply only_raise].
  apply only_bind; [apply never_only, Hp|]. intros _. apply IH.
Qed.

Lemma only_read_dirs chunk put p :
  (forall d, never (put d)) ->
  forall fuel pos buf, only (eq UnicodeDecodeError) (read_dirs fuel chunk put p pos buf).
Proof.
  intros Hp. induction fuel as [|fuel IH]; intros pos buf; [by intros s e s'|].
  rewrite read_dirs_S. apply only_bind; [apply only_gets|]. intros c.
  destruct c as [|b c]; [apply only_ret|].
  apply only_bind; [by apply only_put_records|]. intros buf2. apply IH.
Qed.

Lemma only_open_outputs om od sh :
  only (fun e => e = OSError
                 \/ e = TypeError /\ (if 0 <? sh then od = None else om = None))
    (open_outputs om od sh).
Proof.
  unfold open_outputs. destruct (0 <? sh).
  - destruct od as [od|]; [|apply only_raise; by right].
    apply only_bind; [|intros _; apply only_ret].
    apply only_for_each. intros p.
    eapply only_weaken; [|apply only_open_append]. intros e <-. by left.
  - destruct om as [om|]; [|apply only_raise; by right].
    apply only_bind; [|intros _; apply only_ret].
    eapply only_weaken; [|apply only_open_append]. intros e <-. by left.
Qed.

Lemma open_outputs_nonempty om od sh s outs s' :
  open_outputs om od sh s = (Ok outs, s') -> outs <> [].
Proof.
  unfold open_outputs. destruct (Z.ltb_spec 0 sh).
  - destruct od as [od|]; [|done]. unfold bind.
    destruct (for_each _ _ s) as [[[]|e| |] s1]; try done.
    intros [= <- _]. unfold range.
    destruct (Z.to_nat sh) eqn:E; [lia|done].
  - destruct om as [om|]; [|done]. unfold bind.
    destruct (open_append om s) as [[[]|e| |] s1]; try done.
    by intros [= <- _].
Qed.

Lemma only_phase2 blake2b a fs :
  only (fun e => e = OSError \/ e = UnicodeDecodeError
                 \/ e = TypeError
                    /\ (if 0 <? shards a then outdir a = None
                        else out_manifest a = None))
    (phase2 blake2b a fs).
Proof.
  intros s e s'. unfold phase2. unfold bind at 1.
  destruct (open_outputs _ _ _ s) as [[outs|e1| |] s1] eqn:Eo; try done.
  - pose proof (open_outputs_nonempty _ _ _ _ _ _ Eo) as Ho.
    clear Eo. revert s1 e s'.
    do 5 (apply only_bind; [apply only_modify|]; intros _).
    apply only_bind; [apply only_gets|]. intros ledger.
    apply only_bind.
    { eapply only_weaken; [|apply only_read_dirs].
      - intros e <-. right. by left.
      - intros d. apply only_bind; [by apply never_hand_over|].
        intros _. apply only_ret. }
    intros _. apply only_bind; [apply never_only, never_q_join|]. intros _.
    apply only_bind; [apply only_modify|]. intros _.
    apply only_bind; [by apply never_only, never_stop_file_workers|]. intros al.
    apply only_bind; [apply never_only, never_join_threads|]. intros _.
    apply only_bind; [apply only_modify|]. intros _.
    apply only_for_each. intros o.
    apply only_bind; [apply only_modify|]. intros _. apply only_modify.
  - intros [= <- _].
    destruct (only_open_outputs _ _ _ _ _ _ Eo) as [->|[-> H]]; [by left|].
    right. right. done.
Qed.

(** X10: the exceptions of [main].  When a check of the command line
    fails, [main] exits with status 2 before it opens or writes any
    file.  Otherwise it never exits through [sys.exit], the router never
    divides by zero nor indexes out of range, and an exception that ends
    the run is an [OSError] of the main thread, a [UnicodeDecodeError]
    of the reader of the ledger, or the [TypeError] of a negative shard
    count without [--out-manifest], which no check refuses; this last
    one comes after phase 1 has written the ledger. *)
Theorem main_exceptions blake2b fuel a fs s :
  (rejected a fs = true ->
   main blake2b fuel a fs s = (Raise (SystemExit 2), s))
  /\ (rejected a fs = false ->
      forall e s', main blake2b fuel a fs s = (Raise e, s') ->
        e = OSError \/ e = UnicodeDecodeError
        \/ e = TypeError /\ shards a < 0 /\ out_manifest a = None
            /\ exists m, phase1 fuel a fs s = (Ok tt, m)).
Proof.
  unfold rejected, main. split.
  - intros H. destruct (negb (isdir fs (root a))); [done|].
    destruct ((shards a =? 0) && falsy (out_manifest a)); [done|].
    destruct ((0 <? shards a) && falsy (outdir a)); done.
  - intros H e s'.
    destruct (negb (isdir fs (root a))); [done|].
    destruct ((shards a =? 0) && falsy (out_manifest a)) eqn:H1; [done|].
    destruct ((0 <? shards a) && falsy (outdir a)) eqn:H2; [done|].
    unfold bind. destruct (phase1 fuel a fs s) as [[[]|e1| |] m] eqn:E1; try done.
    + intros E2. destruct (only_phase2 blake2b a fs _ _ _ E2)
        as [->|[->|[-> Hc]]]; [by left|by right; left|].
      right. right. split; [done|].
      destruct (Z.ltb_spec 0 (shards a)).
      * rewrite Hc in H2. done.
      * rewrite Hc in H1. simpl in H1. rewrite andb_true_r in H1.
        apply Z.eqb_neq in H1. repeat split; [lia|done|by exists m].
    + intros [= <- _]. left. symmetry. by eapply only_phase1.
Qed.

(** ** A second run on the files of the first *)




(** ** The ledger does not depend on the order of the turns *)

Lemma levels_stable a fs : forall n ds,
  Forall (ok n a fs) ds -> levels (S n) a fs ds = levels n a fs ds.
Proof.
  induction n as [|n IH]; intros ds H.
  - destruct ds as [|d ds]; [done|].
    apply Forall_cons in H as [[k Hk] _]. done.
  - destruct (ok_children_all n a fs ds H) as [Hc _].
    change (levels (S (S n)) a fs ds)
      with (flat_map (subdirs a fs) ds
            ++ levels (S n) a fs (flat_map (subdirs a fs) ds)).
    by rewrite IH.
Qed.

Lemma levels_forest a fs : forall n xs ys,
  levels n a fs (xs ++ ys) ≡ₚ levels n a fs xs ++ levels n a fs ys.
Proof.
  induction n as [|n IH]; intros xs ys; simpl; [done|].
  rewrite flat_map_app, IH.
  rewrite <- !app_assoc. f_equiv.
  rewrite !app_assoc. f_equiv. apply Permutation_app_comm.
Qed.

Lemma levels_nil n a fs : levels n a fs [] = [].
Proof. induction n as [|n IH]; [done|]. simpl. exact IH. Qed.

Lemma levels_each a fs n cs :
  levels n a fs cs ≡ₚ flat_map (fun c => levels n a fs [c]) cs.
Proof.
  induction cs as [|c cs IH]; simpl.
  - by rewrite levels_nil.
  - change (c :: cs) with ([c] ++ cs). by rewrite levels_forest, IH.
Qed.

Lemma with_below_split n a fs cs :
  Forall (ok n a fs) cs ->
  cs ++ flat_map (fun c => levels n a fs [c]) cs ≡ₚ with_below (S n) a fs cs.
Proof.
  unfold with_below. induction 1 as [|c cs Hok _ IH]; [done|].
  cbn [flat_map app].
  rewrite (levels_stable a fs n [c]) by by apply Forall_singleton.
  f_equiv. rewrite <- IH, !app_assoc. f_equiv. apply Permutation_app_comm.
Qed.

Lemma levels_unfold n a fs d :
  ok n a fs d ->
  levels n a fs [d] ≡ₚ with_below n a fs (subdirs a fs d).
Proof.
  intros H. destruct n as [|n]; [by destruct H|].
  destruct (ok_children n a fs d H) as [Hc _].
  change (levels (S n) a fs [d])
    with (flat_map (subdirs a fs) [d]
          ++ levels n a fs (flat_map (subdirs a fs) [d])).
  cbn [flat_map]. rewrite app_nil_r, levels_each. by apply with_below_split.
Qed.

Lemma flat_map_insert {A B} (f : A -> list B) l i x y :
  l !! i = Some x ->
  exists rest, flat_map f l ≡ₚ f x ++ rest
               /\ flat_map f (<[i := y]> l) ≡ₚ f y ++ rest.
Proof.
  revert i. induction l as [|z l IH]; intros [|i] H; simplify_eq/=.
  - by exists (flat_map f l).
  - destruct (IH i H) as (rest & H1 & H2). exists (f z ++ rest). split.
    + rewrite H1, !app_assoc. f_equiv. apply Permutation_app_comm.
    + rewrite H2, !app_assoc. f_equiv. apply Permutation_app_comm.
Qed.

Lemma written_app tr es : written (tr ++ es) = written tr ++ written es.
Proof. apply omap_app. Qed.

Lemma written_opens ps : written (EvOpenAppend <$> ps) = [].
Proof. by induction ps. Qed.

Section AnySchedule.
Import Threads.

Lemma worker_step_ledger n a fs w q w' q' es :
  worker_step a fs true w q = Some (w', q', es) ->
  thread_ok n a fs w -> Forall (item_ok n a fs) (items q) ->
  written es
    ++ (ledger_record a <$> (flat_map (item_pending n a fs) (items q')
                             ++ thread_pending n a fs w'))
    ≡ₚ ledger_record a <$> (flat_map (item_pending n a fs) (items q)
                            ++ thread_pending n a fs w)
  /\ thread_ok n a fs w' /\ Forall (item_ok n a fs) (items q').
Proof.
  intros E Hw Hq. destruct w as [|[d|]|d [|de todo]|d de todo| |]; simpl in E.
  - destruct (items q) as [|x l] eqn:Eq; [done|]. simplify_eq. simpl.
    rewrite Eq. simpl.
    apply Forall_cons in Hq as [Hx Hl]. split; [|done].
    rewrite app_nil_r. f_equiv. apply Permutation_app_comm.
  - simplify_eq. simpl in *. split; [|split; [|done]].
    + f_equiv. f_equiv. symmetry. by apply levels_unfold.
    + by apply ok_subdirs.
  - by simplify_eq.
  - by simplify_eq.
  - simpl in Hw. unfold thread_pending in *. simpl.
    destruct (followed a de) eqn:F; simpl in E; simplify_eq.
    + apply Forall_cons in Hw as [H1 H2]. split; [|done].
      unfold with_below. cbn [flat_map written omap app].
      rewrite !fmap_app, fmap_cons, fmap_app. simpl.
      by rewrite <- Permutation_middle.
    + done.
  - unfold q_put in E.
    destruct ((0 <? maxq a) && (maxq a <=? Z.of_nat (length (items q))));
      [done|].
    simplify_eq. simpl in *. destruct Hw as [H1 H2]. split; [|split; [done|]].
    + rewrite flat_map_app. simpl. by rewrite app_nil_r, <- !app_assoc.
    + apply Forall_app. split; [done|]. by constructor.
  - by simplify_eq.
  - done.
Qed.

Lemma ledger_inv_init n a fs :
  ok n a fs (root a) -> ledger_inv n a fs (init a).
Proof.
  intros H. unfold ledger_inv, pending. simpl.
  assert (forall k, flat_map (thread_pending n a fs) (replicate k Waiting) = [])
    as -> by (by induction k).
  rewrite !app_nil_r. split; [done|]. split.
  - by repeat constructor.
  - by apply Forall_replicate.
Qed.

Lemma ledger_inv_thread n a fs i c c' :
  step a fs (Thread i true) c = Some c' ->
  ledger_inv n a fs c -> ledger_inv n a fs c'.
Proof.
  unfold step. intros E (P & Hq & Ht).
  destruct (ths1 c !! i) as [w|] eqn:Hi; [|done].
  destruct (worker_step a fs true w (tasks c)) as [[[w' q'] es]|] eqn:Ew;
    [|done].
  simplify_eq.
  destruct (worker_step_ledger n a fs _ _ _ _ _ Ew) as (W & Hw' & Hq');
    [by eapply Forall_lookup_1|done|].
  destruct (flat_map_insert (thread_pending n a fs) _ i w w' Hi)
    as (rest & R1 & R2).
  split; [|split]; simpl.
  - unfold pending in *. simpl. rewrite <- P, written_app, R1, R2.
    rewrite <- !app_assoc. f_equiv.
    rewrite !(app_assoc _ _ rest), !fmap_app, !app_assoc. f_equiv.
    by rewrite <- !app_assoc, <- !fmap_app.
  - done.
  - by apply Forall_insert.
Qed.

Lemma ledger_inv_main n a fs c c' :
  main_step a c = Some c' -> ledger_inv n a fs c -> ledger_inv n a fs c'.
Proof.
  unfold main_step, ledger_inv, pending. intros E (P & Hq & Ht).
  destruct (main_at c) as [|[|k]|j| | | | | |]; simpl in E.
  - destruct (unfinished_tasks (tasks c) =? 0); simplify_eq. simpl.
    by rewrite written_app, app_nil_r.
  - simplify_eq. simpl. by rewrite written_app, app_nil_r.
  - unfold q_put in E.
    destruct ((0 <? maxq a)
              && (maxq a <=? Z.of_nat (length (items (tasks c))))); [done|].
    simplify_eq. simpl. rewrite flat_map_app. simpl. rewrite app_nil_r.
    split; [done|]. split; [|done].
    apply Forall_app. split; [done|]. by constructor.
  - destruct (ths1 c !! j) as [[]|]; simplify_eq; simpl;
      by rewrite written_app, app_nil_r.
  - simplify_eq. simpl. by rewrite written_app, app_nil_r.
  - simplify_eq. simpl. by rewrite written_app, app_nil_r.
  - simplify_eq. simpl. by rewrite written_app, written_opens, app_nil_r.
  - simplify_eq. simpl. by rewrite written_app, app_nil_r.
  - simplify_eq. simpl. by rewrite written_app, app_nil_r.
  - done.
Qed.

Lemma ledger_inv_run n a fs sched : forall c c',
  faultless sched = true -> run a fs sched c = Some c' ->
  ledger_inv n a fs c -> ledger_inv n a fs c'.
Proof.
  induction sched as [|act sched IH]; intros c c' F E Hc; simpl in E.
  { by simplify_eq. }
  destruct (step a fs act c) as [c1|] eqn:E1; [|done].
  simpl in F. apply andb_true_iff in F as [F1 F2].
  apply (IH c1 c' F2 E). destruct act as [|i [|]]; [| |done].
  - by apply (ledger_inv_main n a fs c).
  - by apply (ledger_inv_thread n a fs i c).
Qed.

Lemma quiet_pending n a fs c :
  count busy (ths1 c) = O ->
  count is_stop (items (tasks c)) = length (items (tasks c)) ->
  pending n a fs c = [].
Proof.
  intros Hb Hs. unfold pending.
  assert (flat_map (item_pending n a fs) (items (tasks c)) = []) as ->.
  { apply count_full in Hs. induction Hs as [|x l Hx _ IH]; [done|].
    destruct x; [done|]. exact IH. }
  assert (forall l, count busy l = O ->
            flat_map (thread_pending n a fs) l = []) as Q.
  { induction l as [|w l IH]; [done|]. simpl. intros H.
    destruct w as [|[|]| | | |]; simpl in *; try done; by apply IH. }
  by rewrite Q.
Qed.

(** X12: whatever the order in which the threads of phase 1 take their
    turns, as long as no write fails, what the threads have written is
    at every moment a part of the records of the directories below the
    root, none of them more often than the tree has it; and once
    [dir_q.join()] has returned they have written the record of each
    directory below the root, no more and no less (the record of the
    root is written before the threads start).  The order of the
    records is the only thing the schedule decides. *)
Theorem ledger_any_schedule n a fs sched c :
  ok n a fs (root a) -> faultless sched = true ->
  run a fs sched (init a) = Some c ->
  written (trace c) ⊆+ ledger_record a <$> levels n a fs [root a]
  /\ (main_at c <> JoinQueue ->
      written (trace c) ≡ₚ ledger_record a <$> levels n a fs [root a]).
Proof.
  intros Hok F E.
  pose proof (ledger_inv_run n a fs sched _ _ F E (ledger_inv_init n a fs Hok))
    as (P & _ & _).
  split.
  - rewrite <- P. by apply submseteq_inserts_r.
  - intros Hm.
    pose proof (inv_run a fs sched _ _ E (inv_init a)) as [_ _ _ I4 _ _ _].
    destruct (I4 Hm) as [Hb Hs].
    by rewrite (quiet_pending n a fs c Hb Hs), app_nil_r in P.
Qed.

Lemma ledger_any_schedule_witness :
  exists c, run args1 tree1 sched1 (init args1) = Some c
    /\ written (trace c) ≡ₚ [enc_record (lit "a")].
Proof.
  eexists. split; [vm_compute; reflexivity|].
  apply (ledger_any_schedule 3 args1 tree1 sched1).
  - exists 2%nat. vm_compute. reflexivity.
  - vm_compute. reflexivity.
  - vm_compute. reflexivity.
  - vm_compute. discriminate.
Defined.

End AnySchedule.
